(** * SpriteSlice: the frame-extraction core of [services/processor.ts]

    A shallow embedding of the processor module (hex colours, grid
    enumeration, island detection, alpha bounds, colour keying, frame
    extraction) together with the properties stated about it, followed by
    the state logic of the application around it: frame generation,
    deletion, reordering and export in [App.tsx], the rectangle editing of
    [CanvasWorkspace.tsx], the selection of [FrameList.tsx] and the frame
    counter of [PreviewModal.tsx].

    Conventions of the embedding.
    - A JavaScript [number] that holds a pixel coordinate, a size, a byte of
      the pixel buffer or a slider setting (tolerance, feather, grid
      values) is an integer [Z]; arithmetic on it is exact, as binary64
      is on integers below [2^53].  The one place where the source leaves
      the integers,
      [Math.round(alpha * ((Math.sqrt(distSq) - tol) / featherPx))], is
      computed in exact arithmetic (see [roundRamp]) and related to the
      real-number expression in [roundRamp_real]; the rounding of binary64
      can move the result by one when [alpha * t] falls exactly on a half
      ([roundRamp_binary64_tie]), so what is stated of the band is that
      the alpha is an integer nearest to [alpha * t].
    - Module [Binary64] has the grid cursor and the feather ramp in
      primitive binary64 numbers, for the inputs on which the source
      departs from the integers.
    - [ImageData.data] (a [Uint8ClampedArray]) is a [list Z] read with
      [!!] and written with [<[i:=v]>]; a write outside the array does
      nothing, as for typed arrays, and a stored value is clamped to a byte.
    - A [while] loop that the source does not bound runs on fuel and
      answers [None] when the fuel is used up.
    - A JavaScript string is a [string] of 8-bit characters; a code unit
      beyond them is no hexadecimal digit either.
    - A [Set] of strings is a [gset string]; a React state variable is a
      field of a record and a state update a function on that record.
    - The average [r / count] of [detectBackgroundColor] is an exact
      rational. *)

From Stdlib Require Import ZArith Lia List String Ascii DecimalString DecimalNat Bool.
From Stdlib Require Import Reals Lra.
From Stdlib Require HexadecimalString QArith Qround Floats.
From stdpp Require Import base list gmap.

(** stdpp's [strings] freezes [String.append] under [simpl]; the colour
    parser computes with it. *)
#[global] Arguments String.append : simpl nomatch.

Local Open Scope Z_scope.

(** ** Colour model *)

Module ColorRGB.
Record t := mk { r : Z; g : Z; b : Z }.
End ColorRGB.

(** The character class [[a-f\d]] under the [i] flag. *)
Definition hexClass (c : ascii) : bool :=
  let n := Z.of_nat (nat_of_ascii c) in
  ((48 <=? n) && (n <=? 57)) || ((97 <=? n) && (n <=? 102))
  || ((65 <=? n) && (n <=? 70)).

(** Value of one hexadecimal digit, as [parseInt(_, 16)] reads it. *)
Definition hexDigitValue (c : ascii) : Z :=
  let n := Z.of_nat (nat_of_ascii c) in
  if (48 <=? n) && (n <=? 57) then n - 48
  else if (97 <=? n) && (n <=? 102) then n - 87
  else n - 55.

(** [parseInt(s, 16)] on a captured group of two hexadecimal digits. *)
Definition parseInt16 (hi lo : ascii) : Z :=
  16 * hexDigitValue hi + hexDigitValue lo.

(** One capture group [([a-f\d]{2})]: the two characters and the rest. *)
Definition group2 (s : string) : option (ascii * ascii * string) :=
  match s with
  | String c1 (String c2 rest) =>
      if hexClass c1 && hexClass c2 then Some (c1, c2, rest) else None
  | _ => None
  end.

(** The three groups followed by [$]. *)
Definition groups (s : string) : option ColorRGB.t :=
  match group2 s with
  | Some (r1, r2, s1) =>
      match group2 s1 with
      | Some (g1, g2, s2) =>
          match group2 s2 with
          | Some (b1, b2, EmptyString) =>
              Some (ColorRGB.mk (parseInt16 r1 r2) (parseInt16 g1 g2)
                            (parseInt16 b1 b2))
          | _ => None
          end
      | None => None
      end
  | None => None
  end.

(** [/^#?([a-f\d]{2})([a-f\d]{2})([a-f\d]{2})$/i.exec(hex)]: the greedy
    [#?] first takes a leading [#]; when the rest then fails the matcher
    backtracks and tries the groups on the whole string. *)
Definition hexToRgb (hex : string) : option ColorRGB.t :=
  match hex with
  | String "#"%char rest =>
      match groups rest with
      | Some c => Some c
      | None => groups hex
      end
  | _ => groups hex
  end.

(** The accepted format in the words of the specification: an optional
    leading [#] followed by exactly six hexadecimal digits of either case. *)
Definition hexDigits : list ascii :=
  list_ascii_of_string "0123456789abcdefABCDEF".

Definition isHexDigit (c : ascii) : Prop := In c hexDigits.

Definition sixHexDigits (s : string) : Prop :=
  exists (pre : string) (ds : list ascii),
    (pre = EmptyString \/ pre = "#"%string) /\
    s = (pre ++ string_of_list_ascii ds)%string /\
    length ds = 6%nat /\ Forall isHexDigit ds.

Definition isByte (v : Z) : Prop := 0 <= v <= 255.

(** ** Data contracts *)

(** Modelled from the spec: the declaration of [Rect] in [../types], which
    is not among the sources; the fields are those the processor writes:
    [{ id, x, y, w, h }]. *)
Module Rect.
Record t := mk { id : string; x : Z; y : Z; w : Z; h : Z }.
End Rect.

(** Modelled from the spec: the [grid] part of [AppSettings] in [../types],
    not among the sources; the fields are those [calculateGridRects]
    destructures. *)
Module Grid.
Record t := mk {
  width : Z; height : Z;
  marginX : Z; marginY : Z;
  spacingX : Z; spacingY : Z }.
End Grid.

(** Modelled from the spec: the [islands] part of [AppSettings]. *)
Module Islands.
Record t := mk { minWidth : Z; minHeight : Z }.
End Islands.

(** Modelled from the spec: the [processing] part of [AppSettings]; the
    fields are those [extractFrame] reads. *)
Module Processing.
Record t := mk {
  autoTrim : bool;
  colorKeyEnabled : bool;
  colorKeyColors : list string;
  colorKeyTolerance : Z;
  colorKeyFeather : Z }.
End Processing.

(** Modelled from the spec: the [mode] of [AppSettings] (grid, islands or
    manual). *)
Inductive Mode := ModeGrid | ModeIslands | ModeManual.

(** Modelled from the spec: [AppSettings] of [../types]. *)
Module AppSettings.
Record t := mk {
  mode : Mode;
  grid : Grid.t;
  islands : Islands.t;
  processing : Processing.t }.
End AppSettings.

(** The browser's [ImageData]: [data] holds [width * height] pixels of four
    bytes (R, G, B, A), row by row. *)
Module ImageData.
Record t := mk { width : Z; height : Z; data : list Z }.
End ImageData.

(** The template literal [`prefix${n}`]. *)
Definition decimal (n : nat) : string := NilEmpty.string_of_uint (Nat.to_uint n).
Definition gridId (n : nat) : string := ("grid-" ++ decimal n)%string.
Definition islandId (n : nat) : string := ("island-" ++ decimal n)%string.

(** The values [0, 1, ..., n-1] of a counting [for] loop. *)
Definition range (n : Z) : list Z := map Z.of_nat (seq 0 (Z.to_nat n)).

(** ** Grid enumerator *)

Section GridLoops.
Variables (imgWidth imgHeight : Z) (grid : Grid.t).

(** [while (x + width <= imgWidth) { rects.push(..); x += width + spacingX }] *)
Fixpoint gridRow (fuel : nat) (x y : Z) (idCounter : nat)
    (rects : list Rect.t) : option (Z * nat * list Rect.t) :=
  match fuel with
  | O => None
  | S fuel' =>
      if x + Grid.width grid <=? imgWidth then
        gridRow fuel' (x + (Grid.width grid + Grid.spacingX grid)) y
          (S idCounter)
          (rects ++ [Rect.mk (gridId idCounter) x y
                       (Grid.width grid) (Grid.height grid)])
      else Some (x, idCounter, rects)
  end.

(** [while (y + height <= imgHeight) { <row>; x = marginX; y += height + spacingY }];
    every run of the inner loop may use [n] steps. *)
Fixpoint gridRows (n fuel : nat) (x y : Z) (idCounter : nat)
    (rects : list Rect.t) : option (list Rect.t) :=
  match fuel with
  | O => None
  | S fuel' =>
      if y + Grid.height grid <=? imgHeight then
        match gridRow n x y idCounter rects with
        | Some (_, idCounter', rects') =>
            gridRows n fuel' (Grid.marginX grid)
              (y + (Grid.height grid + Grid.spacingY grid)) idCounter' rects'
        | None => None
        end
      else Some rects
  end.
End GridLoops.

Definition calculateGridRects (fuel : nat) (imgWidth imgHeight : Z)
    (grid : Grid.t) : option (list Rect.t) :=
  if (Grid.width grid <=? 0) || (Grid.height grid <=? 0) then Some []
  else gridRows imgWidth imgHeight grid fuel fuel
         (Grid.marginX grid) (Grid.marginY grid) 0%nat [].

(** The grid in closed form: [cells a step size limit] is the number of
    cursor positions [a, a + step, ...] at which a cell of [size] still
    fits below [limit]. *)
Definition cells (a step size limit : Z) : Z :=
  if a + size <=? limit then (limit - size - a) / step + 1 else 0.

Definition gridSpec (imgWidth imgHeight : Z) (grid : Grid.t) : list Rect.t :=
  let cols := cells (Grid.marginX grid) (Grid.width grid + Grid.spacingX grid)
                (Grid.width grid) imgWidth in
  let rows := cells (Grid.marginY grid) (Grid.height grid + Grid.spacingY grid)
                (Grid.height grid) imgHeight in
  flat_map (fun j =>
    map (fun i =>
      Rect.mk (gridId (Z.to_nat (j * cols + i)))
        (Grid.marginX grid + i * (Grid.width grid + Grid.spacingX grid))
        (Grid.marginY grid + j * (Grid.height grid + Grid.spacingY grid))
        (Grid.width grid) (Grid.height grid))
      (range cols))
    (range rows).

(** The cells pushed by one run of the inner loop started at [x]. *)
Definition rowRects (grid : Grid.t) (x y : Z) (idCounter n : nat) : list Rect.t :=
  map (fun i : nat =>
         Rect.mk (gridId (idCounter + i))
           (x + Z.of_nat i * (Grid.width grid + Grid.spacingX grid)) y
           (Grid.width grid) (Grid.height grid))
    (seq 0 n).

(** The rows pushed by the outer loop started at [y]. *)
Definition rowsRects (grid : Grid.t) (y : Z) (idCounter cols m : nat) : list Rect.t :=
  flat_map (fun j : nat =>
              rowRects grid (Grid.marginX grid)
                (y + Z.of_nat j * (Grid.height grid + Grid.spacingY grid))
                (idCounter + j * cols) cols)
    (seq 0 m).

(** ** Colour keying *)

(** Storing a number into a [Uint8ClampedArray]. *)
Definition toUint8Clamp (v : Z) : Z := Z.max 0 (Z.min 255 v).

(** [Math.round(alpha * ((Math.sqrt(distSq) - tol) / featherPx))] for
    [alpha >= 0] and [featherPx > 0]: [Math.round] is [floor (_ + 1/2)],
    and [floor (alpha * (sqrt d - tol) / f + 1/2)] is
    [floor ((sqrt (4 alpha^2 d) + f - 2 alpha tol) / (2 f))], in which the
    square root may be replaced by its integer part. *)
Definition roundRamp (alpha distSq tol featherPx : Z) : Z :=
  (Z.sqrt (4 * alpha * alpha * distSq) + featherPx - 2 * alpha * tol)
  / (2 * featherPx).

(** The same value written with real numbers, as the source has it. *)
Definition rampFactor (distSq tol featherPx : Z) : R :=
  ((sqrt (IZR distSq) - IZR tol) / IZR featherPx)%R.

Definition mathRound (v : R) : Z := Int_part (v + / 2)%R.

(** [n] is an integer nearest to [v]: the nearest one, or either
    neighbour when [v] lies exactly half way between two integers. *)
Definition nearest (v : R) (n : Z) : Prop := (Rabs (IZR n - v) <= / 2)%R.

(** A colour of three bytes, as [hexToRgb] returns it. *)
Definition isColor (c : ColorRGB.t) : Prop :=
  isByte (ColorRGB.r c) /\ isByte (ColorRGB.g c) /\ isByte (ColorRGB.b c).

Definition distSq (target : ColorRGB.t) (r g b : Z) : Z :=
  (r - ColorRGB.r target) ^ 2 + (g - ColorRGB.g target) ^ 2
  + (b - ColorRGB.b target) ^ 2.

(** What the loop body stores for a pixel with colour [r g b] and alpha [a]. *)
Definition keyedAlpha (target : ColorRGB.t) (tol featherPx : Z)
    (r g b a : Z) : Z :=
  let tolSq := tol * tol in
  let featherSq := (tol + featherPx) * (tol + featherPx) in
  let d := distSq target r g b in
  if d <=? tolSq then 0
  else if (0 <? featherPx) && (d <=? featherSq)
       then toUint8Clamp (roundRamp a d tol featherPx)
       else a.

(** The body of [for (let i = 0; i < data.length; i += 4)] at index [i].
    A channel read past the end is [undefined]; every comparison with the
    resulting [NaN] is false and nothing is written. *)
Definition keyPixel (target : ColorRGB.t) (tol featherPx : Z)
    (data : list Z) (i : nat) : list Z :=
  match data !! i, data !! (i + 1)%nat, data !! (i + 2)%nat with
  | Some r, Some g, Some b =>
      let tolSq := tol * tol in
      let featherSq := (tol + featherPx) * (tol + featherPx) in
      let d := distSq target r g b in
      if d <=? tolSq then <[(i + 3)%nat := 0]> data
      else if (0 <? featherPx) && (d <=? featherSq) then
        match data !! (i + 3)%nat with
        | Some a =>
            <[(i + 3)%nat := toUint8Clamp (roundRamp a d tol featherPx)]> data
        | None => data
        end
      else data
  | _, _, _ => data
  end.

(** The indices [0, 4, 8, ...] below [len]. *)
Definition pixelStarts (len : nat) : list nat :=
  map (fun k => (4 * k)%nat) (seq 0 ((len + 3) / 4)).

Definition keyData (target : ColorRGB.t) (tolerance feather : Z)
    (data : list Z) : list Z :=
  let tol := Z.max 0 tolerance in
  let featherPx := Z.max 0 feather in
  fold_left (keyPixel target tol featherPx) (pixelStarts (length data)) data.

Definition applyColorKeyToImageData (imageData : ImageData.t)
    (targetColor : ColorRGB.t) (tolerance feather : Z) : ImageData.t :=
  ImageData.mk (ImageData.width imageData) (ImageData.height imageData)
    (keyData targetColor tolerance feather (ImageData.data imageData)).

Definition applyColorKeysToImageData (imageData : ImageData.t)
    (targetColors : list ColorRGB.t) (tolerance feather : Z) : ImageData.t :=
  match targetColors with
  | [] => imageData
  | _ =>
      fold_left (fun im color => applyColorKeyToImageData im color tolerance feather)
        targetColors imageData
  end.

(** The loop seen as a map over the pixels: every complete group of four
    bytes keeps R, G, B and gets the alpha [f r g b a]. *)
Fixpoint mapAlpha (f : Z -> Z -> Z -> Z -> Z) (data : list Z) : list Z :=
  match data with
  | r :: g :: b :: a :: rest => r :: g :: b :: f r g b a :: mapAlpha f rest
  | _ => data
  end.

(** The alpha left by keying the colours of [targets] one after the other. *)
Definition keyedAlphas (targets : list ColorRGB.t) (tol featherPx : Z)
    (r g b a : Z) : Z :=
  fold_left (fun a c => keyedAlpha c tol featherPx r g b a) targets a.

(** ** Bounds scanner *)

Module Bounds.
Record t := mk { x : Z; y : Z; w : Z; h : Z }.
End Bounds.

(** [data[(y * width + x) * 4 + 3]]; [None] is [undefined]. *)
Definition alphaAt (im : ImageData.t) (x y : Z) : option Z :=
  ImageData.data im !! Z.to_nat ((y * ImageData.width im + x) * 4 + 3).

(** The running [minX, minY, maxX, maxY]. *)
Module Extent.
Record t := mk { minX : Z; minY : Z; maxX : Z; maxY : Z }.
End Extent.

(** The four updates [if (x < minX) minX = x; ...]. *)
Definition stretch (e : Extent.t) (x y : Z) : Extent.t :=
  Extent.mk
    (if x <? Extent.minX e then x else Extent.minX e)
    (if y <? Extent.minY e then y else Extent.minY e)
    (if Extent.maxX e <? x then x else Extent.maxX e)
    (if Extent.maxY e <? y then y else Extent.maxY e).

Definition scanPixel (im : ImageData.t) (y : Z) (e : Extent.t) (x : Z) : Extent.t :=
  match alphaAt im x y with
  | Some alpha => if 0 <? alpha then stretch e x y else e
  | None => e
  end.

Definition scanRow (im : ImageData.t) (e : Extent.t) (y : Z) : Extent.t :=
  fold_left (scanPixel im y) (range (ImageData.width im)) e.

Definition scanExtent (im : ImageData.t) : Extent.t :=
  fold_left (scanRow im) (range (ImageData.height im))
    (Extent.mk (ImageData.width im) (ImageData.height im) (-1) (-1)).

Definition getTrimmedBounds (imageData : ImageData.t) : option Bounds.t :=
  let e := scanExtent imageData in
  if Extent.maxX e =? -1 then None
  else Some (Bounds.mk (Extent.minX e) (Extent.minY e)
               (Extent.maxX e - Extent.minX e + 1)
               (Extent.maxY e - Extent.minY e + 1)).

(** ** Frame extractor *)

Module Point.
Record t := mk { x : Z; y : Z }.
End Point.

Module Size.
Record t := mk { w : Z; h : Z }.
End Size.

Section Extract.
(** The browser objects the extractor relies on.  A [Blob] is opaque;
    [getContext('2d')] may answer [null] and [toBlob] may hand [null] to
    its callback.  The source image is taken as its decoded bitmap, and a
    canvas as the bitmap it shows. *)
Variable Blob : Type.

(** Modelled from the spec: [FrameData] of [../types], not among the
    sources; the fields are those [extractFrame] returns. *)
Record FrameData := mkFrame {
  id : string;
  blob : Blob;
  url : string;
  rect : Rect.t;
  trimOffset : Point.t;
  trimmedSize : Size.t;
  originalSize : Size.t }.

Record Dom := mkDom {
  context2d : bool;          (* [canvas.getContext('2d')] is not null *)
  trimmedContext2d : bool;   (* [trimmedCanvas.getContext('2d')] is not null *)
  toBlob : ImageData.t -> option Blob;
  createObjectURL : Blob -> string }.

(** The pixel of the bitmap at [(x, y)]; transparent black off the bitmap. *)
Definition pixelAt (img : ImageData.t) (x y : Z) : list Z :=
  if (0 <=? x) && (x <? ImageData.width img)
     && (0 <=? y) && (y <? ImageData.height img)
  then
    let i := Z.to_nat ((y * ImageData.width img + x) * 4) in
    [ default 0 (ImageData.data img !! i);
      default 0 (ImageData.data img !! (i + 1)%nat);
      default 0 (ImageData.data img !! (i + 2)%nat);
      default 0 (ImageData.data img !! (i + 3)%nat) ]
  else [0; 0; 0; 0].

(** A fresh [w * h] canvas showing the region of [img] whose top-left
    corner is [(x, y)]: [drawImage(img, x, y, w, h, 0, 0, w, h)] followed
    by [getImageData(0, 0, w, h)], and likewise
    [putImageData(img, -x, -y)] on a [w * h] canvas. *)
Definition region (img : ImageData.t) (x y w h : Z) : ImageData.t :=
  ImageData.mk w h
    (flat_map (fun dy => flat_map (fun dx => pixelAt img (x + dx) (y + dy))
                           (range w))
              (range h)).

(** [colorKeyColors.map(hexToRgb).filter(c => !!c)] *)
Definition keyColors (settings : AppSettings.t) : list ColorRGB.t :=
  omap hexToRgb (Processing.colorKeyColors (AppSettings.processing settings)).

(** Steps 1 and 2: the slice of the rectangle, colour keyed when keying
    is enabled and at least one colour parses. *)
Definition keyedSlice (sourceImage : ImageData.t) (rect : Rect.t)
    (settings : AppSettings.t) : ImageData.t :=
  let imageData :=
    region sourceImage (Rect.x rect) (Rect.y rect) (Rect.w rect) (Rect.h rect) in
  let processing := AppSettings.processing settings in
  if Processing.colorKeyEnabled processing then
    match keyColors settings with
    | [] => imageData
    | rgbs =>
        applyColorKeysToImageData imageData rgbs
          (Processing.colorKeyTolerance processing)
          (Processing.colorKeyFeather processing)
    end
  else imageData.

Definition extractFrame (dom : Dom) (sourceImage : ImageData.t)
    (rect : Rect.t) (settings : AppSettings.t) : option FrameData :=
  if negb (context2d dom) then None else
  (* 1. slice, 2. colour key; the canvas shows the same pixels *)
  let imageData := keyedSlice sourceImage rect settings in
  let canvas := imageData in
  (* 3. scan for content *)
  match getTrimmedBounds imageData with
  | None => None
  | Some bounds =>
      (* 4. auto trim *)
      if Processing.autoTrim (AppSettings.processing settings) then
        if negb (trimmedContext2d dom) then None else
        let trimmedCanvas :=
          region imageData (Bounds.x bounds) (Bounds.y bounds)
            (Bounds.w bounds) (Bounds.h bounds) in
        match toBlob dom trimmedCanvas with
        | None => None
        | Some blob =>
            Some (mkFrame (Rect.id rect) blob (createObjectURL dom blob) rect
                    (Point.mk (Bounds.x bounds) (Bounds.y bounds))
                    (Size.mk (Bounds.w bounds) (Bounds.h bounds))
                    (Size.mk (Rect.w rect) (Rect.h rect)))
        end
      else
        match toBlob dom canvas with
        | None => None
        | Some blob =>
            Some (mkFrame (Rect.id rect) blob (createObjectURL dom blob) rect
                    (Point.mk 0 0)
                    (Size.mk (Rect.w rect) (Rect.h rect))
                    (Size.mk (Rect.w rect) (Rect.h rect)))
        end
  end.

(** The canvas that [extractFrame] hands to [toBlob] once the slice has
    content: the trimmed canvas with [autoTrim], the sliced one without. *)
Definition encodedCanvas (sourceImage : ImageData.t) (rect : Rect.t)
    (settings : AppSettings.t) : option ImageData.t :=
  let imageData := keyedSlice sourceImage rect settings in
  match getTrimmedBounds imageData with
  | None => None
  | Some bounds =>
      if Processing.autoTrim (AppSettings.processing settings) then
        Some (region imageData (Bounds.x bounds) (Bounds.y bounds)
                (Bounds.w bounds) (Bounds.h bounds))
      else Some imageData
  end.

(** "No pixel of the buffer has alpha > 0". *)
Definition fullyTransparent (im : ImageData.t) : Prop :=
  forall x y a,
    0 <= x < ImageData.width im -> 0 <= y < ImageData.height im ->
    alphaAt im x y = Some a -> a <= 0.
End Extract.

Arguments mkFrame {Blob}.
Arguments id {Blob}.
Arguments blob {Blob}.
Arguments url {Blob}.
Arguments rect {Blob}.
Arguments trimOffset {Blob}.
Arguments trimmedSize {Blob}.
Arguments originalSize {Blob}.
Arguments mkDom {Blob}.
Arguments context2d {Blob}.
Arguments trimmedContext2d {Blob}.
Arguments toBlob {Blob}.
Arguments createObjectURL {Blob}.
Arguments extractFrame {Blob}.

(** ** Island detector *)

(** [data[idx * 4 + 3] === 0]; an [undefined] byte is not [0]. *)
Definition isTransparent (data : list Z) (idx : Z) : bool :=
  match data !! Z.to_nat (idx * 4 + 3) with
  | Some a => a =? 0
  | None => false
  end.

(** [visited[n]] as a truth value; the [Uint8Array] holds 0 or 1. *)
Definition visitedAt (visited : list bool) (n : Z) : bool :=
  default false (visited !! Z.to_nat n).

(** The state of one flood fill; the head of [stack] is the top. *)
Module Flood.
Record t := mk { stack : list Z; visited : list bool; extent : Extent.t }.
End Flood.

(** The body of [for (const n of neighbors)]. *)
Definition visitNeighbor (data : list Z) (acc : list bool * list Z) (n : Z)
    : list bool * list Z :=
  let '(visited, stack) := acc in
  if (0 <=? n) && (n <? Z.of_nat (length visited))
     && negb (visitedAt visited n) && negb (isTransparent data n)
  then (<[Z.to_nat n := true]> visited, n :: stack)
  else acc.

Definition neighbors (width curr : Z) : list Z :=
  let cx := Z.rem curr width in
  [ curr - width;
    curr + width;
    if 0 <? cx then curr - 1 else -1;
    if cx <? width - 1 then curr + 1 else -1 ].

(** One turn of [while (stack.length > 0)] on a non-empty stack. *)
Definition floodStep (width : Z) (data : list Z) (curr : Z) (rest : list Z)
    (st : Flood.t) : Flood.t :=
  let cy := curr / width in
  let cx := Z.rem curr width in
  let '(visited', stack') :=
    fold_left (visitNeighbor data) (neighbors width curr)
      (Flood.visited st, rest) in
  Flood.mk stack' visited' (stretch (Flood.extent st) cx cy).

Fixpoint flood (width : Z) (data : list Z) (fuel : nat) (st : Flood.t)
    : option Flood.t :=
  match fuel with
  | O => None
  | S fuel' =>
      match Flood.stack st with
      | [] => Some st
      | curr :: rest => flood width data fuel' (floodStep width data curr rest st)
      end
  end.

(** What the two [for] loops carry: the marks, the rectangles and the counter. *)
Module Scan.
Record t := mk { visited : list bool; rects : list Rect.t; idCounter : nat }.
End Scan.

(** The body of the inner [for] loop at [(x, y)]. *)
Definition scanCell (im : ImageData.t) (minWidth minHeight : Z)
    (x y : Z) (s : Scan.t) : option Scan.t :=
  let width := ImageData.width im in
  let data := ImageData.data im in
  let idx := y * width + x in
  if visitedAt (Scan.visited s) idx || isTransparent data idx then Some s
  else
    let visited := <[Z.to_nat idx := true]> (Scan.visited s) in
    match flood width data (S (length visited))
            (Flood.mk [idx] visited (Extent.mk x y x y)) with
    | None => None
    | Some f =>
        let e := Flood.extent f in
        let w := Extent.maxX e - Extent.minX e + 1 in
        let h := Extent.maxY e - Extent.minY e + 1 in
        if (minWidth <=? w) && (minHeight <=? h) then
          Some (Scan.mk (Flood.visited f)
                  (Scan.rects s ++
                     [Rect.mk (islandId (Scan.idCounter s))
                        (Extent.minX e) (Extent.minY e) w h])
                  (S (Scan.idCounter s)))
        else Some (Scan.mk (Flood.visited f) (Scan.rects s) (Scan.idCounter s))
    end.

(** A loop whose body may run out of fuel. *)
Definition foldOpt {A S : Type} (f : A -> S -> option S) (l : list A)
    (s : option S) : option S :=
  fold_left (fun acc a => match acc with Some s => f a s | None => None end) l s.

Definition scanCells (im : ImageData.t) (minWidth minHeight : Z)
    (s : Scan.t) : option Scan.t :=
  foldOpt (fun y s =>
             foldOpt (fun x s => scanCell im minWidth minHeight x y s)
               (range (ImageData.width im)) (Some s))
    (range (ImageData.height im)) (Some s).

Definition detectIslands (imageData : ImageData.t) (minWidth minHeight : Z)
    : option (list Rect.t) :=
  let visited :=
    replicate (Z.to_nat (ImageData.width imageData * ImageData.height imageData))
      false in
  match scanCells imageData minWidth minHeight (Scan.mk visited [] 0%nat) with
  | Some s => Some (Scan.rects s)
  | None => None
  end.

(** *** Notions used to state what a flood fill computes *)

(** The number of unvisited marks. *)
Fixpoint countFalse (v : list bool) : nat :=
  match v with
  | [] => 0
  | true :: v' => countFalse v'
  | false :: v' => S (countFalse v')
  end.

(** The extent [e] contains the pixel with index [p] of an image of width [W]. *)
Definition covers (W : Z) (e : Extent.t) (p : Z) : Prop :=
  Extent.minX e <= Z.rem p W <= Extent.maxX e /\
  Extent.minY e <= p / W <= Extent.maxY e.

(** Each side of the extent [e] touches a pixel of the region [R]. *)
Definition attained (W : Z) (R : Z -> Prop) (e : Extent.t) : Prop :=
  (exists p, R p /\ Z.rem p W = Extent.minX e) /\
  (exists p, R p /\ Z.rem p W = Extent.maxX e) /\
  (exists p, R p /\ p / W = Extent.minY e) /\
  (exists p, R p /\ p / W = Extent.maxY e).

(** The pixels of the region [R] that the fill reaches from [seed]. *)
Inductive reach (W : Z) (R : Z -> Prop) (seed : Z) : Z -> Prop :=
| reach_seed : reach W R seed seed
| reach_step (p q : Z) :
    reach W R seed p -> R q -> In q (neighbors W p) -> reach W R seed q.

(** The loop invariant of [flood] while it fills the region [R], started
    from the marks [v0]. *)
Record floodInv (W : Z) (v0 : list bool) (R : Z -> Prop) (seed : Z)
    (st : Flood.t) : Prop := mkFloodInv {
  inv_len : length (Flood.visited st) = length v0;
  inv_out : forall p, 0 <= p -> ~ R p ->
            visitedAt (Flood.visited st) p = visitedAt v0 p;
  inv_stack : forall p, In p (Flood.stack st) ->
              R p /\ visitedAt (Flood.visited st) p = true;
  inv_done : forall p, R p -> visitedAt (Flood.visited st) p = true ->
             ~ In p (Flood.stack st) ->
             covers W (Flood.extent st) p /\
             forall q, In q (neighbors W p) -> R q ->
                       visitedAt (Flood.visited st) q = true;
  inv_att : attained W R (Flood.extent st);
  inv_seed : visitedAt (Flood.visited st) seed = true }.

(** The pixel with index [p] lies in the 3 x 3 square whose top-left
    corner is [(ax, ay)]. *)
Definition inSquare (W ax ay p : Z) : Prop :=
  ax <= Z.rem p W < ax + 3 /\ ay <= p / W < ay + 3.

(** The same for coordinates, as a test. *)
Definition inSquareb (ax ay x y : Z) : bool :=
  (ax <=? x) && (x <? ax + 3) && (ay <=? y) && (y <? ay + 3).

(** The cell body of the two loops at the pixel with index [idx]. *)
Definition scanIndex (im : ImageData.t) (minWidth minHeight : Z)
    (idx : Z) (s : Scan.t) : option Scan.t :=
  scanCell im minWidth minHeight (Z.rem idx (ImageData.width im))
    (idx / ImageData.width im) s.

(** The indices [a, a+1, ..., b-1]. *)
Definition between (a b : Z) : list Z := map (fun i => a + i) (range (b - a)).

(** The pixels of the image that lie in the 3 x 3 square at [(ax, ay)]. *)
Definition squareRegion (W H ax ay p : Z) : Prop :=
  0 <= p < W * H /\ inSquare W ax ay p.

(** A 7 x 3 buffer: two opaque 3 x 3 squares side by side with one
    transparent column between them. *)
Definition twoSquaresExample : ImageData.t :=
  ImageData.mk 7 3
    (flat_map (fun y : Z =>
       flat_map (fun x : Z => if x =? 3 then [0; 0; 0; 0] else [10; 20; 30; 255])
         (range 7))
       (range 3)).

(** ** The buffer as mutable state

    The functions above take the pixel bytes as a value.  The source reads
    and writes them through [imageData.data]; the programs of [InPlace]
    follow it statement by statement in a state monad over the bytes, so
    that what a function does to the buffer can be stated. *)

Definition Buf (A : Type) : Type := list Z -> A * list Z.

Definition ret {A : Type} (a : A) : Buf A := fun d => (a, d).

Definition bind {A B : Type} (m : Buf A) (k : A -> Buf B) : Buf B :=
  fun d => let '(a, d') := m d in k a d'.

Notation "x <- m ;; k" := (bind m (fun x => k))
  (at level 100, m at next level, right associativity).

(** [data[i]] *)
Definition readAt (i : nat) : Buf (option Z) := fun d => (d !! i, d).

(** [data[i] = v] *)
Definition writeAt (i : nat) (v : Z) : Buf unit :=
  fun d => (tt, <[i := toUint8Clamp v]> d).

(** [data.length] *)
Definition dataLength : Buf nat := fun d => (length d, d).

(** A [for] loop over [l] that carries [s]. *)
Fixpoint forEach {A S : Type} (l : list A) (body : S -> A -> Buf S) (s : S)
    : Buf S :=
  match l with
  | [] => ret s
  | a :: l' => s' <- body s a ;; forEach l' body s'
  end.

Module InPlace.

Definition keyPixel (target : ColorRGB.t) (tol featherPx : Z) (i : nat)
    : Buf unit :=
  r <- readAt i ;;
  g <- readAt (i + 1)%nat ;;
  b <- readAt (i + 2)%nat ;;
  match r, g, b with
  | Some r, Some g, Some b =>
      let tolSq := tol * tol in
      let featherSq := (tol + featherPx) * (tol + featherPx) in
      let d := distSq target r g b in
      if d <=? tolSq then writeAt (i + 3)%nat 0
      else if (0 <? featherPx) && (d <=? featherSq) then
        a <- readAt (i + 3)%nat ;;
        match a with
        | Some a => writeAt (i + 3)%nat (roundRamp a d tol featherPx)
        | None => ret tt
        end
      else ret tt
  | _, _, _ => ret tt
  end.

Definition applyColorKeyToImageData (targetColor : ColorRGB.t)
    (tolerance feather : Z) : Buf unit :=
  let tol := Z.max 0 tolerance in
  let featherPx := Z.max 0 feather in
  len <- dataLength ;;
  forEach (pixelStarts len) (fun _ i => keyPixel targetColor tol featherPx i) tt.

Definition scanPixel (width : Z) (y : Z) (e : Extent.t) (x : Z) : Buf Extent.t :=
  alpha <- readAt (Z.to_nat ((y * width + x) * 4 + 3)) ;;
  ret (match alpha with
       | Some alpha => if 0 <? alpha then stretch e x y else e
       | None => e
       end).

Definition getTrimmedBounds (width height : Z) : Buf (option Bounds.t) :=
  e <- forEach (range height)
         (fun e y => forEach (range width) (scanPixel width y) e)
         (Extent.mk width height (-1) (-1)) ;;
  ret (if Extent.maxX e =? -1 then None
       else Some (Bounds.mk (Extent.minX e) (Extent.minY e)
                    (Extent.maxX e - Extent.minX e + 1)
                    (Extent.maxY e - Extent.minY e + 1))).

Definition isTransparent (idx : Z) : Buf bool :=
  a <- readAt (Z.to_nat (idx * 4 + 3)) ;;
  ret (match a with Some a => a =? 0 | None => false end).

Definition visitNeighbor (acc : list bool * list Z) (n : Z)
    : Buf (list bool * list Z) :=
  let '(visited, stack) := acc in
  if (0 <=? n) && (n <? Z.of_nat (length visited)) && negb (visitedAt visited n)
  then
    t <- isTransparent n ;;
    if negb t then ret (<[Z.to_nat n := true]> visited, n :: stack) else ret acc
  else ret acc.

Definition floodStep (width : Z) (curr : Z) (rest : list Z) (st : Flood.t)
    : Buf Flood.t :=
  let cy := curr / width in
  let cx := Z.rem curr width in
  acc <- forEach (neighbors width curr) visitNeighbor (Flood.visited st, rest) ;;
  ret (Flood.mk (snd acc) (fst acc) (stretch (Flood.extent st) cx cy)).

Fixpoint flood (width : Z) (fuel : nat) (st : Flood.t) : Buf (option Flood.t) :=
  match fuel with
  | O => ret None
  | S fuel' =>
      match Flood.stack st with
      | [] => ret (Some st)
      | curr :: rest =>
          st' <- floodStep width curr rest st ;; flood width fuel' st'
      end
  end.

Definition scanCell (width minWidth minHeight : Z) (y : Z) (s : option Scan.t)
    (x : Z) : Buf (option Scan.t) :=
  match s with
  | None => ret None
  | Some s =>
      let idx := y * width + x in
      if visitedAt (Scan.visited s) idx then ret (Some s)
      else
        t <- isTransparent idx ;;
        if t then ret (Some s)
        else
          let visited := <[Z.to_nat idx := true]> (Scan.visited s) in
          f <- flood width (S (length visited))
                 (Flood.mk [idx] visited (Extent.mk x y x y)) ;;
          ret (match f with
               | None => None
               | Some f =>
                   let e := Flood.extent f in
                   let w := Extent.maxX e - Extent.minX e + 1 in
                   let h := Extent.maxY e - Extent.minY e + 1 in
                   if (minWidth <=? w) && (minHeight <=? h) then
                     Some (Scan.mk (Flood.visited f)
                             (Scan.rects s ++
                                [Rect.mk (islandId (Scan.idCounter s))
                                   (Extent.minX e) (Extent.minY e) w h])
                             (S (Scan.idCounter s)))
                   else Some (Scan.mk (Flood.visited f) (Scan.rects s)
                                (Scan.idCounter s))
               end)
  end.

Definition detectIslands (width height minWidth minHeight : Z)
    : Buf (option (list Rect.t)) :=
  let visited := replicate (Z.to_nat (width * height)) false in
  s <- forEach (range height)
         (fun s y => forEach (range width) (scanCell width minWidth minHeight y) s)
         (Some (Scan.mk visited [] 0%nat)) ;;
  ret (match s with
       | Some s => Some (Scan.rects s)
       | None => None
       end).

End InPlace.

(** ** Proof tools *)

(** Moving an integer inequality to the reals. *)
Ltac push_IZR H :=
  repeat (rewrite mult_IZR in H || rewrite plus_IZR in H || rewrite minus_IZR in H).

(** ** Notions used to state what the scanners compute *)

(** The pixel [(x, y)] of the buffer is visible: its alpha byte is [> 0]. *)
Definition visible (im : ImageData.t) (x y : Z) : Prop :=
  exists a, alphaAt im x y = Some a /\ 0 < a.

(** What the bounds scan has established once it has passed the pixels
    [cells]: the extent contains every visible one of them, and either it
    still holds the initial values or each of its sides touches a visible
    pixel among them. *)
Definition boxOf (im : ImageData.t) (cells : list (Z * Z)) (e : Extent.t) : Prop :=
  (forall x y, In (x, y) cells -> visible im x y ->
     Extent.minX e <= x <= Extent.maxX e /\ Extent.minY e <= y <= Extent.maxY e) /\
  ((Extent.minX e = ImageData.width im /\ Extent.minY e = ImageData.height im /\
    Extent.maxX e = -1 /\ Extent.maxY e = -1) \/
   ((exists y, In (Extent.minX e, y) cells /\ visible im (Extent.minX e) y) /\
    (exists y, In (Extent.maxX e, y) cells /\ visible im (Extent.maxX e) y) /\
    (exists x, In (x, Extent.minY e) cells /\ visible im x (Extent.minY e)) /\
    (exists x, In (x, Extent.maxY e) cells /\ visible im x (Extent.maxY e)))).

(** The pixel [(x, y)] lies in the rectangle [r]. *)
Definition inRect (r : Rect.t) (x y : Z) : Prop :=
  Rect.x r <= x < Rect.x r + Rect.w r /\ Rect.y r <= y < Rect.y r + Rect.h r.

(** The rectangle [r] is not empty and lies in a [W] x [H] image. *)
Definition withinImage (W H : Z) (r : Rect.t) : Prop :=
  (0 <= Rect.x r /\ 1 <= Rect.w r /\ Rect.x r + Rect.w r <= W) /\
  (0 <= Rect.y r /\ 1 <= Rect.h r /\ Rect.y r + Rect.h r <= H).

(** What holds of every flood fill of a [W] x [H] image started at [seed]
    on the marks [v0]: the stack and the extent stay in the image, the old
    marks are kept, and a pixel marked by this fill is opaque and either
    still on the stack or inside the extent. *)
Record floodBox (W H : Z) (data : list Z) (v0 : list bool) (seed : Z)
    (st : Flood.t) : Prop := mkFloodBox {
  box_len : length (Flood.visited st) = length v0;
  box_stack : forall p, In p (Flood.stack st) -> 0 <= p < W * H;
  box_x : 0 <= Extent.minX (Flood.extent st) /\
          Extent.minX (Flood.extent st) <= Extent.maxX (Flood.extent st) /\
          Extent.maxX (Flood.extent st) < W;
  box_y : 0 <= Extent.minY (Flood.extent st) /\
          Extent.minY (Flood.extent st) <= Extent.maxY (Flood.extent st) /\
          Extent.maxY (Flood.extent st) < H;
  box_old : forall p, visitedAt v0 p = true -> visitedAt (Flood.visited st) p = true;
  box_seed : visitedAt (Flood.visited st) seed = true;
  box_new : forall p, 0 <= p -> visitedAt (Flood.visited st) p = true ->
            visitedAt v0 p = true \/
            (isTransparent data p = false /\
             (In p (Flood.stack st) \/ covers W (Flood.extent st) p)) }.

(** What the two loops of [detectIslands] have established before the
    pixel with index [k]: the rectangles lie in the image, respect the
    size filter and are numbered in order; every opaque pixel before [k]
    is marked; and a marked pixel is opaque and, when the filter lets
    every island through, inside one of the rectangles. *)
Record scanInv (im : ImageData.t) (minWidth minHeight k : Z) (s : Scan.t)
    : Prop := mkScanInv {
  scan_len : Z.of_nat (length (Scan.visited s)) =
             ImageData.width im * ImageData.height im;
  scan_rects : forall r, In r (Scan.rects s) ->
               withinImage (ImageData.width im) (ImageData.height im) r /\
               minWidth <= Rect.w r /\ minHeight <= Rect.h r;
  scan_ids : map Rect.id (Scan.rects s) = map islandId (seq 0 (Scan.idCounter s));
  scan_done : forall p, 0 <= p < k ->
              isTransparent (ImageData.data im) p = false ->
              visitedAt (Scan.visited s) p = true;
  scan_marks : forall p, 0 <= p -> visitedAt (Scan.visited s) p = true ->
               isTransparent (ImageData.data im) p = false /\
               (minWidth <= 1 -> minHeight <= 1 ->
                exists r, In r (Scan.rects s) /\
                  inRect r (Z.rem p (ImageData.width im)) (p / ImageData.width im)) }.

(** ** The application: background colour ([App.tsx]) *)

(** [Math.round] of an exact ratio: [floor (q + 1/2)]. *)
Definition roundQ (q : QArith_base.Q) : Z :=
  Qround.Qfloor (QArith_base.Qplus q (QArith_base.Qmake 1 2)).

(** [v.toString(16)] for an integer [v >= 0]. *)
Definition toString16 (v : Z) : string :=
  HexadecimalString.NilEmpty.string_of_uint (N.to_hex_uint (Z.to_N v)).

(** [s.padStart(n, c)] for a pad [c] of one character. *)
Definition padStart (n : nat) (c : ascii) (s : string) : string :=
  (string_of_list_ascii (repeat c (n - String.length s)) ++ s)%string.

(** [const toHex = (v) => v.toString(16).padStart(2, '0')] *)
Definition toHex (v : Z) : string := padStart 2 "0" (toString16 v).

Definition rgbToHex (r g b : QArith_base.Q) : string :=
  ("#" ++ toHex (Z.max 0 (Z.min 255 (roundQ r)))
       ++ toHex (Z.max 0 (Z.min 255 (roundQ g)))
       ++ toHex (Z.max 0 (Z.min 255 (roundQ b))))%string.

(** The body of the sampling loop for the pixel [r g b a]:
    [if (a === 0) continue; r += ...; count += 1]. *)
Definition addPixel (acc : Z * Z * Z * Z) (r g b a : Z) : Z * Z * Z * Z :=
  if a =? 0 then acc
  else let '(sr, sg, sb, count) := acc in (sr + r, sg + g, sb + b, count + 1).

(** [for (let i = 0; i < data.length; i += 4)] over the buffer of
    [getImageData], which holds whole pixels. *)
Fixpoint sumPixels (data : list Z) (acc : Z * Z * Z * Z) : Z * Z * Z * Z :=
  match data with
  | r :: g :: b :: a :: rest => sumPixels rest (addPixel acc r g b a)
  | _ => acc
  end.

(** [context2d] tells whether [canvas.getContext('2d')] is not null; the
    canvas shows the image, and [getImageData] reads a region of it. *)
Definition detectBackgroundColor (context2d : bool) (image : ImageData.t) : string :=
  if negb context2d then "#000000"%string else
  let w := ImageData.width image in
  let h := ImageData.height image in
  let size := Z.max 1 (Z.min (Z.min 10 w) h) in
  let samples :=
    [ Point.mk 0 0; Point.mk (w - size) 0;
      Point.mk 0 (h - size); Point.mk (w - size) (h - size) ] in
  let '(r, g, b, count) :=
    fold_left
      (fun acc s =>
         sumPixels
           (ImageData.data (region image (Point.x s) (Point.y s) size size)) acc)
      samples (0, 0, 0, 0) in
  if count =? 0 then "#000000"%string
  else rgbToHex (QArith_base.Qdiv (QArith_base.inject_Z r) (QArith_base.inject_Z count))
                (QArith_base.Qdiv (QArith_base.inject_Z g) (QArith_base.inject_Z count))
                (QArith_base.Qdiv (QArith_base.inject_Z b) (QArith_base.inject_Z count)).

(** The test run on each byte [n]: [toHex] gives two hexadecimal digits
    that [parseInt(_, 16)] reads back as [n]. *)
Definition toHexCheck (n : nat) : bool :=
  match toHex (Z.of_nat n) with
  | String c1 (String c2 EmptyString) =>
      hexClass c1 && hexClass c2 && (parseInt16 c1 c2 =? Z.of_nat n)
  | _ => false
  end.

(** Every pixel of [data] is transparent or has the colour [(r0, g0, b0)]. *)
Fixpoint bgData (r0 g0 b0 : Z) (data : list Z) : Prop :=
  match data with
  | [] => True
  | r :: g :: b :: a :: rest =>
      (a = 0 \/ (r = r0 /\ g = g0 /\ b = b0)) /\ bgData r0 g0 b0 rest
  | _ => False
  end.

(** The pixel [(x, y)] of the image lies in one of the four corner squares
    that [detectBackgroundColor] samples. *)
Definition sampled (image : ImageData.t) (x y : Z) : Prop :=
  let w := ImageData.width image in
  let h := ImageData.height image in
  let size := Z.max 1 (Z.min (Z.min 10 w) h) in
  (0 <= x < w /\ 0 <= y < h) /\
  (x < size \/ w - size <= x) /\ (y < size \/ h - size <= y).

(** The mean [sum / n] of [n] pixels of the colour channel [c]. *)
Definition meanOf (n c : Z) : QArith_base.Q :=
  QArith_base.Qdiv (QArith_base.inject_Z (n * c)) (QArith_base.inject_Z n).

(** ** The application: state and frame generation ([App.tsx]) *)

(** [l.includes(x)] on strings. *)
Definition includes (l : list string) (x : string) : bool :=
  existsb (String.eqb x) l.

(** [s.startsWith(pre)] *)
Definition startsWith (s pre : string) : bool := String.prefix pre s.

Section App.
Variable Blob : Type.

(** The [useState] variables of [App] that the handlers below read or write. *)
Record AppState := mkApp {
  manualRects : list Rect.t;
  islandRects : list Rect.t;
  hiddenRectIds : gset string;
  generatedFrames : list (FrameData Blob);
  selectedRectId : option string }.

(** An empty [selectedRectId] is falsy, so it is never cleared. *)
Definition handleDeleteFrames (ids : list string) (st : AppState) : AppState :=
  let manualIds := List.filter (fun id => startsWith id "manual-") ids in
  let autoIds := List.filter (fun id => negb (startsWith id "manual-")) ids in
  mkApp
    (match manualIds with
     | [] => manualRects st
     | _ => List.filter (fun r => negb (includes manualIds (Rect.id r)))
              (manualRects st)
     end)
    (islandRects st)
    (match autoIds with
     | [] => hiddenRectIds st
     | _ => fold_left (fun next id => {[ id ]} ∪ next) autoIds (hiddenRectIds st)
     end)
    (List.filter (fun f => negb (includes ids (id f))) (generatedFrames st))
    (match selectedRectId st with
     | Some sel =>
         if negb (String.eqb sel EmptyString) && includes ids sel then None
         else Some sel
     | None => None
     end).

(** [[...rects, ...manualRects].filter(r => !hiddenRectIds.has(r.id))], in
    [generate] and in [getActiveRects] of the canvas. *)
Definition visibleRects (rects manual : list Rect.t) (hidden : gset string)
    : list Rect.t :=
  List.filter (fun r => negb (bool_decide (Rect.id r ∈ hidden))) (rects ++ manual).

(** Step 1 of [generate]: the automatic rectangles of the mode, and the
    island cache as [setIslandRects] leaves it.  The whole image is read
    back from a canvas and colour keyed like a slice. *)
Definition sourceRects (fuel : nat) (context2d : bool) (image : ImageData.t)
    (settings : AppSettings.t) (cache : list Rect.t)
    : option (list Rect.t * list Rect.t) :=
  match AppSettings.mode settings with
  | ModeGrid =>
      match calculateGridRects fuel (ImageData.width image)
              (ImageData.height image) (AppSettings.grid settings) with
      | Some rects => Some (rects, cache)
      | None => None
      end
  | ModeIslands =>
      match cache with
      | [] =>
          if context2d then
            let imageData :=
              keyedSlice image
                (Rect.mk EmptyString 0 0 (ImageData.width image)
                   (ImageData.height image)) settings in
            match detectIslands imageData
                    (Islands.minWidth (AppSettings.islands settings))
                    (Islands.minHeight (AppSettings.islands settings)) with
            | Some detected => Some (detected, detected)
            | None => None
            end
          else Some ([], cache)
      | _ => Some (cache, cache)
      end
  | ModeManual => Some ([], cache)
  end.

(** One run of [generate] that is not cancelled ([isActive] stays true). *)
Definition generate (fuel : nat) (dom : Dom Blob) (context2d : bool)
    (image : ImageData.t) (settings : AppSettings.t) (st : AppState)
    : option AppState :=
  match sourceRects fuel context2d image settings (islandRects st) with
  | None => None
  | Some (rects, cache) =>
      let rects := visibleRects rects (manualRects st) (hiddenRectIds st) in
      let newFrames :=
        omap (fun rect => extractFrame dom image rect settings) rects in
      Some (mkApp (manualRects st) cache (hiddenRectIds st) newFrames
              (selectedRectId st))
  end.
End App.

Arguments mkApp {Blob}.
Arguments manualRects {Blob}.
Arguments islandRects {Blob}.
Arguments hiddenRectIds {Blob}.
Arguments generatedFrames {Blob}.
Arguments selectedRectId {Blob}.
Arguments handleDeleteFrames {Blob}.
Arguments generate {Blob}.

(** A frame apart from its blob and its object URL, which the browser
    makes anew on every extraction. *)
Definition frameGeometry {Blob : Type} (f : FrameData Blob)
    : string * Rect.t * Point.t * Size.t * Size.t :=
  (id f, rect f, trimOffset f, trimmedSize f, originalSize f).

(** An id that [handleDeleteFrames] does not take for a manual rectangle's. *)
Definition autoId (r : Rect.t) : Prop := startsWith (Rect.id r) "manual-" = false.

Definition handlePickColor (hex : string) (prev : AppSettings.t) : AppSettings.t :=
  let processing := AppSettings.processing prev in
  AppSettings.mk (AppSettings.mode prev) (AppSettings.grid prev)
    (AppSettings.islands prev)
    (Processing.mk (Processing.autoTrim processing) true
       (if includes (Processing.colorKeyColors processing) hex
        then Processing.colorKeyColors processing
        else Processing.colorKeyColors processing ++ [hex])
       (Processing.colorKeyTolerance processing)
       (Processing.colorKeyFeather processing)).

(** The same update with the detected colour. *)
Definition handleAutoDetectColor (context2d : bool) (image : ImageData.t)
    (prev : AppSettings.t) : AppSettings.t :=
  handlePickColor (detectBackgroundColor context2d image) prev.

Section Reorder.
Context {A : Type}.
(** What [copy.splice(fromIndex, 1)] yields when nothing is removed. *)
Variable undefined : A.

(** [copy.splice(toIndex, 0, moved)] *)
Definition spliceIn (toIndex : nat) (moved : A) (copy : list A) : list A :=
  take toIndex copy ++ moved :: drop toIndex copy.

Definition handleReorderFrames (fromIndex toIndex : nat) (prev : list A) : list A :=
  if (fromIndex =? toIndex)%nat then prev
  else
    let moved := default undefined (prev !! fromIndex) in
    let copy := delete fromIndex prev in
    spliceIn toIndex moved copy.
End Reorder.

(** ** The application: export ([App.tsx]) *)

(** [`${prefix}_${idx.toString().padStart(3, '0')}.png`] *)
Definition exportFilename (prefix : string) (idx : nat) : string :=
  (prefix ++ "_" ++ padStart 3 "0" (decimal idx) ++ ".png")%string.

(** One entry of [metadata.frames]. *)
Module FrameMeta.
Record t := mk {
  filename : string;
  frame : Bounds.t;
  rotated : bool;
  trimmed : bool;
  spriteSourceSize : Bounds.t;
  sourceSize : Size.t;
  sheetRect : Rect.t }.
End FrameMeta.

(** The fields read with [?.] and [??] are always present in a frame made
    by [extractFrame], and an object is truthy. *)
Definition frameMetadata {Blob : Type} (prefix : string) (i : nat)
    (f : FrameData Blob) : FrameMeta.t :=
  let w := Size.w (trimmedSize f) in
  let h := Size.h (trimmedSize f) in
  let offX := Point.x (trimOffset f) in
  let offY := Point.y (trimOffset f) in
  let ow := Size.w (originalSize f) in
  let oh := Size.h (originalSize f) in
  let isTrimmed := negb (w =? ow) || negb (h =? oh) in
  FrameMeta.mk (exportFilename prefix i) (Bounds.mk 0 0 w h) false isTrimmed
    (Bounds.mk offX offY w h) (Size.mk ow oh) (rect f).

Definition exportMetadata {Blob : Type} (prefix : string)
    (generatedFrames : list (FrameData Blob)) : list FrameMeta.t :=
  imap (frameMetadata prefix) generatedFrames.

(** Reading a decimal numeral back; leading zeros do not count. *)
Definition readNat (s : string) : option nat :=
  match NilEmpty.uint_of_string s with
  | Some d => Some (Nat.of_uint d)
  | None => None
  end.

(** ** The canvas ([CanvasWorkspace.tsx]) *)

(** The test of [handleMouseDown]: the point [(x, y)], in image
    coordinates, lies on the rectangle, borders included. *)
Definition hitRect (x y : Z) (r : Rect.t) : bool :=
  (Rect.x r <=? x) && (x <=? Rect.x r + Rect.w r)
  && (Rect.y r <=? y) && (y <=? Rect.y r + Rect.h r).

(** [[...activeRects].reverse().find(r => ...)] *)
Definition clickedRect (activeRects : list Rect.t) (x y : Z) : option Rect.t :=
  List.find (hitRect x y) (rev activeRects).

(** [rects.map(r => r.id === newRect.id ? newRect : r)] *)
Definition replaceRect (newRect : Rect.t) (rects : list Rect.t) : list Rect.t :=
  map (fun r => if String.eqb (Rect.id r) (Rect.id newRect) then newRect else r)
    rects.

Definition updateRect {Blob : Type} (newRect : Rect.t) (st : AppState Blob)
    : AppState Blob :=
  if startsWith (Rect.id newRect) "manual-" then
    mkApp (replaceRect newRect (manualRects st)) (islandRects st)
      (hiddenRectIds st) (generatedFrames st) (selectedRectId st)
  else if startsWith (Rect.id newRect) "island-" then
    mkApp (manualRects st) (replaceRect newRect (islandRects st))
      (hiddenRectIds st) (generatedFrames st) (selectedRectId st)
  else st.







(** ** The frame list ([FrameList.tsx]) *)

Module Selection.
Record t := mk { selectedIds : gset string; lastSelectedId : option string }.
End Selection.

(** The modifier keys of a mouse event. *)
Module Click.
Record t := mk { ctrlKey : bool; metaKey : bool; shiftKey : bool }.
End Click.

(** [l.findIndex(p)]: [-1] when no element passes. *)
Fixpoint findIndex {A : Type} (p : A -> bool) (l : list A) : Z :=
  match l with
  | [] => -1
  | a :: l' =>
      if p a then 0
      else let i := findIndex p l' in if i <? 0 then -1 else i + 1
  end.

(** [frames[i]]; [undefined] off the array. *)
Definition frameAt {A : Type} (frames : list A) (i : Z) : option A :=
  if i <? 0 then None else frames !! Z.to_nat i.

(** An empty [lastSelectedId] is falsy. *)
Definition handleFrameClick {Blob : Type} (frames : list (FrameData Blob))
    (e : Click.t) (frameId : string) (index : Z) (sel : Selection.t)
    : Selection.t :=
  let selectedIds := Selection.selectedIds sel in
  let single := Selection.mk {[ frameId ]} (Some frameId) in
  if Click.ctrlKey e || Click.metaKey e then
    Selection.mk
      (if bool_decide (frameId ∈ selectedIds)
       then selectedIds ∖ {[ frameId ]}
       else {[ frameId ]} ∪ selectedIds)
      (Some frameId)
  else
    match Selection.lastSelectedId sel with
    | Some lastSelectedId =>
        if Click.shiftKey e && negb (String.eqb lastSelectedId EmptyString) then
          let lastIdx :=
            findIndex (fun f => String.eqb (id f) lastSelectedId) frames in
          let start := Z.min lastIdx index in
          let end_ := Z.max lastIdx index in
          Selection.mk
            (fold_left
               (fun newSelected i =>
                  match frameAt frames i with
                  | Some f => {[ id f ]} ∪ newSelected
                  | None => newSelected
                  end)
               (between start (end_ + 1)) ∅)
            (Some lastSelectedId)
        else single
    | None => single
    end.

(** ** The preview ([PreviewModal.tsx]) *)

(** [setCurrentFrame(c => (c + 1) % frames.length)] *)
Definition nextFrame (framesLength c : Z) : Z := Z.rem (c + 1) framesLength.

(** ** Binary64 arithmetic *)

(** The grid cursor and the feather ramp once more, in the arithmetic the
    source runs on, for the inputs on which it departs from the integers. *)
Module Binary64.

(** A JavaScript [number]. *)
Definition number := PrimFloat.float.

(** The number an integer literal or a numeric input denotes: the nearest
    binary64 value. *)
Definition ofZ (z : Z) : number :=
  FloatOps.SF2Prim
    (SpecFloat.binary_normalize FloatOps.prec FloatOps.emax z 0 false).

(** [Math.round] of a finite number [m * 2^e]: [floor (m * 2^e + 1/2)]. *)
Definition round (v : number) : Z :=
  match FloatOps.Prim2SF v with
  | SpecFloat.S754_finite s m e =>
      let n := if s then Z.neg m else Z.pos m in
      if 0 <=? e then n * 2 ^ e
      else (2 * n + 2 ^ (- e)) / 2 ^ (- e + 1)
  | _ => 0
  end.

(** [Math.round(alpha * ((Math.sqrt(distSq) - tol) / featherPx))] *)
Definition roundRamp (alpha distSq tol featherPx : Z) : Z :=
  round
    (PrimFloat.mul (ofZ alpha)
       (PrimFloat.div (PrimFloat.sub (PrimFloat.sqrt (ofZ distSq)) (ofZ tol))
          (ofZ featherPx))).

(** A [Rect] as [calculateGridRects] fills it. *)
Record rect := mkRect { id : string; x : number; y : number; w : number; h : number }.

Section GridLoops.
Variables (imgWidth imgHeight : number).
Variables (width height marginX spacingX spacingY : number).

(** [while (x + width <= imgWidth) { rects.push(..); x += width + spacingX }] *)
Fixpoint gridRow (fuel : nat) (x y : number) (idCounter : nat)
    (rects : list rect) : option (number * nat * list rect) :=
  match fuel with
  | O => None
  | S fuel' =>
      if PrimFloat.leb (PrimFloat.add x width) imgWidth then
        gridRow fuel' (PrimFloat.add x (PrimFloat.add width spacingX)) y
          (S idCounter)
          (rects ++ [mkRect (gridId idCounter) x y width height])
      else Some (x, idCounter, rects)
  end.

(** [while (y + height <= imgHeight) { <row>; x = marginX; y += height + spacingY }] *)
Fixpoint gridRows (n fuel : nat) (x y : number) (idCounter : nat)
    (rects : list rect) : option (list rect) :=
  match fuel with
  | O => None
  | S fuel' =>
      if PrimFloat.leb (PrimFloat.add y height) imgHeight then
        match gridRow n x y idCounter rects with
        | Some (_, idCounter', rects') =>
            gridRows n fuel' marginX
              (PrimFloat.add y (PrimFloat.add height spacingY))
              idCounter' rects'
        | None => None
        end
      else Some rects
  end.
End GridLoops.

Definition calculateGridRects (fuel : nat) (imgWidth imgHeight : Z)
    (grid : Grid.t) : option (list rect) :=
  let width := ofZ (Grid.width grid) in
  let height := ofZ (Grid.height grid) in
  if PrimFloat.leb width PrimFloat.zero || PrimFloat.leb height PrimFloat.zero
  then Some []
  else gridRows (ofZ imgWidth) (ofZ imgHeight) width height
         (ofZ (Grid.marginX grid))
         (ofZ (Grid.spacingX grid)) (ofZ (Grid.spacingY grid))
         fuel fuel (ofZ (Grid.marginX grid)) (ofZ (Grid.marginY grid)) 0%nat [].

(** A rectangle of integers as numbers. *)
Definition ofRect (r : Rect.t) : rect :=
  mkRect (Rect.id r) (ofZ (Rect.x r)) (ofZ (Rect.y r))
    (ofZ (Rect.w r)) (ofZ (Rect.h r)).

End Binary64.

(** The sizes and grid values on which the cursor arithmetic of
    [calculateGridRects] is exact in binary64: with every value within
    [2^50] of zero, every sum the loops form is an integer below [2^53]. *)
Definition gridExact (imgWidth imgHeight : Z) (grid : Grid.t) : Prop :=
  Forall (fun v => Z.abs v <= 2 ^ 50)
    [ imgWidth; imgHeight; Grid.width grid; Grid.height grid;
      Grid.marginX grid; Grid.marginY grid;
      Grid.spacingX grid; Grid.spacingY grid ].

(** * Properties *)

(** *** Facts about the colour model *)

Lemma hexClass_spec (c : ascii) : hexClass c = true <-> isHexDigit c.
Proof.
  unfold isHexDigit.
  destruct c as [[] [] [] [] [] [] [] []]; vm_compute; split; intros H;
    try reflexivity; try discriminate; intuition discriminate.
Qed.

Lemma hexDigitValue_range (c : ascii) :
  hexClass c = true -> 0 <= hexDigitValue c <= 15.
Proof.
  destruct c as [[] [] [] [] [] [] [] []]; vm_compute; intros H;
    try discriminate; split; intros K; discriminate.
Qed.

Lemma parseInt16_byte (hi lo : ascii) :
  hexClass hi = true -> hexClass lo = true -> isByte (parseInt16 hi lo).
Proof.
  intros Hh Hl. apply hexDigitValue_range in Hh, Hl.
  unfold isByte, parseInt16. lia.
Qed.

Lemma group2_Some (s : string) c1 c2 rest :
  group2 s = Some (c1, c2, rest) <->
  s = String c1 (String c2 rest) /\ hexClass c1 = true /\ hexClass c2 = true.
Proof.
  unfold group2. destruct s as [|a [|a' s']]; try (split; [discriminate | intros [? _]; discriminate]).
  destruct (hexClass a) eqn:Ea, (hexClass a') eqn:Ea'; simpl; split;
    try discriminate; intros H; try (injection H as <- <- <-; auto);
    destruct H as [H [H1 H2]]; injection H as -> -> ->; congruence.
Qed.

Lemma groups_Some (s : string) (c : ColorRGB.t) :
  groups s = Some c <->
  exists r1 r2 g1 g2 b1 b2,
    s = string_of_list_ascii [r1; r2; g1; g2; b1; b2] /\
    Forall (fun x => hexClass x = true) [r1; r2; g1; g2; b1; b2] /\
    c = ColorRGB.mk (parseInt16 r1 r2) (parseInt16 g1 g2) (parseInt16 b1 b2).
Proof.
  unfold groups. split.
  - destruct (group2 s) as [[[r1 r2] s1]|] eqn:E1; [|discriminate].
    destruct (group2 s1) as [[[g1 g2] s2]|] eqn:E2; [|discriminate].
    destruct (group2 s2) as [[[b1 b2] s3]|] eqn:E3; [|discriminate].
    destruct s3; [|discriminate]. intros [= <-].
    apply group2_Some in E1 as (-> & ? & ?), E2 as (-> & ? & ?), E3 as (-> & ? & ?).
    exists r1, r2, g1, g2, b1, b2. repeat split; auto.
    repeat constructor; assumption.
  - intros (r1 & r2 & g1 & g2 & b1 & b2 & -> & HF & ->).
    repeat match goal with H : Forall _ (_ :: _) |- _ => inversion H; clear H; subst end.
    simpl.
    repeat (match goal with H : hexClass _ = true |- _ => rewrite H; clear H end;
            simpl).
    reflexivity.
Qed.

Lemma groups_hash_head (s : string) : groups (String "#"%char s) = None.
Proof.
  unfold groups, group2. destruct s; reflexivity.
Qed.

Lemma hexToRgb_groups (hex : string) :
  hexToRgb hex =
  match hex with
  | String "#"%char rest => groups rest
  | _ => groups hex
  end.
Proof.
  unfold hexToRgb. destruct hex as [|a s]; [reflexivity|].
  destruct (ascii_dec a "#"%char) as [->|Hne].
  - rewrite groups_hash_head. destruct (groups s); reflexivity.
  - destruct a as [[] [] [] [] [] [] [] []]; try reflexivity. congruence.
Qed.

Lemma hexToRgb_hash (s : string) : hexToRgb (String "#"%char s) = groups s.
Proof. rewrite hexToRgb_groups. reflexivity. Qed.

Lemma hexToRgb_nohash (a : ascii) (s : string) :
  hexClass a = true -> hexToRgb (String a s) = groups (String a s).
Proof.
  intros Ha. rewrite hexToRgb_groups.
  destruct a as [[] [] [] [] [] [] [] []]; try reflexivity; discriminate.
Qed.

Lemma Forall_hexClass (ds : list ascii) :
  Forall isHexDigit ds <-> Forall (fun x => hexClass x = true) ds.
Proof.
  split; intros H; induction H; constructor; auto; now apply hexClass_spec.
Qed.

Lemma hexToRgb_Some (s : string) (c : ColorRGB.t) :
  hexToRgb s = Some c ->
  sixHexDigits s /\
  isByte (ColorRGB.r c) /\ isByte (ColorRGB.g c) /\ isByte (ColorRGB.b c).
Proof.
  rewrite hexToRgb_groups. intros H.
  assert (exists pre, (pre = EmptyString \/ pre = "#"%string) /\
            exists s', s = (pre ++ s')%string /\ groups s' = Some c)
    as (pre & Hpre & s' & -> & Hg).
  { destruct s as [|a s0].
    - exists EmptyString. split; [now left|]. now exists EmptyString.
    - destruct (ascii_dec a "#"%char) as [->|Hne].
      + exists "#"%string. split; [now right|]. now exists s0.
      + exists EmptyString. split; [now left|]. exists (String a s0). split; [reflexivity|].
        destruct a as [[] [] [] [] [] [] [] []]; try exact H. congruence. }
  apply groups_Some in Hg as (r1 & r2 & g1 & g2 & b1 & b2 & -> & HF & ->).
  split.
  - exists pre, [r1; r2; g1; g2; b1; b2]. repeat split; auto.
    now apply Forall_hexClass.
  - repeat match goal with H : Forall _ (_ :: _) |- _ => inversion H; clear H; subst end.
    simpl. repeat split; apply parseInt16_byte; assumption.
Qed.

Lemma sixHexDigits_parsed (s : string) :
  sixHexDigits s -> exists c, hexToRgb s = Some c.
Proof.
  intros (pre & ds & Hpre & -> & Hlen & HF).
  apply Forall_hexClass in HF.
  destruct ds as [|r1 [|r2 [|g1 [|g2 [|b1 [|b2 [|]]]]]]]; try discriminate.
  exists (ColorRGB.mk (parseInt16 r1 r2) (parseInt16 g1 g2) (parseInt16 b1 b2)).
  assert (Hg : groups (string_of_list_ascii [r1; r2; g1; g2; b1; b2]) =
               Some (ColorRGB.mk (parseInt16 r1 r2) (parseInt16 g1 g2) (parseInt16 b1 b2))).
  { apply groups_Some. exists r1, r2, g1, g2, b1, b2. auto. }
  destruct Hpre as [-> | ->].
  - simpl String.append. simpl string_of_list_ascii in *.
    rewrite hexToRgb_nohash; [exact Hg | now inversion HF].
  - change ("#" ++ string_of_list_ascii [r1; r2; g1; g2; b1; b2])%string
      with (String "#"%char (string_of_list_ascii [r1; r2; g1; g2; b1; b2])).
    rewrite hexToRgb_hash. exact Hg.
Qed.

(** C8. [hexToRgb] answers a colour, each channel an integer in [0,255],
    exactly for the strings made of an optional leading [#] and six
    hexadecimal digits of either case; for every other string it answers
    absent ([None]), never a colour. *)
Theorem hexToRgb_exactly_six_hex_digits (s : string) :
  ((exists c, hexToRgb s = Some c /\ isByte (ColorRGB.r c) /\
              isByte (ColorRGB.g c) /\ isByte (ColorRGB.b c))
   <-> sixHexDigits s) /\
  (hexToRgb s = None <-> ~ sixHexDigits s).
Proof.
  split; split.
  - intros (c & Hc & _). now apply hexToRgb_Some in Hc.
  - intros H. destruct (sixHexDigits_parsed s H) as [c Hc].
    exists c. split; [exact Hc|]. now apply hexToRgb_Some in Hc.
  - intros Hn H. destruct (sixHexDigits_parsed s H) as [c Hc]. congruence.
  - intros Hn. destruct (hexToRgb s) as [c|] eqn:E; [|reflexivity].
    exfalso. apply Hn. now apply hexToRgb_Some in E.
Qed.

(** ** Grid enumerator *)

Lemma cells_nonneg (a step size limit : Z) :
  0 < step -> 0 <= cells a step size limit.
Proof.
  intros Hs. unfold cells. destruct (Z.leb_spec (a + size) limit); [|lia].
  assert (0 <= (limit - size - a) / step) by (apply Z.div_pos; lia). lia.
Qed.

Lemma cells_fits (a step size limit : Z) :
  0 < step -> (0 < cells a step size limit <-> a + size <= limit).
Proof.
  intros Hs. unfold cells. destruct (Z.leb_spec (a + size) limit); [|lia].
  assert (0 <= (limit - size - a) / step) by (apply Z.div_pos; lia). lia.
Qed.

Lemma cells_advance (a step size limit : Z) :
  0 < step -> a + size <= limit ->
  cells (a + step) step size limit = cells a step size limit - 1.
Proof.
  intros Hs Hfit. unfold cells.
  destruct (Z.leb_spec (a + size) limit); [|lia].
  destruct (Z.leb_spec (a + step + size) limit).
  - replace (limit - size - a) with ((limit - size - (a + step)) + 1 * step) by lia.
    rewrite Z.div_add by lia. lia.
  - rewrite Z.div_small by lia. lia.
Qed.

Section GridFacts.
Variables (imgWidth imgHeight : Z) (grid : Grid.t).

Let stepX := Grid.width grid + Grid.spacingX grid.
Let stepY := Grid.height grid + Grid.spacingY grid.

Lemma rowRects_S (x y : Z) (idCounter n : nat) :
  rowRects grid x y idCounter (S n) =
  Rect.mk (gridId idCounter) x y (Grid.width grid) (Grid.height grid)
  :: rowRects grid (x + stepX) y (S idCounter) n.
Proof.
  unfold rowRects, stepX. simpl seq. rewrite <- List.seq_shift. simpl map.
  rewrite List.map_map, Nat.add_0_r, Z.mul_0_l, Z.add_0_r. f_equal.
  apply List.map_ext. intros i. f_equal.
  - f_equal. lia.
  - lia.
Qed.

Lemma gridRow_run (y : Z) (n : nat) :
  0 < stepX ->
  forall (fuel : nat) (x : Z) (idCounter : nat) (rects : list Rect.t),
    (n < fuel)%nat ->
    cells x stepX (Grid.width grid) imgWidth = Z.of_nat n ->
    gridRow imgWidth grid fuel x y idCounter rects =
    Some (x + Z.of_nat n * stepX, (idCounter + n)%nat,
          rects ++ rowRects grid x y idCounter n).
Proof.
  intros Hstep. induction n as [|n IH]; intros fuel x idCounter rects Hfuel Hc.
  - destruct fuel as [|fuel]; [lia|]. simpl.
    assert (Hno : ~ x + Grid.width grid <= imgWidth).
    { intros Hfit. apply (cells_fits x stepX _ _ Hstep) in Hfit. lia. }
    destruct (Z.leb_spec (x + Grid.width grid) imgWidth); [contradiction|].
    rewrite app_nil_r, Nat.add_0_r.
    replace (x + Z.of_nat 0 * stepX) with x by lia. reflexivity.
  - destruct fuel as [|fuel]; [lia|]. simpl gridRow.
    assert (Hfit : x + Grid.width grid <= imgWidth).
    { apply (cells_fits x stepX _ _ Hstep). lia. }
    destruct (Z.leb_spec (x + Grid.width grid) imgWidth); [|lia].
    fold stepX. rewrite IH.
    + rewrite rowRects_S, <- app_assoc. simpl app.
      replace (x + stepX + Z.of_nat n * stepX) with (x + Z.of_nat (S n) * stepX) by lia.
      replace (S idCounter + n)%nat with (idCounter + S n)%nat by lia.
      reflexivity.
    + lia.
    + rewrite cells_advance by assumption. lia.
Qed.

Lemma gridRow_stuck (y : Z) :
  stepX <= 0 ->
  forall (fuel : nat) (x : Z) (idCounter : nat) (rects : list Rect.t),
    x + Grid.width grid <= imgWidth ->
    gridRow imgWidth grid fuel x y idCounter rects = None.
Proof.
  intros Hstep. induction fuel as [|fuel IH]; intros x idCounter rects Hfit;
    [reflexivity|].
  simpl. destruct (Z.leb_spec (x + Grid.width grid) imgWidth); [|lia].
  apply IH. fold stepX. lia.
Qed.

Lemma rowsRects_S (y : Z) (idCounter cols m : nat) :
  rowsRects grid y idCounter cols (S m) =
  rowRects grid (Grid.marginX grid) y idCounter cols
  ++ rowsRects grid (y + stepY) (idCounter + cols) cols m.
Proof.
  unfold rowsRects, stepY. simpl seq. rewrite <- List.seq_shift.
  cbn [flat_map]. 
  rewrite Z.mul_0_l, Z.add_0_r, Nat.mul_0_l, Nat.add_0_r. f_equal.
  rewrite !List.flat_map_concat_map, List.map_map. f_equal.
  apply List.map_ext. intros j.
  replace (y + Z.of_nat (S j) * (Grid.height grid + Grid.spacingY grid))
    with (y + (Grid.height grid + Grid.spacingY grid)
          + Z.of_nat j * (Grid.height grid + Grid.spacingY grid)) by lia.
  replace (idCounter + S j * cols)%nat with (idCounter + cols + j * cols)%nat by lia.
  reflexivity.
Qed.

Lemma gridRows_run (cols : nat) :
  0 < stepX -> 0 < stepY ->
  cells (Grid.marginX grid) stepX (Grid.width grid) imgWidth = Z.of_nat cols ->
  forall (m n fuel : nat) (y : Z) (idCounter : nat) (rects : list Rect.t),
    (cols < n)%nat -> (m < fuel)%nat ->
    cells y stepY (Grid.height grid) imgHeight = Z.of_nat m ->
    gridRows imgWidth imgHeight grid n fuel (Grid.marginX grid) y idCounter rects =
    Some (rects ++ rowsRects grid y idCounter cols m).
Proof.
  intros HsX HsY Hcols.
  induction m as [|m IH]; intros n fuel y idCounter rects Hn Hfuel Hc.
  - destruct fuel as [|fuel]; [lia|]. simpl.
    assert (Hno : ~ y + Grid.height grid <= imgHeight).
    { intros Hfit. apply (cells_fits y stepY _ _ HsY) in Hfit. lia. }
    destruct (Z.leb_spec (y + Grid.height grid) imgHeight); [contradiction|].
    now rewrite app_nil_r.
  - destruct fuel as [|fuel]; [lia|]. simpl gridRows.
    assert (Hfit : y + Grid.height grid <= imgHeight).
    { apply (cells_fits y stepY _ _ HsY). lia. }
    destruct (Z.leb_spec (y + Grid.height grid) imgHeight); [|lia].
    rewrite (gridRow_run y cols HsX) by assumption.
    fold stepY. rewrite IH.
    + now rewrite rowsRects_S, app_assoc.
    + assumption.
    + lia.
    + rewrite cells_advance by assumption. lia.
Qed.
Lemma gridRows_stuck (n : nat) :
  stepY <= 0 ->
  forall (fuel : nat) (x y : Z) (idCounter : nat) (rects : list Rect.t),
    y + Grid.height grid <= imgHeight ->
    gridRows imgWidth imgHeight grid n fuel x y idCounter rects = None.
Proof.
  intros Hstep. induction fuel as [|fuel IH]; intros x y idCounter rects Hfit;
    [reflexivity|].
  cbn [gridRows].
  destruct (Z.leb_spec (y + Grid.height grid) imgHeight); [|lia].
  destruct (gridRow imgWidth grid n x y idCounter rects) as [[[x' id'] rects']|];
    [|reflexivity].
  apply IH. fold stepY. lia.
Qed.
End GridFacts.

Lemma gridSpec_rowsRects (imgWidth imgHeight : Z) (grid : Grid.t) :
  0 < Grid.width grid + Grid.spacingX grid ->
  gridSpec imgWidth imgHeight grid =
  rowsRects grid (Grid.marginY grid) 0
    (Z.to_nat (cells (Grid.marginX grid) (Grid.width grid + Grid.spacingX grid)
                 (Grid.width grid) imgWidth))
    (Z.to_nat (cells (Grid.marginY grid) (Grid.height grid + Grid.spacingY grid)
                 (Grid.height grid) imgHeight)).
Proof.
  intros HsX. unfold gridSpec, rowsRects, rowRects, range.
  set (cols := cells (Grid.marginX grid) _ _ _).
  assert (0 <= cols) by (apply cells_nonneg; assumption).
  rewrite List.flat_map_concat_map, List.map_map, <- List.flat_map_concat_map.
  apply List.flat_map_ext. intros j. rewrite List.map_map.
  apply List.map_ext. intros i. f_equal. f_equal. simpl. nia.
Qed.

Lemma calculateGridRects_gridSpec (fuel : nat) (imgWidth imgHeight : Z)
    (grid : Grid.t) :
  0 < Grid.width grid -> 0 < Grid.height grid ->
  0 < Grid.width grid + Grid.spacingX grid ->
  0 < Grid.height grid + Grid.spacingY grid ->
  cells (Grid.marginX grid) (Grid.width grid + Grid.spacingX grid)
    (Grid.width grid) imgWidth < Z.of_nat fuel ->
  cells (Grid.marginY grid) (Grid.height grid + Grid.spacingY grid)
    (Grid.height grid) imgHeight < Z.of_nat fuel ->
  calculateGridRects fuel imgWidth imgHeight grid =
  Some (gridSpec imgWidth imgHeight grid).
Proof.
  intros Hw Hh HsX HsY Hcols Hrows. unfold calculateGridRects.
  destruct (Z.leb_spec (Grid.width grid) 0); [lia|].
  destruct (Z.leb_spec (Grid.height grid) 0); [lia|]. simpl orb. cbv iota.
  pose proof (cells_nonneg (Grid.marginX grid) _ (Grid.width grid) imgWidth HsX).
  pose proof (cells_nonneg (Grid.marginY grid) _ (Grid.height grid) imgHeight HsY).
  set (cols := cells (Grid.marginX grid) (Grid.width grid + Grid.spacingX grid)
                 (Grid.width grid) imgWidth) in *.
  set (rows := cells (Grid.marginY grid) (Grid.height grid + Grid.spacingY grid)
                 (Grid.height grid) imgHeight) in *.
  rewrite (gridRows_run imgWidth imgHeight grid (Z.to_nat cols) HsX HsY)
    with (m := Z.to_nat rows); try (fold cols); try (fold rows); try lia.
  rewrite gridSpec_rowsRects by assumption. reflexivity.
Qed.

Lemma in_range (x n : Z) : In x (range n) <-> 0 <= x < n.
Proof.
  unfold range. rewrite in_map_iff. split.
  - intros (k & <- & Hk). apply in_seq in Hk. lia.
  - intros Hx. exists (Z.to_nat x). split; [lia|]. apply in_seq. lia.
Qed.

Lemma cells_last (a step size limit i : Z) :
  0 < step -> 0 <= i < cells a step size limit -> a + i * step + size <= limit.
Proof.
  intros Hs Hi. unfold cells in Hi.
  destruct (Z.leb_spec (a + size) limit); [|lia].
  assert (i <= (limit - size - a) / step) by lia.
  pose proof (Z.mul_div_le (limit - size - a) step Hs). nia.
Qed.

Lemma in_gridSpec (imgWidth imgHeight : Z) (grid : Grid.t) (r : Rect.t) :
  In r (gridSpec imgWidth imgHeight grid) <->
  exists i j,
    0 <= i < cells (Grid.marginX grid) (Grid.width grid + Grid.spacingX grid)
               (Grid.width grid) imgWidth /\
    0 <= j < cells (Grid.marginY grid) (Grid.height grid + Grid.spacingY grid)
               (Grid.height grid) imgHeight /\
    r = Rect.mk
          (gridId (Z.to_nat
             (j * cells (Grid.marginX grid) (Grid.width grid + Grid.spacingX grid)
                    (Grid.width grid) imgWidth + i)))
          (Grid.marginX grid + i * (Grid.width grid + Grid.spacingX grid))
          (Grid.marginY grid + j * (Grid.height grid + Grid.spacingY grid))
          (Grid.width grid) (Grid.height grid).
Proof.
  unfold gridSpec. cbv zeta. rewrite in_flat_map. split.
  - intros (j & Hj & Hin). apply in_map_iff in Hin as (i & <- & Hi).
    apply in_range in Hi, Hj. exists i, j. auto.
  - intros (i & j & Hi & Hj & ->). exists j. split; [apply in_range, Hj|].
    apply in_map_iff. exists i. split; [reflexivity|apply in_range, Hi].
Qed.

(** C6. A grid whose cell width or height is not positive yields the empty
    list, whatever the image size, margins and spacing; and a 64 x 64 image
    cut in cells of 32 x 32 without margin or spacing yields the four
    rectangles at (0,0), (32,0), (0,32), (32,32), in that order, numbered
    from 0 in emission order. *)
Theorem calculateGridRects_degenerate_and_64 :
  (forall (fuel : nat) (imgWidth imgHeight : Z) (grid : Grid.t),
      Grid.width grid <= 0 \/ Grid.height grid <= 0 ->
      calculateGridRects fuel imgWidth imgHeight grid = Some []) /\
  (forall fuel : nat,
      (3 <= fuel)%nat ->
      calculateGridRects fuel 64 64 (Grid.mk 32 32 0 0 0 0) =
      Some [ Rect.mk "grid-0" 0 0 32 32; Rect.mk "grid-1" 32 0 32 32;
             Rect.mk "grid-2" 0 32 32 32; Rect.mk "grid-3" 32 32 32 32 ]).
Proof.
  split.
  - intros fuel imgWidth imgHeight grid Hdeg. unfold calculateGridRects.
    destruct (Z.leb_spec (Grid.width grid) 0); [reflexivity|].
    destruct (Z.leb_spec (Grid.height grid) 0); [reflexivity|]. lia.
  - intros fuel Hfuel.
    rewrite calculateGridRects_gridSpec; simpl; try lia; try reflexivity.
    + change (cells 0 (32 + 0) 32 64) with 2. lia.
    + change (cells 0 (32 + 0) 32 64) with 2. lia.
Qed.

Lemma calculateGridRects_degenerate_and_64_witness :
  calculateGridRects 5 10 10 (Grid.mk 0 4 1 1 2 2) = Some [] /\
  calculateGridRects 3 64 64 (Grid.mk 32 32 0 0 0 0) =
  Some [ Rect.mk "grid-0" 0 0 32 32; Rect.mk "grid-1" 32 0 32 32;
         Rect.mk "grid-2" 0 32 32 32; Rect.mk "grid-3" 32 32 32 32 ].
Proof.
  split.
  - apply (proj1 calculateGridRects_degenerate_and_64). simpl. lia.
  - apply (proj2 calculateGridRects_degenerate_and_64). lia.
Defined.

(** *** The cursor in binary64 *)

(** A cursor that the advance does not move never leaves the inner loop. *)
Lemma gridRow_stalled (imgWidth width height spacingX x y : Binary64.number) :
  PrimFloat.leb (PrimFloat.add x width) imgWidth = true ->
  PrimFloat.add x (PrimFloat.add width spacingX) = x ->
  forall (fuel idCounter : nat) (rects : list Binary64.rect),
    Binary64.gridRow imgWidth width height spacingX fuel x y idCounter rects = None.
Proof.
  intros Hfit Hstay. induction fuel as [|fuel IH]; intros idCounter rects;
    [reflexivity|].
  cbn [Binary64.gridRow]. rewrite Hfit, Hstay. apply IH.
Qed.

(** On the grid of C6 the two arithmetics agree. *)
Lemma calculateGridRects_binary64_64 :
  Binary64.calculateGridRects 3 64 64 (Grid.mk 32 32 0 0 0 0) =
  option_map (map Binary64.ofRect)
    (calculateGridRects 3 64 64 (Grid.mk 32 32 0 0 0 0)).
Proof. vm_compute. reflexivity. Qed.

(** C10, as the code has it.  For an image size and grid values that are
    integers within [2^50] of zero (where the binary64 cursor arithmetic
    of the source is exact), with a positive cell size and a positive
    advance in both directions (so for every non-negative spacing)
    [calculateGridRects] terminates: from some amount of fuel on it returns
    the finite list of cells met by a cursor that advances by
    [width + spacingX] along a row and by [height + spacingY] from row to
    row, and every cell of that list starts and ends within [2^50] of
    zero.  The only guard is on the cell size, not on the spacing: with a
    positive cell size and a first cell that fits, an advance
    [width + spacingX <= 0] or [height + spacingY <= 0] makes the loop run
    for ever. *)
Theorem calculateGridRects_terminates (imgWidth imgHeight : Z) (grid : Grid.t) :
  gridExact imgWidth imgHeight grid ->
  0 < Grid.width grid -> 0 < Grid.height grid ->
  (0 < Grid.width grid + Grid.spacingX grid ->
   0 < Grid.height grid + Grid.spacingY grid ->
   (exists n : nat, forall fuel : nat, (n <= fuel)%nat ->
      calculateGridRects fuel imgWidth imgHeight grid =
      Some (gridSpec imgWidth imgHeight grid)) /\
   (forall r, In r (gridSpec imgWidth imgHeight grid) ->
      - 2 ^ 50 <= Rect.x r /\ Rect.x r + Rect.w r <= 2 ^ 50 /\
      - 2 ^ 50 <= Rect.y r /\ Rect.y r + Rect.h r <= 2 ^ 50)) /\
  (Grid.width grid + Grid.spacingX grid <= 0 \/
   Grid.height grid + Grid.spacingY grid <= 0 ->
   Grid.marginX grid + Grid.width grid <= imgWidth ->
   Grid.marginY grid + Grid.height grid <= imgHeight ->
   forall fuel : nat, calculateGridRects fuel imgWidth imgHeight grid = None).
Proof.
  intros Hexact Hw Hh. split.
  - intros HsX HsY. split.
    + exists (S (Z.to_nat (Z.max
                (cells (Grid.marginX grid) (Grid.width grid + Grid.spacingX grid)
                   (Grid.width grid) imgWidth)
                (cells (Grid.marginY grid) (Grid.height grid + Grid.spacingY grid)
                   (Grid.height grid) imgHeight)))).
      intros fuel Hfuel. apply calculateGridRects_gridSpec; try assumption; lia.
    + intros r Hr. apply in_gridSpec in Hr as (i & j & Hi & Hj & ->).
      cbn [Rect.x Rect.y Rect.w Rect.h].
      pose proof (cells_last _ _ _ _ _ HsX Hi).
      pose proof (cells_last _ _ _ _ _ HsY Hj).
      unfold gridExact in Hexact.
      repeat match goal with
             | H : Forall _ (_ :: _) |- _ => apply Forall_cons_1 in H as [? H]
             end.
      repeat split; nia.
  - intros Hstep HfitX HfitY fuel. unfold calculateGridRects.
    destruct (Z.leb_spec (Grid.width grid) 0); [lia|].
    destruct (Z.leb_spec (Grid.height grid) 0); [lia|]. simpl orb. cbv iota.
    destruct Hstep as [HsX|HsY].
    + destruct fuel as [|fuel]; [reflexivity|]. cbn [gridRows].
      destruct (Z.leb_spec (Grid.marginY grid + Grid.height grid) imgHeight); [|lia].
      rewrite (gridRow_stuck imgWidth grid (Grid.marginY grid) HsX (S fuel)
                 (Grid.marginX grid) 0%nat [] HfitX).
      reflexivity.
    + now apply gridRows_stuck.
Qed.

Lemma calculateGridRects_terminates_witness :
  ((exists n : nat, forall fuel : nat, (n <= fuel)%nat ->
      calculateGridRects fuel 70 64 (Grid.mk 32 32 3 0 1 0) =
      Some (gridSpec 70 64 (Grid.mk 32 32 3 0 1 0))) /\
   (forall r, In r (gridSpec 70 64 (Grid.mk 32 32 3 0 1 0)) ->
      - 2 ^ 50 <= Rect.x r /\ Rect.x r + Rect.w r <= 2 ^ 50 /\
      - 2 ^ 50 <= Rect.y r /\ Rect.y r + Rect.h r <= 2 ^ 50)) /\
  (forall fuel : nat,
     calculateGridRects fuel 64 64 (Grid.mk 32 32 0 0 (-32) 0) = None).
Proof.
  split.
  - apply (calculateGridRects_terminates 70 64 (Grid.mk 32 32 3 0 1 0));
      try (unfold gridExact; repeat constructor); simpl; lia.
  - apply (calculateGridRects_terminates 64 64 (Grid.mk 32 32 0 0 (-32) 0));
      try (unfold gridExact; repeat constructor); simpl; lia.
Defined.

(** C10, the counterexample: a cell of 1 x 1 without spacing and a left
    margin of [-2^54] meet the four conditions of the claim, yet in
    binary64 [x + 1] is [x] again at [x = -2^54]: the cursor does not
    advance, the first cell always fits, and no amount of fuel lets the
    loop return. *)
Lemma grid_cursor_stalls_at_large_margin :
  let grid := Grid.mk 1 1 (- 2 ^ 54) 0 0 0 in
  (0 < Grid.width grid /\ 0 < Grid.height grid /\
   0 < Grid.width grid + Grid.spacingX grid /\
   0 < Grid.height grid + Grid.spacingY grid) /\
  PrimFloat.add (Binary64.ofZ (Grid.marginX grid))
    (PrimFloat.add (Binary64.ofZ (Grid.width grid))
       (Binary64.ofZ (Grid.spacingX grid))) =
  Binary64.ofZ (Grid.marginX grid) /\
  forall fuel : nat, Binary64.calculateGridRects fuel 64 64 grid = None.
Proof.
  cbv zeta. split; [cbn; lia|]. split; [vm_compute; reflexivity|].
  intros fuel. unfold Binary64.calculateGridRects. cbv zeta.
  cbn [Grid.width Grid.height Grid.marginX Grid.marginY Grid.spacingX Grid.spacingY].
  replace (PrimFloat.leb (Binary64.ofZ 1) PrimFloat.zero) with false
    by (vm_compute; reflexivity).
  cbn [orb]. destruct fuel as [|fuel]; [reflexivity|].
  cbn [Binary64.gridRows].
  replace (PrimFloat.leb (PrimFloat.add (Binary64.ofZ 0) (Binary64.ofZ 1))
             (Binary64.ofZ 64)) with true by (vm_compute; reflexivity).
  rewrite gridRow_stalled; [reflexivity| |]; vm_compute; reflexivity.
Qed.

(** ** Colour keying *)

Lemma list4_ind (P : list Z -> Prop) :
  (forall l, (length l < 4)%nat -> P l) ->
  (forall x1 x2 x3 x4 l, P l -> P (x1 :: x2 :: x3 :: x4 :: l)) ->
  forall l, P l.
Proof.
  intros Hshort Hstep l.
  assert (H : forall n l, (length l <= n)%nat -> P l).
  { clear l. induction n as [|n IH]; intros l Hl.
    - apply Hshort. lia.
    - destruct l as [|x1 [|x2 [|x3 [|x4 l]]]]; try (apply Hshort; simpl; lia).
      apply Hstep, IH. simpl in Hl. lia. }
  apply (H (length l)). lia.
Qed.

Lemma pixelStarts_4 (n : nat) :
  pixelStarts (S (S (S (S n)))) =
  0%nat :: map (fun i => (4 + i)%nat) (pixelStarts n).
Proof.
  unfold pixelStarts.
  replace ((S (S (S (S n))) + 3) / 4)%nat with (S ((n + 3) / 4)).
  - cbn [seq map]. rewrite <- List.seq_shift, !List.map_map. f_equal.
    apply List.map_ext. intros k. lia.
  - replace (S (S (S (S n))) + 3)%nat with (n + 3 + 1 * 4)%nat by lia.
    rewrite Nat.div_add by lia. lia.
Qed.

Lemma keyPixel_shift target tol featherPx x1 x2 x3 x4 (l : list Z) (i : nat) :
  keyPixel target tol featherPx (x1 :: x2 :: x3 :: x4 :: l) (4 + i) =
  x1 :: x2 :: x3 :: x4 :: keyPixel target tol featherPx l i.
Proof.
  unfold keyPixel. cbn [Nat.add lookup list_lookup insert list_insert].
  destruct (l !! i) as [r|]; [|reflexivity].
  destruct (l !! (i + 1)%nat) as [g|]; [|reflexivity].
  destruct (l !! (i + 2)%nat) as [b|]; [|reflexivity].
  cbv zeta.
  destruct (_ <=? _); [reflexivity|].
  destruct (_ && _); [|reflexivity].
  destruct (l !! (i + 3)%nat); reflexivity.
Qed.

Lemma fold_keyPixel_shift target tol featherPx x1 x2 x3 x4 (starts : list nat) :
  forall l : list Z,
    fold_left (keyPixel target tol featherPx)
      (map (fun i => (4 + i)%nat) starts) (x1 :: x2 :: x3 :: x4 :: l) =
    x1 :: x2 :: x3 :: x4 :: fold_left (keyPixel target tol featherPx) starts l.
Proof.
  induction starts as [|i starts IH]; intros l; [reflexivity|].
  cbn [map fold_left]. rewrite keyPixel_shift. apply IH.
Qed.

Lemma keyPixel_head target tol featherPx r g b a (l : list Z) :
  keyPixel target tol featherPx (r :: g :: b :: a :: l) 0 =
  r :: g :: b :: keyedAlpha target tol featherPx r g b a :: l.
Proof.
  unfold keyPixel, keyedAlpha. cbn [Nat.add lookup list_lookup insert list_insert].
  cbv zeta.
  destruct (_ <=? _); [reflexivity|].
  destruct (_ && _); reflexivity.
Qed.

Lemma keyData_mapAlpha target tolerance feather (data : list Z) :
  keyData target tolerance feather data =
  mapAlpha (keyedAlpha target (Z.max 0 tolerance) (Z.max 0 feather)) data.
Proof.
  unfold keyData.
  induction data as [l Hl | r g b a l IH] using list4_ind.
  - destruct l as [|x1 [|x2 [|x3 [|x4 l]]]]; try (simpl in Hl; lia);
      try reflexivity.
    unfold pixelStarts, keyPixel.
    cbn [length Nat.add Nat.div Nat.divmod fst seq map fold_left lookup
         list_lookup insert list_insert Nat.mul].
    cbv zeta.
    destruct (_ <=? _); [reflexivity|].
    destruct (_ && _); reflexivity.
  - cbn [length]. rewrite pixelStarts_4. cbn [fold_left].
    rewrite keyPixel_head, fold_keyPixel_shift. cbn [mapAlpha].
    now rewrite IH.
Qed.

Lemma mapAlpha_length f (data : list Z) : length (mapAlpha f data) = length data.
Proof.
  induction data as [l Hl | r g b a l IH] using list4_ind.
  - destruct l as [|x1 [|x2 [|x3 [|x4 l]]]]; try reflexivity. simpl in Hl; lia.
  - simpl. now rewrite IH.
Qed.

Lemma mapAlpha_compose f1 f2 (data : list Z) :
  mapAlpha f2 (mapAlpha f1 data) =
  mapAlpha (fun r g b a => f2 r g b (f1 r g b a)) data.
Proof.
  induction data as [l Hl | r g b a l IH] using list4_ind.
  - destruct l as [|x1 [|x2 [|x3 [|x4 l]]]]; try reflexivity. simpl in Hl; lia.
  - simpl. now rewrite IH.
Qed.

Lemma mapAlpha_ext f1 f2 (data : list Z) :
  (forall r g b a, f1 r g b a = f2 r g b a) ->
  mapAlpha f1 data = mapAlpha f2 data.
Proof.
  intros Hext.
  induction data as [l Hl | r g b a l IH] using list4_ind.
  - destruct l as [|x1 [|x2 [|x3 [|x4 l]]]]; try reflexivity. simpl in Hl; lia.
  - simpl. now rewrite IH, Hext.
Qed.

Lemma mapAlpha_id (data : list Z) : mapAlpha (fun _ _ _ a => a) data = data.
Proof.
  induction data as [l Hl | r g b a l IH] using list4_ind.
  - destruct l as [|x1 [|x2 [|x3 [|x4 l]]]]; try reflexivity. simpl in Hl; lia.
  - simpl. now rewrite IH.
Qed.

(** Lookups in a mapped buffer, pixel by pixel. *)
Lemma mapAlpha_lookup_alpha f (k : nat) :
  forall (data : list Z) r g b a,
    data !! (4 * k)%nat = Some r -> data !! (4 * k + 1)%nat = Some g ->
    data !! (4 * k + 2)%nat = Some b -> data !! (4 * k + 3)%nat = Some a ->
    mapAlpha f data !! (4 * k + 3)%nat = Some (f r g b a).
Proof.
  induction k as [|k IH]; intros data r g b a Hr Hg Hb Ha.
  - destruct data as [|x1 [|x2 [|x3 [|x4 l]]]]; try discriminate.
    simpl in *. congruence.
  - pose proof (lookup_lt_Some _ _ _ Ha) as Hlen.
    destruct data as [|x1 [|x2 [|x3 [|x4 l]]]]; try (simpl in Hlen; lia).
    replace (4 * S k)%nat with (S (S (S (S (4 * k))))) in * by lia.
    cbn [mapAlpha]. cbn [Nat.add lookup list_lookup] in *.
    eapply IH; eassumption.
Qed.

Lemma mapAlpha_lookup_rgb f (j : nat) :
  forall data : list Z,
    (j mod 4 <> 3)%nat -> mapAlpha f data !! j = data !! j.
Proof.
  induction j as [j IH] using lt_wf_ind. intros data Hj.
  destruct data as [|x1 [|x2 [|x3 [|x4 l]]]]; try reflexivity.
  cbn [mapAlpha].
  destruct j as [|[|[|[|j]]]]; try reflexivity.
  - exfalso. apply Hj. reflexivity.
  - cbn [lookup list_lookup]. apply IH; [lia|].
    replace (S (S (S (S j)))) with (j + 1 * 4)%nat in Hj by lia.
    now rewrite Nat.Div0.mod_add in Hj.
Qed.

(** *** The feather ramp *)

Lemma roundRamp_bounds (a d tol f : Z) :
  0 <= a -> 0 <= tol -> 0 < f ->
  tol * tol < d -> d <= (tol + f) * (tol + f) ->
  0 <= roundRamp a d tol f <= a.
Proof.
  intros Ha Htol Hf Hlo Hhi. unfold roundRamp.
  set (s := Z.sqrt (4 * a * a * d)).
  assert (Hs1 : 2 * a * tol <= s).
  { apply Z.sqrt_le_square; nia. }
  assert (Hs2 : s < 2 * a * (tol + f) + 1).
  { apply Z.sqrt_lt_square; nia. }
  split.
  - apply Z.div_pos; lia.
  - apply Z.lt_succ_r, Z.div_lt_upper_bound; nia.
Qed.

Lemma roundRamp_zero (d tol f : Z) : 0 < f -> roundRamp 0 d tol f = 0.
Proof.
  intros Hf. unfold roundRamp. simpl Z.sqrt.
  apply Z.div_small. lia.
Qed.

Lemma roundRamp_outer (a tol f : Z) :
  0 <= a -> 0 <= tol -> 0 < f ->
  roundRamp a ((tol + f) * (tol + f)) tol f = a.
Proof.
  intros Ha Htol Hf. unfold roundRamp.
  replace (4 * a * a * ((tol + f) * (tol + f)))
    with ((2 * a * (tol + f)) * (2 * a * (tol + f))) by ring.
  rewrite Z.sqrt_square by nia.
  replace (2 * a * (tol + f) + f - 2 * a * tol) with (a * (2 * f) + f) by ring.
  rewrite Z.div_add_l by lia. rewrite Z.div_small by lia. lia.
Qed.

Lemma roundRamp_midpoint (a d tol f : Z) :
  0 <= a -> 0 <= tol -> 0 < f ->
  4 * d = (2 * tol + f) * (2 * tol + f) ->
  roundRamp a d tol f = (a + 1) / 2.
Proof.
  intros Ha Htol Hf Hd. unfold roundRamp.
  replace (4 * a * a * d) with ((a * (2 * tol + f)) * (a * (2 * tol + f))) by nia.
  rewrite Z.sqrt_square by nia.
  replace (a * (2 * tol + f) + f - 2 * a * tol) with (f * (a + 1)) by ring.
  replace (2 * f) with (f * 2) by ring.
  apply Z.div_mul_cancel_l; lia.
Qed.

Lemma Rle_of_squares (u v : R) : (0 <= v -> u * u <= v * v -> u <= v)%R.
Proof. intros Hv H. destruct (Rle_lt_dec u v) as [|Hlt]; [assumption|]. nra. Qed.

Lemma Rlt_of_squares (u v : R) : (0 <= v -> u * u < v * v -> u < v)%R.
Proof. intros Hv H. destruct (Rlt_le_dec u v) as [|Hle]; [assumption|]. nra. Qed.

Lemma sqrt_IZR_square (d : Z) :
  0 <= d -> (sqrt (IZR d) * sqrt (IZR d) = IZR d)%R.
Proof. intros Hd. apply sqrt_sqrt, IZR_le. assumption. Qed.

(** [roundRamp] is [Math.round(alpha * t)] for the real factor [t]. *)
Lemma roundRamp_real (a d tol f : Z) :
  0 <= a -> 0 <= d -> 0 < f ->
  roundRamp a d tol f = mathRound (IZR a * rampFactor d tol f).
Proof.
  intros Ha Hd Hf. unfold mathRound. apply Int_part_spec.
  unfold roundRamp, rampFactor.
  set (s := Z.sqrt (4 * a * a * d)).
  set (n := s + f - 2 * a * tol).
  set (z := n / (2 * f)).
  assert (Hs0 : 0 <= s) by apply Z.sqrt_nonneg.
  destruct (Z.sqrt_spec (4 * a * a * d)) as [Hs1 Hs2]; [nia|]. fold s in Hs1, Hs2.
  assert (Hz1 : 2 * f * z <= n) by (apply Z.mul_div_le; lia).
  assert (Hz2 : n < 2 * f * Z.succ z) by (apply Z.mul_succ_div_gt; lia).
  assert (Hz3 : n + 1 <= 2 * f * z + 2 * f) by lia.
  pose proof (sqrt_IZR_square d Hd) as HX.
  pose proof (sqrt_pos (IZR d)) as HX0.
  set (X := sqrt (IZR d)) in *.
  assert (HA : (0 <= IZR a)%R) by now apply IZR_le.
  assert (HF : (0 < IZR f)%R) by now apply IZR_lt.
  assert (HS : (0 <= IZR s)%R) by now apply IZR_le.
  assert (Hlow : (IZR s <= 2 * IZR a * X)%R).
  { apply Rle_of_squares; [nra|].
    apply IZR_le in Hs1. push_IZR Hs1. nra. }
  assert (Hupp : (2 * IZR a * X < IZR s + 1)%R).
  { apply Rlt_of_squares; [lra|].
    apply IZR_lt in Hs2. unfold Z.succ in Hs2. push_IZR Hs2. nra. }
  apply IZR_le in Hz1. apply IZR_le in Hz3.
  unfold n in Hz1, Hz3.
  push_IZR Hz1. push_IZR Hz3.
  set (q := (IZR a * ((X - IZR tol) / IZR f))%R).
  assert (Hq : (q * IZR f = IZR a * X - IZR a * IZR tol)%R).
  { unfold q. field. lra. }
  split.
  - apply Rmult_lt_reg_l with (2 * IZR f)%R; [lra|]. nra.
  - apply Rmult_le_reg_l with (2 * IZR f)%R; [lra|]. nra.
Qed.

(** Inside the feather band the factor lies in (0, 1]. *)
Lemma rampFactor_range (d tol f : Z) :
  0 <= tol -> 0 < f ->
  tol * tol < d -> d <= (tol + f) * (tol + f) ->
  (0 < rampFactor d tol f <= 1)%R.
Proof.
  intros Htol Hf Hlo Hhi. unfold rampFactor.
  assert (Hd : 0 <= d) by nia.
  pose proof (sqrt_IZR_square d Hd) as HX.
  pose proof (sqrt_pos (IZR d)) as HX0.
  set (X := sqrt (IZR d)) in *.
  assert (HT : (0 <= IZR tol)%R) by now apply IZR_le.
  assert (HF : (0 < IZR f)%R) by now apply IZR_lt.
  apply IZR_lt in Hlo. apply IZR_le in Hhi.
  push_IZR Hlo. push_IZR Hhi.
  assert (H1 : (IZR tol < X)%R) by (apply Rlt_of_squares; lra).
  assert (H2 : (X <= IZR tol + IZR f)%R) by (apply Rle_of_squares; lra).
  split.
  - apply Rdiv_lt_0_compat; lra.
  - apply Rmult_le_reg_r with (IZR f); [assumption|].
    unfold Rdiv. rewrite Rmult_assoc, Rinv_l by lra. lra.
Qed.

(** On the outer edge of the band the factor is exactly 1. *)
Lemma rampFactor_outer (tol f : Z) :
  0 <= tol -> 0 < f -> rampFactor ((tol + f) * (tol + f)) tol f = 1%R.
Proof.
  intros Htol Hf. unfold rampFactor.
  rewrite mult_IZR, sqrt_square by (apply IZR_le; lia).
  rewrite plus_IZR. field. apply IZR_lt in Hf. lra.
Qed.

(** *** The alpha written for one pixel *)

Lemma toUint8Clamp_id (v : Z) : isByte v -> toUint8Clamp v = v.
Proof. unfold isByte, toUint8Clamp. lia. Qed.

Lemma toUint8Clamp_byte (v : Z) : isByte (toUint8Clamp v).
Proof. unfold isByte, toUint8Clamp. lia. Qed.

Lemma keyedAlpha_le target tol featherPx (r g b a : Z) :
  0 <= tol -> 0 <= a -> keyedAlpha target tol featherPx r g b a <= a.
Proof.
  intros Htol Ha. unfold keyedAlpha.
  destruct (Z.leb_spec (distSq target r g b) (tol * tol)); [lia|].
  destruct (Z.ltb_spec 0 featherPx); simpl; [|lia].
  destruct (Z.leb_spec (distSq target r g b)
              ((tol + featherPx) * (tol + featherPx))); [|lia].
  pose proof (roundRamp_bounds a (distSq target r g b) tol featherPx).
  unfold toUint8Clamp. lia.
Qed.

Lemma keyedAlpha_zero target tol featherPx (r g b : Z) :
  keyedAlpha target tol featherPx r g b 0 = 0.
Proof.
  unfold keyedAlpha.
  destruct (_ <=? _); [reflexivity|].
  destruct (Z.ltb_spec 0 featherPx); simpl; [|reflexivity].
  destruct (_ <=? _); [|reflexivity].
  now rewrite roundRamp_zero.
Qed.

Lemma keyedAlpha_hard target tol featherPx (r g b a : Z) :
  featherPx <= 0 ->
  keyedAlpha target tol featherPx r g b a =
  if distSq target r g b <=? tol * tol then 0 else a.
Proof.
  intros Hf. unfold keyedAlpha.
  destruct (_ <=? _); [reflexivity|].
  destruct (Z.ltb_spec 0 featherPx); [lia|reflexivity].
Qed.

Lemma keyedAlphas_zero targets tol featherPx (r g b : Z) :
  keyedAlphas targets tol featherPx r g b 0 = 0.
Proof.
  unfold keyedAlphas. induction targets as [|c ts IH]; [reflexivity|].
  simpl. now rewrite keyedAlpha_zero.
Qed.

Lemma keyedAlphas_hard targets tol featherPx (r g b a : Z) :
  featherPx <= 0 ->
  keyedAlphas targets tol featherPx r g b a =
  if existsb (fun c => distSq c r g b <=? tol * tol) targets then 0 else a.
Proof.
  intros Hf. revert a. induction targets as [|c ts IH]; intros a; [reflexivity|].
  change (keyedAlphas (c :: ts) tol featherPx r g b a)
    with (keyedAlphas ts tol featherPx r g b (keyedAlpha c tol featherPx r g b a)).
  rewrite keyedAlpha_hard by assumption. simpl existsb.
  destruct (_ <=? _); simpl.
  - apply keyedAlphas_zero.
  - apply IH.
Qed.

(** *** Whole buffers *)

Lemma applyColorKeys_fold (targets : list ColorRGB.t) (tolerance feather : Z) :
  forall im : ImageData.t,
    fold_left (fun im c => applyColorKeyToImageData im c tolerance feather)
      targets im =
    ImageData.mk (ImageData.width im) (ImageData.height im)
      (mapAlpha (keyedAlphas targets (Z.max 0 tolerance) (Z.max 0 feather))
         (ImageData.data im)).
Proof.
  induction targets as [|c ts IH]; intros im.
  - simpl. unfold keyedAlphas. simpl. rewrite mapAlpha_id. now destruct im.
  - cbn [fold_left]. rewrite IH. unfold applyColorKeyToImageData.
    cbn [ImageData.width ImageData.height ImageData.data].
    rewrite keyData_mapAlpha, mapAlpha_compose. reflexivity.
Qed.

Lemma applyColorKeys_mapAlpha (im : ImageData.t) targets (tolerance feather : Z) :
  applyColorKeysToImageData im targets tolerance feather =
  ImageData.mk (ImageData.width im) (ImageData.height im)
    (mapAlpha (keyedAlphas targets (Z.max 0 tolerance) (Z.max 0 feather))
       (ImageData.data im)).
Proof.
  unfold applyColorKeysToImageData. destruct targets as [|c ts].
  - unfold keyedAlphas. simpl. rewrite mapAlpha_id. now destruct im.
  - apply applyColorKeys_fold.
Qed.

Lemma pixel_lookups (data : list Z) (k : nat) (a : Z) :
  data !! (4 * k + 3)%nat = Some a ->
  exists r g b,
    data !! (4 * k)%nat = Some r /\ data !! (4 * k + 1)%nat = Some g /\
    data !! (4 * k + 2)%nat = Some b.
Proof.
  intros Ha. apply lookup_lt_Some in Ha.
  destruct (lookup_lt_is_Some_2 data (4 * k)) as [r Hr]; [lia|].
  destruct (lookup_lt_is_Some_2 data (4 * k + 1)) as [g Hg]; [lia|].
  destruct (lookup_lt_is_Some_2 data (4 * k + 2)) as [b Hb]; [lia|].
  eauto 7.
Qed.

Lemma keyedAlpha_cases target (tol f r g b a : Z) :
  0 <= tol -> isByte a ->
  let d2 := distSq target r g b in
  let a' := keyedAlpha target tol (Z.max 0 f) r g b a in
  (d2 <= tol * tol -> a' = 0) /\
  (tol * tol < d2 -> 0 < f -> d2 <= (tol + f) * (tol + f) ->
   a' = roundRamp a d2 tol f) /\
  (tol * tol < d2 -> f <= 0 \/ (tol + f) * (tol + f) < d2 -> a' = a).
Proof.
  intros Htol Ha d2 a'. subst a'. unfold keyedAlpha. fold d2.
  destruct (Z.leb_spec d2 (tol * tol)) as [Hin|Hout].
  - repeat split; intros; try reflexivity; lia.
  - split; [lia|]. split.
    + intros _ Hf Hband. rewrite Z.max_r by lia.
      destruct (Z.ltb_spec 0 f); [|lia].
      destruct (Z.leb_spec d2 ((tol + f) * (tol + f))); [|lia]. simpl.
      apply toUint8Clamp_id.
      pose proof (roundRamp_bounds a d2 tol f). unfold isByte in *. lia.
    + intros _ [Hf | Hfar].
      * rewrite Z.max_l by lia. reflexivity.
      * destruct (Z.ltb_spec 0 (Z.max 0 f)); [|reflexivity].
        rewrite Z.max_r in * by lia.
        destruct (Z.leb_spec d2 ((tol + f) * (tol + f))); [lia|reflexivity].
Qed.

(** [Math.round] yields an integer nearest to its argument. *)
Lemma mathRound_nearest (v : R) : nearest v (mathRound v).
Proof.
  unfold nearest, mathRound.
  destruct (base_Int_part (v + / 2)) as [Hle Hgt].
  apply Rabs_le. lra.
Qed.

(** Where [alpha * t] falls exactly on a half, binary64 and the exact
    ramp may part by one, both staying nearest: for alpha 45 at distance
    17 with tolerance 10 and feather 10 the product is 31.5; binary64
    has [t] a little below 0.7 and rounds to 31, the exact ramp to 32. *)
Lemma roundRamp_binary64_tie :
  (IZR 45 * rampFactor 289 10 10 = 63 / 2)%R /\
  Binary64.roundRamp 45 289 10 10 = 31 /\
  roundRamp 45 289 10 10 = 32 /\
  nearest (IZR 45 * rampFactor 289 10 10) 31 /\
  nearest (IZR 45 * rampFactor 289 10 10) 32.
Proof.
  assert (H : (IZR 45 * rampFactor 289 10 10 = 63 / 2)%R).
  { unfold rampFactor. change 289 with (17 * 17). rewrite mult_IZR.
    rewrite sqrt_square by lra. lra. }
  split; [exact H|]. split; [vm_compute; reflexivity|].
  split; [vm_compute; reflexivity|].
  unfold nearest. rewrite H. split; apply Rabs_le; lra.
Qed.

(** C3, as the code has it.  For a pixel [(r, g, b, a)] of a byte buffer,
    a target of three bytes and [d2] the sum of the squared channel
    differences to the target, [applyColorKeyToImageData] with tolerance
    [tol >= 0] and feather [f] leaves alpha [0] when [d2 <= tol^2]; else,
    when [f > 0] and [d2 <= (tol+f)^2], leaves [a * t] rounded to a
    nearest integer, between [0] and [a], with [t = (sqrt d2 - tol) / f],
    and [t] lies in (0, 1] (it is 1 on the outer edge of the band);
    otherwise leaves alpha as it was.  In particular at distance exactly
    [tol] alpha becomes 0, and for [f > 0] alpha becomes [round(a / 2)]
    at the midpoint of the band and is unchanged at distance [tol + f] or
    more. *)
Theorem applyColorKey_three_branches
    (im : ImageData.t) (target : ColorRGB.t) (tol f : Z) (k : nat)
    (r g b a : Z) :
  0 <= tol ->
  isColor target ->
  ImageData.data im !! (4 * k)%nat = Some r ->
  ImageData.data im !! (4 * k + 1)%nat = Some g ->
  ImageData.data im !! (4 * k + 2)%nat = Some b ->
  ImageData.data im !! (4 * k + 3)%nat = Some a ->
  isByte r -> isByte g -> isByte b -> isByte a ->
  let d2 := distSq target r g b in
  exists a',
    ImageData.data (applyColorKeyToImageData im target tol f)
      !! (4 * k + 3)%nat = Some a' /\
    (d2 <= tol * tol -> a' = 0) /\
    (tol * tol < d2 -> 0 < f -> d2 <= (tol + f) * (tol + f) ->
     nearest (IZR a * rampFactor d2 tol f) a' /\
     0 <= a' <= a /\
     (0 < rampFactor d2 tol f <= 1)%R) /\
    (tol * tol < d2 -> f <= 0 \/ (tol + f) * (tol + f) < d2 -> a' = a) /\
    (d2 = tol * tol -> a' = 0) /\
    (0 < f -> 4 * d2 = (2 * tol + f) * (2 * tol + f) -> a' = (a + 1) / 2) /\
    (0 < f -> (tol + f) * (tol + f) <= d2 -> a' = a).
Proof.
  intros Htol _ Hr Hg Hb Ha _ _ _ Hbyte d2.
  exists (keyedAlpha target tol (Z.max 0 f) r g b a).
  destruct (keyedAlpha_cases target tol f r g b a Htol Hbyte) as (H1 & H2 & H3).
  fold d2 in H1, H2, H3.
  assert (Hd2 : 0 <= d2) by (unfold d2, distSq; nia).
  split.
  { unfold applyColorKeyToImageData. cbn [ImageData.data].
    rewrite keyData_mapAlpha, Z.max_r by lia.
    now apply mapAlpha_lookup_alpha. }
  split; [exact H1|]. split.
  { intros Hlo Hf Hhi. rewrite H2 by assumption. split; [|split].
    - rewrite roundRamp_real by (unfold isByte in *; lia).
      apply mathRound_nearest.
    - apply roundRamp_bounds; unfold isByte in *; lia.
    - now apply rampFactor_range. }
  split; [exact H3|]. split; [intros ->; apply H1; lia|]. split.
  - intros Hf Hmid. rewrite H2; try nia.
    apply roundRamp_midpoint; unfold isByte in *; lia.
  - intros Hf Hfar. destruct (Z.eq_dec d2 ((tol + f) * (tol + f))) as [Heq|Hne].
    + rewrite H2; try nia. rewrite Heq.
      apply roundRamp_outer; unfold isByte in *; lia.
    + apply H3; [nia|right; lia].
Qed.

Lemma applyColorKey_three_branches_witness :
  exists a',
    ImageData.data
      (applyColorKeyToImageData (ImageData.mk 1 1 [15; 0; 0; 200])
         (ColorRGB.mk 0 0 0) 10 10) !! (4 * 0 + 3)%nat = Some a' /\
    (225 <= 10 * 10 -> a' = 0) /\
    (10 * 10 < 225 -> 0 < 10 -> 225 <= (10 + 10) * (10 + 10) ->
     nearest (IZR 200 * rampFactor 225 10 10) a' /\
     0 <= a' <= 200 /\
     (0 < rampFactor 225 10 10 <= 1)%R) /\
    (10 * 10 < 225 -> 10 <= 0 \/ (10 + 10) * (10 + 10) < 225 -> a' = 200) /\
    (225 = 10 * 10 -> a' = 0) /\
    (0 < 10 -> 4 * 225 = (2 * 10 + 10) * (2 * 10 + 10) -> a' = (200 + 1) / 2) /\
    (0 < 10 -> (10 + 10) * (10 + 10) <= 225 -> a' = 200).
Proof.
  apply (applyColorKey_three_branches (ImageData.mk 1 1 [15; 0; 0; 200])
           (ColorRGB.mk 0 0 0) 10 10 0 15 0 0 200);
    try reflexivity; unfold isColor, isByte; cbn; lia.
Defined.

(** C3, the counterexample: on the outer edge of the feather band the
    pixel is in the second branch and the factor is 1, not below 1. *)
Lemma feather_factor_reaches_one :
  let target := ColorRGB.mk 0 0 0 in
  let im := ImageData.mk 1 1 [20; 0; 0; 200] in
  10 * 10 < distSq target 20 0 0 /\
  0 < 10 /\
  distSq target 20 0 0 <= (10 + 10) * (10 + 10) /\
  rampFactor (distSq target 20 0 0) 10 10 = 1%R /\
  ~ (0 <= rampFactor (distSq target 20 0 0) 10 10 < 1)%R /\
  applyColorKeyToImageData im target 10 10 = im.
Proof.
  assert (H : rampFactor (distSq (ColorRGB.mk 0 0 0) 20 0 0) 10 10 = 1%R).
  { change (distSq (ColorRGB.mk 0 0 0) 20 0 0) with ((10 + 10) * (10 + 10)).
    apply rampFactor_outer; lia. }
  cbv zeta. repeat split; try (vm_compute; congruence).
  - exact H.
  - rewrite H. lra.
Qed.

(** C9. Keying never raises an alpha: after
    [applyColorKeyToImageData] every pixel's alpha is at most what it was;
    hence an alpha of 0 stays 0 under any sequence of keyings. *)
Theorem applyColorKey_never_raises_alpha :
  (forall (im : ImageData.t) (target : ColorRGB.t) (tolerance feather : Z)
          (k : nat) (a a' : Z),
      Forall isByte (ImageData.data im) ->
      ImageData.data im !! (4 * k + 3)%nat = Some a ->
      ImageData.data (applyColorKeyToImageData im target tolerance feather)
        !! (4 * k + 3)%nat = Some a' ->
      a' <= a) /\
  (forall (keys : list (ColorRGB.t * Z * Z)) (im : ImageData.t) (k : nat),
      ImageData.data im !! (4 * k + 3)%nat = Some 0 ->
      ImageData.data
        (fold_left (fun im key =>
                      applyColorKeyToImageData im (fst (fst key))
                        (snd (fst key)) (snd key))
           keys im) !! (4 * k + 3)%nat = Some 0).
Proof.
  assert (Hone : forall (im : ImageData.t) target tolerance feather (k : nat) a,
      ImageData.data im !! (4 * k + 3)%nat = Some a ->
      exists r g b,
        ImageData.data (applyColorKeyToImageData im target tolerance feather)
          !! (4 * k + 3)%nat =
        Some (keyedAlpha target (Z.max 0 tolerance) (Z.max 0 feather) r g b a)).
  { intros im target tolerance feather k a Ha.
    destruct (pixel_lookups _ _ _ Ha) as (r & g & b & Hr & Hg & Hb).
    exists r, g, b. unfold applyColorKeyToImageData. cbn [ImageData.data].
    rewrite keyData_mapAlpha. now apply mapAlpha_lookup_alpha. }
  split.
  - intros im target tolerance feather k a a' Hbytes Ha Ha'.
    destruct (Hone im target tolerance feather k a Ha) as (r & g & b & Hk).
    rewrite Hk in Ha'. injection Ha' as <-.
    apply keyedAlpha_le; [lia|].
    rewrite Forall_lookup in Hbytes. apply Hbytes in Ha. unfold isByte in Ha. lia.
  - induction keys as [|[[c tol] f] keys IH]; intros im k Ha; [exact Ha|].
    cbn [fold_left fst snd]. apply IH.
    destruct (Hone im c tol f k 0 Ha) as (r & g & b & Hk).
    now rewrite Hk, keyedAlpha_zero.
Qed.

Lemma applyColorKey_never_raises_alpha_witness :
  (forall a' : Z,
      ImageData.data
        (applyColorKeyToImageData (ImageData.mk 1 1 [15; 0; 0; 200])
           (ColorRGB.mk 0 0 0) 10 10) !! (4 * 0 + 3)%nat = Some a' ->
      a' <= 200) /\
  ImageData.data
    (fold_left (fun im key =>
                  applyColorKeyToImageData im (fst (fst key))
                    (snd (fst key)) (snd key))
       [(ColorRGB.mk 0 0 0, 10, 10); (ColorRGB.mk 9 9 9, 3, 0)]
       (ImageData.mk 1 1 [15; 0; 0; 0])) !! (4 * 0 + 3)%nat = Some 0.
Proof.
  split.
  - intros a'.
    apply (proj1 applyColorKey_never_raises_alpha
             (ImageData.mk 1 1 [15; 0; 0; 200]) (ColorRGB.mk 0 0 0) 10 10
             0%nat 200 a').
    + repeat constructor; unfold isByte; lia.
    + reflexivity.
  - apply (proj2 applyColorKey_never_raises_alpha). reflexivity.
Defined.

(** C1, the counterexample: with a feather band the second pass scales the
    alpha again, 200 -> 100 -> 50. *)
Lemma color_keys_twice_differ :
  let black := ColorRGB.mk 0 0 0 in
  let im := ImageData.mk 1 1 [15; 0; 0; 200] in
  let once := applyColorKeysToImageData im [black] 10 10 in
  let twice := applyColorKeysToImageData once [black] 10 10 in
  once = ImageData.mk 1 1 [15; 0; 0; 100] /\
  twice = ImageData.mk 1 1 [15; 0; 0; 50] /\
  twice <> once.
Proof.
  vm_compute. repeat split; discriminate.
Qed.

(** C1, as the code has it.  Without feathering ([feather <= 0]) applying
    the same list of key colours a second time changes nothing: for every
    buffer, every list of target colours and every tolerance, keying twice
    yields the buffer obtained by keying once. *)
Theorem applyColorKeys_idempotent_without_feather
    (im : ImageData.t) (targets : list ColorRGB.t) (tolerance feather : Z) :
  feather <= 0 ->
  applyColorKeysToImageData
    (applyColorKeysToImageData im targets tolerance feather)
    targets tolerance feather =
  applyColorKeysToImageData im targets tolerance feather.
Proof.
  intros Hf. rewrite !applyColorKeys_mapAlpha.
  cbn [ImageData.width ImageData.height ImageData.data]. f_equal.
  rewrite mapAlpha_compose. apply mapAlpha_ext. intros r g b a.
  rewrite !keyedAlphas_hard by lia.
  destruct (existsb _ targets); reflexivity.
Qed.

Lemma applyColorKeys_idempotent_without_feather_witness :
  applyColorKeysToImageData
    (applyColorKeysToImageData (ImageData.mk 2 1 [15; 0; 0; 200; 90; 80; 70; 255])
       [ColorRGB.mk 0 0 0; ColorRGB.mk 9 9 9] 20 0)
    [ColorRGB.mk 0 0 0; ColorRGB.mk 9 9 9] 20 0 =
  applyColorKeysToImageData (ImageData.mk 2 1 [15; 0; 0; 200; 90; 80; 70; 255])
    [ColorRGB.mk 0 0 0; ColorRGB.mk 9 9 9] 20 0.
Proof.
  apply applyColorKeys_idempotent_without_feather. lia.
Defined.

(** ** Bounds scanner *)

(** A loop that can only leave the state [P] for good: the result is in
    [P] exactly when the start was and no element made it leave. *)
Lemma fold_left_flag {A S : Type} (f : S -> A -> S) (I P : S -> Prop)
    (Q : A -> Prop) (l : list A) :
  (forall s a, In a l -> I s -> I (f s a) /\ (P (f s a) <-> P s /\ Q a)) ->
  forall s, I s ->
    I (fold_left f l s) /\
    (P (fold_left f l s) <-> P s /\ forall a, In a l -> Q a).
Proof.
  induction l as [|a l IH]; intros Hstep s Hs.
  - simpl. intuition.
  - simpl. destruct (Hstep s a (or_introl eq_refl) Hs) as [HI HP].
    destruct (IH (fun s' a' Ha' => Hstep s' a' (or_intror Ha')) (f s a) HI)
      as [HI' HP'].
    split; [exact HI'|]. rewrite HP', HP. split.
    + intros [[Hp Hq] Hall]. split; [exact Hp|].
      intros a' [<-|Ha']; auto.
    + intros [Hp Hall]. repeat split; auto.
Qed.

Lemma scanPixel_maxX (im : ImageData.t) (y x : Z) (e : Extent.t) :
  0 <= x -> -1 <= Extent.maxX e ->
  -1 <= Extent.maxX (scanPixel im y e x) /\
  (Extent.maxX (scanPixel im y e x) = -1 <->
   Extent.maxX e = -1 /\ forall a, alphaAt im x y = Some a -> a <= 0).
Proof.
  intros Hx He. unfold scanPixel.
  destruct (alphaAt im x y) as [alpha|].
  - destruct (Z.ltb_spec 0 alpha).
    + unfold stretch. cbn [Extent.maxX].
      destruct (Z.ltb_spec (Extent.maxX e) x); (split; [lia|]);
        (split; [lia|]); intros [_ Hall]; specialize (Hall alpha eq_refl); lia.
    + split; [lia|]. split; [|tauto].
      intros He'. split; [exact He'|]. intros a [= <-]. lia.
  - split; [lia|]. split; [|tauto].
    intros He'. split; [exact He'|]. discriminate.
Qed.

Lemma scanRow_maxX (im : ImageData.t) (y : Z) (e : Extent.t) :
  -1 <= Extent.maxX e ->
  -1 <= Extent.maxX (scanRow im e y) /\
  (Extent.maxX (scanRow im e y) = -1 <->
   Extent.maxX e = -1 /\
   forall x, 0 <= x < ImageData.width im ->
             forall a, alphaAt im x y = Some a -> a <= 0).
Proof.
  intros He. unfold scanRow.
  destruct (fold_left_flag (scanPixel im y)
              (fun e => -1 <= Extent.maxX e) (fun e => Extent.maxX e = -1)
              (fun x => forall a, alphaAt im x y = Some a -> a <= 0)
              (range (ImageData.width im))) with (s := e) as [HI HP].
  - intros s x Hx Hs. apply in_range in Hx. apply scanPixel_maxX; lia.
  - exact He.
  - split; [exact HI|]. rewrite HP. split; intros [Hp Hall]; split; auto.
    + intros x Hx. apply Hall, in_range, Hx.
    + intros x Hx. apply Hall, in_range, Hx.
Qed.

Lemma getTrimmedBounds_None (im : ImageData.t) :
  getTrimmedBounds im = None <-> fullyTransparent im.
Proof.
  unfold getTrimmedBounds, scanExtent, fullyTransparent.
  destruct (fold_left_flag (scanRow im)
              (fun e => -1 <= Extent.maxX e) (fun e => Extent.maxX e = -1)
              (fun y => forall x, 0 <= x < ImageData.width im ->
                        forall a, alphaAt im x y = Some a -> a <= 0)
              (range (ImageData.height im)))
    with (s := Extent.mk (ImageData.width im) (ImageData.height im) (-1) (-1))
    as [HI HP].
  - intros s y Hy Hs. apply scanRow_maxX. exact Hs.
  - simpl. lia.
  - set (e := fold_left _ _ _) in *.
    destruct (Z.eqb_spec (Extent.maxX e) (-1)) as [He|He].
    + split; [|reflexivity]. intros _ x y a Hx Hy Ha.
      apply HP in He as [_ Hall].
      exact (Hall y (proj2 (in_range y _) Hy) x Hx a Ha).
    + split; [discriminate|]. intros Hall. exfalso. apply He, HP.
      split; [reflexivity|]. intros y Hy x Hx a Ha.
      apply in_range in Hy. eauto.
Qed.

(** ** Frame extractor *)

(** C5. Whenever [extractFrame] returns a frame, the frame's id is the
    rectangle's id, with or without trimming; and with [autoTrim] off the
    frame has [trimOffset = (0,0)] and [trimmedSize = originalSize] equal
    to the rectangle's width and height. *)
Theorem extractFrame_untrimmed_geometry
    (Blob : Type) (dom : Dom Blob) (sourceImage : ImageData.t)
    (rect : Rect.t) (settings : AppSettings.t) (frame : FrameData Blob) :
  extractFrame dom sourceImage rect settings = Some frame ->
  id frame = Rect.id rect /\
  (Processing.autoTrim (AppSettings.processing settings) = false ->
   trimOffset frame = Point.mk 0 0 /\
   trimmedSize frame = Size.mk (Rect.w rect) (Rect.h rect) /\
   originalSize frame = Size.mk (Rect.w rect) (Rect.h rect)).
Proof.
  unfold extractFrame.
  destruct (context2d dom); [|discriminate]. cbn [negb].
  destruct (getTrimmedBounds _) as [bounds|]; [|discriminate].
  destruct (Processing.autoTrim _).
  - destruct (trimmedContext2d dom); [|discriminate]. cbn [negb].
    destruct (toBlob dom _) as [blob|]; [|discriminate].
    intros [= <-]. split; [reflexivity|discriminate].
  - destruct (toBlob dom _) as [blob|]; [|discriminate].
    intros [= <-]. repeat split.
Qed.

(** C2, as the code has it.  For a rectangle of positive size,
    [extractFrame] returns absent in exactly four cases: the canvas gives
    no 2D context; or, after slicing and keying, no pixel of the buffer
    has alpha > 0; or [autoTrim] is on and the trimmed canvas gives no 2D
    context; or the slice has content and [toBlob] yields [null] for the
    canvas it encodes.  Hence, when the contexts are obtained and the
    encoder yields a blob, [extractFrame] returns absent exactly when the
    keyed slice is fully transparent. *)
Theorem extractFrame_absent
    (Blob : Type) (dom : Dom Blob) (sourceImage : ImageData.t)
    (rect : Rect.t) (settings : AppSettings.t) :
  0 < Rect.w rect -> 0 < Rect.h rect ->
  (extractFrame dom sourceImage rect settings = None <->
   context2d dom = false \/
   fullyTransparent (keyedSlice sourceImage rect settings) \/
   (Processing.autoTrim (AppSettings.processing settings) = true /\
    trimmedContext2d dom = false) \/
   (exists canvas,
      encodedCanvas sourceImage rect settings = Some canvas /\
      toBlob dom canvas = None)) /\
  (context2d dom = true -> trimmedContext2d dom = true ->
   (forall im, toBlob dom im <> None) ->
   (extractFrame dom sourceImage rect settings = None <->
    fullyTransparent (keyedSlice sourceImage rect settings))).
Proof.
  intros Hw Hh.
  assert (Hall :
    extractFrame dom sourceImage rect settings = None <->
    context2d dom = false \/
    fullyTransparent (keyedSlice sourceImage rect settings) \/
    (Processing.autoTrim (AppSettings.processing settings) = true /\
     trimmedContext2d dom = false) \/
    (exists canvas,
       encodedCanvas sourceImage rect settings = Some canvas /\
       toBlob dom canvas = None)).
  { unfold extractFrame, encodedCanvas. cbv zeta.
    rewrite <- getTrimmedBounds_None.
    destruct (context2d dom); cbn [negb]; [|tauto].
    destruct (getTrimmedBounds _) as [bounds|]; [|tauto].
    destruct (Processing.autoTrim _).
    - destruct (trimmedContext2d dom); cbn [negb]; [|tauto].
      destruct (toBlob dom _) as [blob|] eqn:E.
      + split; [discriminate|].
        intros [H|[H|[[_ H]|(canvas & [= <-] & H)]]]; congruence.
      + split; [|reflexivity]. intros _. right. right. right. eauto.
    - destruct (toBlob dom _) as [blob|] eqn:E.
      + split; [discriminate|].
        intros [H|[H|[[H _]|(canvas & [= <-] & H)]]]; congruence.
      + split; [|reflexivity]. intros _. right. right. right. eauto. }
  split; [exact Hall|].
  intros Hctx Htctx Hblob. rewrite Hall. split; [|tauto].
  intros [H|[H|[[_ H]|(canvas & _ & H)]]];
    [congruence | exact H | congruence | now apply Hblob in H].
Qed.

Lemma extractFrame_absent_witness :
  let img := ImageData.mk 2 1 [255; 0; 0; 255; 0; 0; 0; 0] in
  let rect := Rect.mk "grid-0" 0 0 2 1 in
  let settings :=
    AppSettings.mk ModeGrid (Grid.mk 2 1 0 0 0 0) (Islands.mk 2 2)
      (Processing.mk true true ["#ff0000"%string] 10 0) in
  let noTrimmedContext :=
    mkDom true false (fun _ => Some tt) (fun _ => "blob:1"%string) in
  let dom := mkDom true true (fun _ => Some tt) (fun _ => "blob:1"%string) in
  extractFrame noTrimmedContext img rect settings = None /\
  (extractFrame dom img rect settings = None <->
   fullyTransparent (keyedSlice img rect settings)).
Proof.
  cbv zeta. split.
  - apply (proj1 (extractFrame_absent unit
             (mkDom true false (fun _ => Some tt) (fun _ => "blob:1"%string))
             (ImageData.mk 2 1 [255; 0; 0; 255; 0; 0; 0; 0])
             (Rect.mk "grid-0" 0 0 2 1)
             (AppSettings.mk ModeGrid (Grid.mk 2 1 0 0 0 0) (Islands.mk 2 2)
                (Processing.mk true true ["#ff0000"%string] 10 0))
             ltac:(simpl; lia) ltac:(simpl; lia))).
    right. right. left. split; reflexivity.
  - apply (proj2 (extractFrame_absent unit
             (mkDom true true (fun _ => Some tt) (fun _ => "blob:1"%string))
             (ImageData.mk 2 1 [255; 0; 0; 255; 0; 0; 0; 0])
             (Rect.mk "grid-0" 0 0 2 1)
             (AppSettings.mk ModeGrid (Grid.mk 2 1 0 0 0 0) (Islands.mk 2 2)
                (Processing.mk true true ["#ff0000"%string] 10 0))
             ltac:(simpl; lia) ltac:(simpl; lia)));
      [reflexivity | reflexivity | intros im; discriminate].
Defined.

(** C2, the counterexample: the slice has an opaque pixel, yet the result
    is absent because the encoder hands [null] to the [toBlob] callback
    ([if (!blob) return null]). *)
Lemma extractFrame_absent_with_opaque_pixel :
  let dom := mkDom true true (fun _ : ImageData.t => @None unit)
               (fun _ => "blob:0"%string) in
  let img := ImageData.mk 1 1 [255; 0; 0; 255] in
  let rect := Rect.mk "manual-1" 0 0 1 1 in
  let settings :=
    AppSettings.mk ModeManual (Grid.mk 32 32 0 0 0 0) (Islands.mk 2 2)
      (Processing.mk false false [] 10 0) in
  extractFrame dom img rect settings = None /\
  alphaAt (keyedSlice img rect settings) 0 0 = Some 255 /\
  ~ fullyTransparent (keyedSlice img rect settings).
Proof.
  cbv zeta. split; [reflexivity|]. split; [reflexivity|].
  intros H. specialize (H 0 0 255). cbn in H.
  assert (255 <= 0) by (apply H; (lia || reflexivity)). lia.
Qed.

Lemma extractFrame_untrimmed_geometry_witness :
  let rect := Rect.mk "manual-1" 1 0 1 1 in
  let frame :=
    mkFrame "manual-1"%string tt "blob:1"%string rect (Point.mk 0 0)
      (Size.mk 1 1) (Size.mk 1 1) in
  id frame = Rect.id rect /\
  (false = false ->
   trimOffset frame = Point.mk 0 0 /\
   trimmedSize frame = Size.mk (Rect.w rect) (Rect.h rect) /\
   originalSize frame = Size.mk (Rect.w rect) (Rect.h rect)).
Proof.
  cbv zeta.
  apply (extractFrame_untrimmed_geometry unit
           (mkDom true true (fun _ => Some tt) (fun _ => "blob:1"%string))
           (ImageData.mk 2 1 [0; 0; 0; 0; 255; 0; 0; 255])
           (Rect.mk "manual-1" 1 0 1 1)
           (AppSettings.mk ModeManual (Grid.mk 32 32 0 0 0 0) (Islands.mk 2 2)
              (Processing.mk false false [] 10 0))).
  reflexivity.
Defined.

(** ** Island detector *)

(** *** Marks *)

Lemma visitedAt_insert (v : list bool) (n p : Z) :
  0 <= n < Z.of_nat (length v) -> 0 <= p ->
  visitedAt (<[Z.to_nat n := true]> v) p =
  if Z.eq_dec p n then true else visitedAt v p.
Proof.
  intros Hn Hp. unfold visitedAt. destruct (Z.eq_dec p n) as [->|Hne].
  - rewrite list_lookup_insert_eq by lia. reflexivity.
  - rewrite list_lookup_insert_ne by lia. reflexivity.
Qed.

Lemma visitedAt_insert_mono (v : list bool) (k : nat) (p : Z) :
  visitedAt v p = true -> visitedAt (<[k := true]> v) p = true.
Proof.
  unfold visitedAt. intros Hp.
  destruct (Nat.eq_dec (Z.to_nat p) k) as [<-|Hne].
  - destruct (v !! Z.to_nat p) eqn:E; [|discriminate].
    apply lookup_lt_Some in E. now rewrite list_lookup_insert_eq.
  - now rewrite list_lookup_insert_ne by congruence.
Qed.

Lemma countFalse_insert (v : list bool) :
  forall n : nat,
    v !! n = Some false ->
    (countFalse (<[n := true]> v) + 1 = countFalse v)%nat.
Proof.
  induction v as [|b v IH]; intros n Hn; [discriminate|].
  destruct n as [|n].
  - simpl in Hn. injection Hn as ->. simpl. clear IH. lia.
  - simpl in Hn. specialize (IH n Hn).
    change (<[S n := true]> (b :: v)) with (b :: <[n := true]> v).
    destruct b; cbn [countFalse]; lia.
Qed.

Lemma countFalse_le (v : list bool) : (countFalse v <= length v)%nat.
Proof. induction v as [|[] v IH]; simpl; lia. Qed.

Lemma visitedAt_false_lookup (v : list bool) (n : Z) :
  0 <= n < Z.of_nat (length v) -> visitedAt v n = false ->
  v !! Z.to_nat n = Some false.
Proof.
  intros Hn Hv. unfold visitedAt in Hv.
  destruct (lookup_lt_is_Some_2 v (Z.to_nat n)) as [b Hb]; [lia|].
  rewrite Hb in Hv. simpl in Hv. now subst b.
Qed.

(** *** The four neighbours of one pixel *)

Lemma fold_visitNeighbor (data : list Z) (l : list Z) :
  forall (vis : list bool) (stk : list Z),
  exists (vis' : list bool) (new : list Z),
    fold_left (visitNeighbor data) l (vis, stk) = (vis', new ++ stk) /\
    length vis' = length vis /\
    (forall p, visitedAt vis p = true -> visitedAt vis' p = true) /\
    (forall p, 0 <= p -> visitedAt vis' p = true ->
               visitedAt vis p = true \/ In p new) /\
    (forall p, In p new ->
               In p l /\ 0 <= p < Z.of_nat (length vis) /\
               isTransparent data p = false /\ visitedAt vis' p = true) /\
    (forall p, In p l -> 0 <= p < Z.of_nat (length vis) ->
               isTransparent data p = false -> visitedAt vis' p = true) /\
    (countFalse vis' + length new = countFalse vis)%nat.
Proof.
  induction l as [|n l IH]; intros vis stk.
  - exists vis, []. simpl. repeat split; auto; try tauto; try lia.
  - cbn [fold_left]. unfold visitNeighbor at 2.
    destruct ((0 <=? n) && (n <? Z.of_nat (length vis))
              && negb (visitedAt vis n) && negb (isTransparent data n)) eqn:E.
    + apply andb_true_iff in E as [E Ht]. apply andb_true_iff in E as [E Hv].
      apply andb_true_iff in E as [H0 H1].
      apply Z.leb_le in H0. apply Z.ltb_lt in H1.
      apply negb_true_iff in Hv, Ht.
      destruct (IH (<[Z.to_nat n := true]> vis) (n :: stk))
        as (vis' & new & Hfold & Hlen & Hmono & Hnew & Hin & Hall & Hcnt).
      rewrite length_insert in *.
      assert (Hn' : visitedAt vis' n = true).
      { apply Hmono. rewrite visitedAt_insert by lia.
        destruct (Z.eq_dec n n); [reflexivity|contradiction]. }
      exists vis', (new ++ [n]). rewrite <- app_assoc. simpl app.
      split; [exact Hfold|]. split; [exact Hlen|]. split; [|split; [|split; [|split]]].
      * intros p Hp. now apply Hmono, visitedAt_insert_mono.
      * intros p Hp0 Hp. destruct (Hnew p Hp0 Hp) as [Hold|Hp'].
        -- rewrite visitedAt_insert in Hold by lia.
           destruct (Z.eq_dec p n) as [->|]; [|now left].
           right. apply in_or_app. right. now left.
        -- right. apply in_or_app. now left.
      * intros p Hp. apply in_app_or in Hp as [Hp|[<-|[]]].
        -- destruct (Hin p Hp) as (? & ? & ? & ?).
           split; [now right|]. split; [lia|]. split; assumption.
        -- split; [now left|]. split; [lia|]. split; assumption.
      * intros p [<-|Hp] Hr Ht'; [exact Hn'|]. now apply Hall.
      * rewrite length_app. simpl.
        pose proof (countFalse_insert vis (Z.to_nat n)
                      (visitedAt_false_lookup vis n ltac:(lia) Hv)). lia.
    + destruct (IH vis stk)
        as (vis' & new & Hfold & Hlen & Hmono & Hnew & Hin & Hall & Hcnt).
      exists vis', new.
      split; [exact Hfold|]. split; [exact Hlen|]. split; [exact Hmono|].
      split; [exact Hnew|]. split; [|split; [|exact Hcnt]].
      * intros p Hp. destruct (Hin p Hp) as (? & ? & ? & ?).
        split; [now right|]. split; [lia|]. split; assumption.
      * intros p [<-|Hp] Hr Ht'; [|now apply Hall].
        apply Hmono.
        destruct (visitedAt vis n) eqn:Hv; [reflexivity|].
        rewrite Ht' in E.
        destruct (Z.leb_spec 0 n); [|lia].
        destruct (Z.ltb_spec n (Z.of_nat (length vis))); [|lia].
        discriminate.
Qed.

(** *** One flood fill *)

Lemma covers_stretch (W : Z) (e : Extent.t) (x y p : Z) :
  covers W e p -> covers W (stretch e x y) p.
Proof.
  unfold covers, stretch. cbn.
  destruct (Z.ltb_spec x (Extent.minX e)), (Z.ltb_spec y (Extent.minY e)),
    (Z.ltb_spec (Extent.maxX e) x), (Z.ltb_spec (Extent.maxY e) y); lia.
Qed.

Lemma covers_stretch_self (W : Z) (e : Extent.t) (p : Z) :
  covers W (stretch e (Z.rem p W) (p / W)) p.
Proof.
  unfold covers, stretch. cbn.
  destruct (Z.ltb_spec (Z.rem p W) (Extent.minX e)),
    (Z.ltb_spec (p / W) (Extent.minY e)),
    (Z.ltb_spec (Extent.maxX e) (Z.rem p W)),
    (Z.ltb_spec (Extent.maxY e) (p / W)); lia.
Qed.

Lemma attained_stretch (W : Z) (R : Z -> Prop) (e : Extent.t) (p : Z) :
  R p -> attained W R e -> attained W R (stretch e (Z.rem p W) (p / W)).
Proof.
  intros Hp (H1 & H2 & H3 & H4). unfold attained, stretch. cbn.
  repeat split.
  - destruct (_ <? _); [now exists p | exact H1].
  - destruct (_ <? _); [now exists p | exact H2].
  - destruct (_ <? _); [now exists p | exact H3].
  - destruct (_ <? _); [now exists p | exact H4].
Qed.

Section FloodFacts.
Variables (W : Z) (data : list Z) (v0 : list bool) (R : Z -> Prop) (seed : Z).

Hypothesis R_sound :
  forall p, R p -> 0 <= p < Z.of_nat (length v0) /\ isTransparent data p = false.
Hypothesis R_closed :
  forall p q, R p -> In q (neighbors W p) ->
    0 <= q < Z.of_nat (length v0) -> isTransparent data q = false -> R q.

Lemma floodStep_inv (st : Flood.t) (curr : Z) (rest : list Z) :
  floodInv W v0 R seed st ->
  Flood.stack st = curr :: rest ->
  floodInv W v0 R seed (floodStep W data curr rest st) /\
  (countFalse (Flood.visited (floodStep W data curr rest st))
   + length (Flood.stack (floodStep W data curr rest st)) + 1 =
   countFalse (Flood.visited st) + length (Flood.stack st))%nat.
Proof using R_sound R_closed.
  intros [Ilen Iout Istack Idone Iatt Iseed] Hstack.
  destruct (fold_visitNeighbor data (neighbors W curr) (Flood.visited st) rest)
    as (vis' & new & Hfold & Hlen & Hmono & Hnew & Hin & Hall & Hcnt).
  unfold floodStep. rewrite Hfold. cbn [Flood.visited Flood.stack Flood.extent].
  rewrite Hstack in *.
  destruct (Istack curr (or_introl eq_refl)) as [Rcurr Vcurr].
  rewrite Ilen in *.
  split.
  - constructor; cbn [Flood.visited Flood.stack Flood.extent].
    + lia.
    + intros p Hp HnR. destruct (visitedAt vis' p) eqn:E.
      * destruct (Hnew p Hp E) as [Hold|Hp'].
        -- now rewrite <- Iout.
        -- exfalso. apply HnR.
           destruct (Hin p Hp') as (Hn & Hr & Ht & _).
           now apply (R_closed curr p).
      * rewrite <- Iout by assumption.
        destruct (visitedAt (Flood.visited st) p) eqn:E'; [|reflexivity].
        apply Hmono in E'. congruence.
    + intros p Hp. apply in_app_or in Hp as [Hp|Hp].
      * destruct (Hin p Hp) as (Hn & Hr & Ht & Hv).
        split; [|exact Hv]. now apply (R_closed curr p).
      * destruct (Istack p (or_intror Hp)) as [HR HV]. auto.
    + intros p HR HV Hnot.
      destruct (Z.eq_dec p curr) as [->|Hne].
      * split; [apply covers_stretch_self|].
        intros q Hq HRq. destruct (R_sound q HRq). now apply Hall.
      * assert (Hold : visitedAt (Flood.visited st) p = true).
        { destruct (R_sound p HR) as [Hr _].
          destruct (Hnew p ltac:(lia) HV) as [|Hp']; [assumption|].
          exfalso. apply Hnot, in_or_app. now left. }
        destruct (Idone p HR Hold) as [Hc Hq].
        { intros [->|Hp]; [congruence|]. apply Hnot, in_or_app. now right. }
        split; [now apply covers_stretch|].
        intros q Hq' HRq. apply Hmono. now apply Hq.
    + now apply attained_stretch.
    + now apply Hmono.
  - rewrite length_app. simpl. lia.
Qed.

Lemma flood_run (fuel : nat) :
  forall st : Flood.t,
    floodInv W v0 R seed st ->
    (countFalse (Flood.visited st) + length (Flood.stack st) < fuel)%nat ->
    exists st',
      flood W data fuel st = Some st' /\
      floodInv W v0 R seed st' /\ Flood.stack st' = [].
Proof using R_sound R_closed.
  induction fuel as [|fuel IH]; intros st Hinv Hfuel; [lia|].
  cbn [flood]. destruct (Flood.stack st) as [|curr rest] eqn:Hstack.
  - exists st. auto.
  - destruct (floodStep_inv st curr rest Hinv Hstack) as [Hinv' Hm].
    apply IH; [exact Hinv'|]. rewrite Hstack in Hm.
    cbn [length] in Hm, Hfuel. lia.
Qed.

Hypothesis R_dec : forall p, R p \/ ~ R p.
Hypothesis R_seed : R seed.
Hypothesis R_fresh : forall p, R p -> visitedAt v0 p = false.
Hypothesis R_reach : forall p, R p -> reach W R seed p.

(** The flood fill started at [seed] marks exactly the region and leaves
    its bounding box. *)
Lemma flood_region :
  exists st',
    flood W data (S (length (<[Z.to_nat seed := true]> v0)))
      (Flood.mk [seed] (<[Z.to_nat seed := true]> v0)
         (Extent.mk (Z.rem seed W) (seed / W) (Z.rem seed W) (seed / W)))
    = Some st' /\
    length (Flood.visited st') = length v0 /\
    (forall p, 0 <= p ->
       (visitedAt (Flood.visited st') p = true <->
        visitedAt v0 p = true \/ R p)) /\
    (forall p, R p -> covers W (Flood.extent st') p) /\
    attained W R (Flood.extent st').
Proof using All.
  destruct (R_sound seed R_seed) as [Hseed Hopaque].
  set (st0 := Flood.mk [seed] (<[Z.to_nat seed := true]> v0)
                (Extent.mk (Z.rem seed W) (seed / W) (Z.rem seed W) (seed / W))).
  assert (Hinv0 : floodInv W v0 R seed st0).
  { constructor; cbn [st0 Flood.visited Flood.stack Flood.extent].
    - apply length_insert.
    - intros p Hp HnR. rewrite visitedAt_insert by lia.
      destruct (Z.eq_dec p seed) as [->|]; [contradiction|reflexivity].
    - intros p [<-|[]]. split; [exact R_seed|].
      rewrite visitedAt_insert by lia.
      destruct (Z.eq_dec seed seed); [reflexivity|contradiction].
    - intros p HR HV Hnot. exfalso. destruct (R_sound p HR) as [Hr _].
      rewrite visitedAt_insert in HV by lia.
      destruct (Z.eq_dec p seed) as [->|].
      + apply Hnot. now left.
      + rewrite R_fresh in HV by assumption. discriminate.
    - unfold attained. cbn. repeat split; now exists seed.
    - rewrite visitedAt_insert by lia.
      destruct (Z.eq_dec seed seed); [reflexivity|contradiction]. }
  destruct (flood_run (S (length (<[Z.to_nat seed := true]> v0))) st0 Hinv0)
    as (st' & Hrun & [Ilen Iout Istack Idone Iatt Iseed] & Hempty).
  { cbn [st0 Flood.visited Flood.stack]. rewrite length_insert.
    pose proof (countFalse_insert v0 (Z.to_nat seed)
                  (visitedAt_false_lookup v0 seed Hseed (R_fresh seed R_seed))).
    pose proof (countFalse_le v0). simpl. lia. }
  exists st'. split; [exact Hrun|]. split; [exact Ilen|].
  rewrite Hempty in Idone.
  assert (Hall : forall p, reach W R seed p ->
                   R p /\ visitedAt (Flood.visited st') p = true).
  { intros p Hp. induction Hp as [|p q Hp [HRp HVp] HRq Hq].
    - auto.
    - split; [exact HRq|].
      destruct (Idone p HRp HVp) as [_ Hnb]; [intros []|]. now apply Hnb. }
  split; [|split; [|exact Iatt]].
  - intros p Hp. split.
    + intros HV. destruct (visitedAt v0 p) eqn:E; [now left|]. right.
      destruct (R_dec p) as [|HnR]; [assumption|].
      rewrite Iout in HV by assumption. congruence.
    + intros [HV|HR].
      * destruct (R_dec p) as [HR|HnR].
        -- rewrite R_fresh in HV by assumption. discriminate.
        -- now rewrite Iout.
      * now apply Hall, R_reach.
  - intros p HR. destruct (Hall p (R_reach p HR)) as [_ HV].
    destruct (Idone p HR HV) as [Hc _]; [intros []|exact Hc].
Qed.
End FloodFacts.

(** *** The two loops as one pass over the pixel indices *)

Lemma foldOpt_app {A S : Type} (f : A -> S -> option S) (l1 l2 : list A)
    (s : option S) :
  foldOpt f (l1 ++ l2) s = foldOpt f l2 (foldOpt f l1 s).
Proof. unfold foldOpt. apply fold_left_app. Qed.

Lemma foldOpt_None {A S : Type} (f : A -> S -> option S) (l : list A) :
  foldOpt f l None = None.
Proof. unfold foldOpt. induction l as [|a l IH]; [reflexivity|exact IH]. Qed.

Lemma foldOpt_cons {A S : Type} (f : A -> S -> option S) (a : A) (l : list A)
    (s : S) :
  foldOpt f (a :: l) (Some s) = foldOpt f l (f a s).
Proof. reflexivity. Qed.

Lemma foldOpt_map {A B S : Type} (f : B -> S -> option S) (g : A -> B)
    (l : list A) (s : option S) :
  foldOpt f (map g l) s = foldOpt (fun a => f (g a)) l s.
Proof.
  unfold foldOpt. revert s. induction l as [|a l IH]; intros s; [reflexivity|].
  simpl. apply IH.
Qed.

Lemma foldOpt_ext_in {A S : Type} (f g : A -> S -> option S) (l : list A)
    (s : option S) :
  (forall a s, In a l -> f a s = g a s) ->
  foldOpt f l s = foldOpt g l s.
Proof.
  unfold foldOpt. revert s. induction l as [|a l IH]; intros s Hext; [reflexivity|].
  simpl. rewrite IH by (intros; apply Hext; now right).
  destruct s as [s|]; [|reflexivity]. now rewrite Hext by now left.
Qed.

Lemma foldOpt_skip {A S : Type} (f : A -> S -> option S) (l : list A) (s : S) :
  (forall a, In a l -> f a s = Some s) -> foldOpt f l (Some s) = Some s.
Proof.
  induction l as [|a l IH]; intros Hskip; [reflexivity|].
  rewrite foldOpt_cons, Hskip by now left.
  apply IH. intros; apply Hskip; now right.
Qed.

Lemma seq_offset (n : nat) :
  forall a : nat, seq a n = map (fun i => (a + i)%nat) (seq 0 n).
Proof.
  induction n as [|n IH]; intros a; [reflexivity|].
  cbn [seq map]. rewrite Nat.add_0_r. f_equal.
  rewrite (IH (S a)), (IH 1%nat), List.map_map.
  apply List.map_ext. intros i. lia.
Qed.

Lemma range_add (a b : Z) :
  0 <= a -> 0 <= b -> range (a + b) = range a ++ map (fun i => a + i) (range b).
Proof.
  intros Ha Hb. unfold range.
  rewrite Z2Nat.inj_add, seq_app, List.map_app by lia. f_equal.
  rewrite (seq_offset _ (0 + Z.to_nat a)), !List.map_map.
  apply List.map_ext. intros i. lia.
Qed.

Lemma in_between (a b x : Z) : In x (between a b) <-> a <= x < b.
Proof.
  unfold between. rewrite in_map_iff. split.
  - intros (i & <- & Hi). apply in_range in Hi. lia.
  - intros Hx. exists (x - a). split; [lia|]. apply in_range. lia.
Qed.

Lemma range_between (n : Z) : range n = between 0 n.
Proof.
  unfold between. rewrite Z.sub_0_r.
  rewrite <- (List.map_id (range n)) at 1. now apply List.map_ext.
Qed.

Lemma between_split (a k b : Z) :
  a <= k < b -> between a b = between a k ++ k :: between (k + 1) b.
Proof.
  intros Hk. unfold between.
  replace (b - a) with ((k - a) + (1 + (b - (k + 1)))) by lia.
  rewrite range_add by lia. rewrite (range_add 1) by lia.
  rewrite !List.map_app, !List.map_map. f_equal.
  change (range 1) with [0]. cbn [map app]. f_equal; [lia|].
  apply List.map_ext. intros i. lia.
Qed.

Lemma coords_of_index (W x y : Z) :
  0 <= x < W -> 0 <= y -> Z.rem (y * W + x) W = x /\ (y * W + x) / W = y.
Proof.
  intros Hx Hy. rewrite Z.rem_mod_nonneg by nia. split.
  - rewrite Z.add_comm, Z.mod_add by lia. apply Z.mod_small. lia.
  - rewrite Z.add_comm, Z.div_add by lia. rewrite Z.div_small by lia. lia.
Qed.

Lemma index_of_coords (W p : Z) :
  0 < W -> 0 <= p ->
  p / W * W + Z.rem p W = p /\ 0 <= Z.rem p W < W /\ 0 <= p / W.
Proof.
  intros HW Hp. rewrite Z.rem_mod_nonneg by lia.
  pose proof (Z.div_mod p W ltac:(lia)).
  pose proof (Z.mod_pos_bound p W HW).
  pose proof (Z.div_pos p W Hp HW). lia.
Qed.

Lemma scanCells_flat (im : ImageData.t) (minWidth minHeight : Z) (s : Scan.t) :
  0 < ImageData.width im -> 0 <= ImageData.height im ->
  scanCells im minWidth minHeight s =
  foldOpt (scanIndex im minWidth minHeight)
    (range (ImageData.width im * ImageData.height im)) (Some s).
Proof.
  intros HW HH. unfold scanCells.
  set (W := ImageData.width im) in *.
  set (row := fun y s => foldOpt (fun x s => scanCell im minWidth minHeight x y s)
                           (range W) (Some s)).
  assert (Hrow : forall y acc, 0 <= y ->
            match acc with Some s => row y s | None => None end =
            foldOpt (scanIndex im minWidth minHeight)
              (map (fun i => W * y + i) (range W)) acc).
  { intros y [s'|] Hy; [|now rewrite foldOpt_None].
    unfold row. rewrite foldOpt_map. apply foldOpt_ext_in.
    intros x s'' Hx. apply in_range in Hx. unfold scanIndex. fold W.
    replace (W * y + x) with (y * W + x) by lia.
    now destruct (coords_of_index W x y Hx Hy) as [-> ->]. }
  assert (H : forall h : nat,
            foldOpt row (range (Z.of_nat h)) (Some s) =
            foldOpt (scanIndex im minWidth minHeight)
              (range (W * Z.of_nat h)) (Some s)).
  { induction h as [|h IH].
    - now rewrite Z.mul_0_r.
    - replace (Z.of_nat (S h)) with (Z.of_nat h + 1) by lia.
      rewrite Z.mul_add_distr_l, Z.mul_1_r.
      rewrite !range_add by nia. rewrite !foldOpt_app, IH.
      change (range 1) with [0]. cbn [map]. rewrite Z.add_0_r.
      rewrite <- Hrow by lia. unfold foldOpt at 1. reflexivity. }
  rewrite <- (Z2Nat.id (ImageData.height im)) by lia. apply H.
Qed.

(** *** Squares *)

Lemma neighbors_coords (W p q : Z) :
  0 < W -> 0 <= p -> In q (neighbors W p) -> 0 <= q ->
  (Z.rem q W = Z.rem p W /\ (q / W = p / W - 1 \/ q / W = p / W + 1)) \/
  (q / W = p / W /\ (Z.rem q W = Z.rem p W - 1 \/ Z.rem q W = Z.rem p W + 1)).
Proof.
  intros HW Hp Hin Hq.
  destruct (index_of_coords W p HW Hp) as (Hidx & Hx & Hy).
  set (x := Z.rem p W) in *. set (y := p / W) in *.
  unfold neighbors in Hin. fold x in Hin. cbn [In] in Hin.
  destruct Hin as [<-|[<-|[<-|[<-|[]]]]].
  - assert (1 <= y) by nia.
    replace (p - W) with ((y - 1) * W + x) by lia.
    destruct (coords_of_index W x (y - 1)) as [-> ->]; lia.
  - replace (p + W) with ((y + 1) * W + x) by lia.
    destruct (coords_of_index W x (y + 1)) as [-> ->]; lia.
  - destruct (Z.ltb_spec 0 x); [|lia].
    replace (p - 1) with (y * W + (x - 1)) by lia.
    destruct (coords_of_index W (x - 1) y) as [-> ->]; lia.
  - destruct (Z.ltb_spec x (W - 1)); [|lia].
    replace (p + 1) with (y * W + (x + 1)) by lia.
    destruct (coords_of_index W (x + 1) y) as [-> ->]; lia.
Qed.

Section SquareFacts.
Variables (W H ax ay : Z).
Hypothesis Hax : 0 <= ax.
Hypothesis HaxW : ax + 3 <= W.
Hypothesis Hay : 0 <= ay.
Hypothesis HayH : ay + 3 <= H.

Lemma squareRegion_index (i j : Z) :
  0 <= i < 3 -> 0 <= j < 3 ->
  squareRegion W H ax ay ((ay + j) * W + (ax + i)) /\
  Z.rem ((ay + j) * W + (ax + i)) W = ax + i /\
  ((ay + j) * W + (ax + i)) / W = ay + j.
Proof using All.
  intros Hi Hj.
  destruct (coords_of_index W (ax + i) (ay + j)) as [Hr Hd]; [lia|lia|].
  split; [|auto]. unfold squareRegion, inSquare. rewrite Hr, Hd.
  split; [nia|lia].
Qed.

Lemma squareRegion_coords (p : Z) :
  squareRegion W H ax ay p ->
  exists i j, 0 <= i < 3 /\ 0 <= j < 3 /\ p = (ay + j) * W + (ax + i).
Proof using All.
  intros [Hp [Hx Hy]].
  destruct (index_of_coords W p) as (Hidx & _); [lia|lia|].
  exists (Z.rem p W - ax), (p / W - ay). repeat split; lia.
Qed.

Lemma squareRegion_dec (p : Z) :
  squareRegion W H ax ay p \/ ~ squareRegion W H ax ay p.
Proof. unfold squareRegion, inSquare. lia. Qed.

Lemma squareRegion_first (p : Z) :
  squareRegion W H ax ay p -> ay * W + ax <= p.
Proof using All.
  intros Hp. destruct (squareRegion_coords p Hp) as (i & j & Hi & Hj & ->). nia.
Qed.

Lemma square_reach (p : Z) :
  squareRegion W H ax ay p ->
  reach W (squareRegion W H ax ay) (ay * W + ax) p.
Proof using All.
  intros Hp. destruct (squareRegion_coords p Hp) as (i & j & Hi & Hj & ->).
  clear Hp.
  assert (Hright : forall i j, 0 <= i < 2 -> 0 <= j < 3 ->
            reach W (squareRegion W H ax ay) (ay * W + ax) ((ay + j) * W + (ax + i)) ->
            reach W (squareRegion W H ax ay) (ay * W + ax)
              ((ay + j) * W + (ax + (i + 1)))).
  { intros i' j' Hi' Hj' Hr.
    destruct (squareRegion_index i' j') as (_ & Hrem & _); [lia|lia|].
    destruct (squareRegion_index (i' + 1) j') as (HR & _); [lia|lia|].
    eapply reach_step; [exact Hr|exact HR|].
    unfold neighbors. rewrite Hrem.
    destruct (Z.ltb_spec (ax + i') (W - 1)); [|lia].
    right. right. right. left. lia. }
  assert (Hdown : forall i j, 0 <= i < 3 -> 0 <= j < 2 ->
            reach W (squareRegion W H ax ay) (ay * W + ax) ((ay + j) * W + (ax + i)) ->
            reach W (squareRegion W H ax ay) (ay * W + ax)
              ((ay + (j + 1)) * W + (ax + i))).
  { intros i' j' Hi' Hj' Hr.
    destruct (squareRegion_index i' (j' + 1)) as (HR & _); [lia|lia|].
    eapply reach_step; [exact Hr|exact HR|].
    unfold neighbors. right. left. lia. }
  assert (H00 : reach W (squareRegion W H ax ay) (ay * W + ax)
                  ((ay + 0) * W + (ax + 0))).
  { replace ((ay + 0) * W + (ax + 0)) with (ay * W + ax) by lia. constructor. }
  assert (Hrow : forall i, 0 <= i < 3 ->
            reach W (squareRegion W H ax ay) (ay * W + ax) ((ay + 0) * W + (ax + i))).
  { intros i' Hi'. assert (Hc : i' = 0 \/ i' = 0 + 1 \/ i' = 0 + 1 + 1) by lia.
    destruct Hc as [-> | [-> | ->]]; auto.
    - apply Hright; auto; lia.
    - apply Hright; [lia|lia|]. apply Hright; auto; lia. }
  assert (Hc : j = 0 \/ j = 0 + 1 \/ j = 0 + 1 + 1) by lia.
  destruct Hc as [-> | [-> | ->]]; auto.
  - apply Hdown; auto; lia.
  - apply Hdown; [lia|lia|]. apply Hdown; auto; lia.
Qed.

(** A box that contains the square and touches it on every side is the square. *)
Lemma square_extent (e : Extent.t) :
  (forall p, squareRegion W H ax ay p -> covers W e p) ->
  attained W (squareRegion W H ax ay) e ->
  e = Extent.mk ax ay (ax + 2) (ay + 2).
Proof using All.
  intros Hcov ((p1 & [_ [H1 _]] & E1) & (p2 & [_ [H2 _]] & E2) &
               (p3 & [_ [_ H3]] & E3) & (p4 & [_ [_ H4]] & E4)).
  destruct (squareRegion_index 0 0) as (R0 & Hr0 & Hd0); [lia|lia|].
  destruct (squareRegion_index 2 2) as (R2 & Hr2 & Hd2); [lia|lia|].
  destruct (Hcov _ R0) as [Hc1 Hc2]. destruct (Hcov _ R2) as [Hc3 Hc4].
  rewrite Hr0, Hd0, Hr2, Hd2 in *.
  destruct e as [a b c d]. cbn in *. f_equal; lia.
Qed.
End SquareFacts.

(** *** One cell of the scan *)

Lemma scanIndex_skip (im : ImageData.t) (minWidth minHeight idx : Z) (s : Scan.t) :
  0 < ImageData.width im -> 0 <= idx ->
  visitedAt (Scan.visited s) idx || isTransparent (ImageData.data im) idx = true ->
  scanIndex im minWidth minHeight idx s = Some s.
Proof.
  intros HW Hidx Hskip. unfold scanIndex, scanCell. cbv zeta.
  destruct (index_of_coords (ImageData.width im) idx HW Hidx) as (-> & _).
  now rewrite Hskip.
Qed.

Lemma visitedAt_replicate (n : nat) (p : Z) :
  visitedAt (replicate n false) p = false.
Proof.
  unfold visitedAt. destruct (replicate n false !! Z.to_nat p) as [b|] eqn:E;
    [|reflexivity].
  apply lookup_replicate in E as [-> _]. reflexivity.
Qed.

(** The scan meets the top-left corner of a square that is still unmarked
    and whose opaque neighbours all lie in it: the fill marks the square and
    its bounding box is the square. *)
Lemma scanIndex_square (im : ImageData.t) (minWidth minHeight H x1 y1 : Z)
    (s : Scan.t) :
  0 <= x1 -> x1 + 3 <= ImageData.width im -> 0 <= y1 -> y1 + 3 <= H ->
  Z.of_nat (length (Scan.visited s)) = ImageData.width im * H ->
  (forall p, squareRegion (ImageData.width im) H x1 y1 p ->
     isTransparent (ImageData.data im) p = false /\
     visitedAt (Scan.visited s) p = false) ->
  (forall p q, squareRegion (ImageData.width im) H x1 y1 p ->
     In q (neighbors (ImageData.width im) p) ->
     0 <= q < ImageData.width im * H ->
     isTransparent (ImageData.data im) q = false ->
     squareRegion (ImageData.width im) H x1 y1 q) ->
  exists vis',
    scanIndex im minWidth minHeight (y1 * ImageData.width im + x1) s =
    Some (if (minWidth <=? 3) && (minHeight <=? 3)
          then Scan.mk vis'
                 (Scan.rects s ++ [Rect.mk (islandId (Scan.idCounter s)) x1 y1 3 3])
                 (S (Scan.idCounter s))
          else Scan.mk vis' (Scan.rects s) (Scan.idCounter s)) /\
    Z.of_nat (length vis') = ImageData.width im * H /\
    (forall p, 0 <= p ->
       (visitedAt vis' p = true <->
        visitedAt (Scan.visited s) p = true \/
        squareRegion (ImageData.width im) H x1 y1 p)).
Proof.
  set (W := ImageData.width im). set (data := ImageData.data im).
  intros Hx1 Hx1W Hy1 Hy1H Hlen Hfresh Hclosed.
  set (seed := y1 * W + x1).
  destruct (squareRegion_index W H x1 y1 Hx1 Hx1W Hy1 Hy1H 0 0)
    as (Rseed & Hrem & Hdiv); [lia|lia|].
  replace ((y1 + 0) * W + (x1 + 0)) with seed in * by (unfold seed; lia).
  rewrite Z.add_0_r in Hrem, Hdiv.
  destruct (Hfresh seed Rseed) as [Hopaque Hunvisited].
  destruct (flood_region W data (Scan.visited s) (squareRegion W H x1 y1) seed)
    as (st' & Hflood & Hlen' & Hvis & Hcov & Hatt).
  - intros p Hp. split; [|now apply Hfresh]. rewrite Hlen. apply Hp.
  - intros p q Hp Hq Hr Ht. rewrite Hlen in Hr. now apply (Hclosed p q).
  - apply squareRegion_dec.
  - exact Rseed.
  - intros p Hp. now apply Hfresh.
  - intros p Hp. now apply square_reach.
  - rewrite Hrem, Hdiv in Hflood.
    pose proof (square_extent W H x1 y1 Hx1 Hx1W Hy1 Hy1H _ Hcov Hatt) as He.
    exists (Flood.visited st'). split; [|split].
    + unfold scanIndex, scanCell. cbv zeta. fold W data.
      rewrite Hrem, Hdiv. fold seed. rewrite Hunvisited, Hopaque. cbn [orb].
      rewrite Hflood, He. cbn [Extent.minX Extent.minY Extent.maxX Extent.maxY].
      replace (x1 + 2 - x1 + 1) with 3 by lia.
      replace (y1 + 2 - y1 + 1) with 3 by lia.
      destruct ((minWidth <=? 3) && (minHeight <=? 3)); reflexivity.
    + lia.
    + exact Hvis.
Qed.

(** *** The fuel always suffices *)

Lemma floodStep_measure (W : Z) (data : list Z) (curr : Z) (rest : list Z)
    (st : Flood.t) :
  Flood.stack st = curr :: rest ->
  length (Flood.visited (floodStep W data curr rest st)) =
  length (Flood.visited st) /\
  (countFalse (Flood.visited (floodStep W data curr rest st))
   + length (Flood.stack (floodStep W data curr rest st)) + 1 =
   countFalse (Flood.visited st) + length (Flood.stack st))%nat.
Proof.
  intros Hstack.
  destruct (fold_visitNeighbor data (neighbors W curr) (Flood.visited st) rest)
    as (vis' & new & Hfold & Hlen & _ & _ & _ & _ & Hcnt).
  unfold floodStep. rewrite Hfold, Hstack.
  cbn [Flood.visited Flood.stack]. split; [exact Hlen|].
  rewrite length_app. simpl. lia.
Qed.

Lemma flood_total (W : Z) (data : list Z) (fuel : nat) :
  forall st : Flood.t,
    (countFalse (Flood.visited st) + length (Flood.stack st) < fuel)%nat ->
    exists st',
      flood W data fuel st = Some st' /\
      length (Flood.visited st') = length (Flood.visited st).
Proof.
  induction fuel as [|fuel IH]; intros st Hfuel; [lia|].
  cbn [flood]. destruct (Flood.stack st) as [|curr rest] eqn:Hstack.
  - now exists st.
  - destruct (floodStep_measure W data curr rest st Hstack) as [Hlen Hm].
    destruct (IH (floodStep W data curr rest st)) as (st' & Hrun & Hlen').
    + rewrite Hstack in Hm. cbn [length] in Hm, Hfuel. lia.
    + exists st'. split; [exact Hrun|]. congruence.
Qed.

Lemma scanCell_total (im : ImageData.t) (minWidth minHeight x y : Z) (s : Scan.t) :
  Z.of_nat (length (Scan.visited s)) = ImageData.width im * ImageData.height im ->
  0 <= x < ImageData.width im -> 0 <= y < ImageData.height im ->
  exists s',
    scanCell im minWidth minHeight x y s = Some s' /\
    length (Scan.visited s') = length (Scan.visited s).
Proof.
  intros Hlen Hx Hy. unfold scanCell. cbv zeta.
  set (idx := y * ImageData.width im + x).
  destruct (visitedAt (Scan.visited s) idx) eqn:Hv; [now exists s|].
  destruct (isTransparent (ImageData.data im) idx); [now exists s|].
  cbn [orb].
  assert (Hidx : 0 <= idx < Z.of_nat (length (Scan.visited s)))
    by (unfold idx; nia).
  pose proof (countFalse_insert (Scan.visited s) (Z.to_nat idx)
                (visitedAt_false_lookup _ idx Hidx Hv)) as Hcnt.
  pose proof (countFalse_le (Scan.visited s)) as Hle.
  destruct (flood_total (ImageData.width im) (ImageData.data im)
              (S (length (<[Z.to_nat idx := true]> (Scan.visited s))))
              (Flood.mk [idx] (<[Z.to_nat idx := true]> (Scan.visited s))
                 (Extent.mk x y x y)))
    as (st' & Hrun & Hlen').
  { cbn [Flood.visited Flood.stack]. rewrite length_insert. simpl. lia. }
  rewrite Hrun. cbn [Flood.visited] in Hlen'. rewrite length_insert in Hlen'.
  destruct (_ && _); eexists; (split; [reflexivity|exact Hlen']).
Qed.

Lemma foldOpt_total {A S : Type} (f : A -> S -> option S) (I : S -> Prop)
    (l : list A) :
  (forall a s, In a l -> I s -> exists s', f a s = Some s' /\ I s') ->
  forall s, I s -> exists s', foldOpt f l (Some s) = Some s' /\ I s'.
Proof.
  induction l as [|a l IH]; intros Hstep s Hs.
  - now exists s.
  - rewrite foldOpt_cons.
    destruct (Hstep a s (or_introl eq_refl) Hs) as (s1 & -> & Hs1).
    apply IH; [|exact Hs1]. intros a' s' Ha'. apply Hstep. now right.
Qed.

(** The explicit stack never outlives its fuel: [detectIslands] always
    returns a list of rectangles. *)
Lemma detectIslands_total (im : ImageData.t) (minWidth minHeight : Z) :
  exists rects, detectIslands im minWidth minHeight = Some rects.
Proof.
  unfold detectIslands, scanCells.
  set (s0 := Scan.mk _ [] 0%nat).
  assert (Hcells : exists s',
            foldOpt (fun y s =>
                       foldOpt (fun x s => scanCell im minWidth minHeight x y s)
                         (range (ImageData.width im)) (Some s))
              (range (ImageData.height im)) (Some s0) = Some s').
  { destruct (Z.le_gt_cases (ImageData.height im) 0) as [HH|HH].
    { unfold range at 2. rewrite (Z2Nat.nonpos (ImageData.height im)) by lia.
      now exists s0. }
    destruct (Z.le_gt_cases (ImageData.width im) 0) as [HW|HW].
    { exists s0. apply foldOpt_skip. intros y _.
      unfold range. now rewrite (Z2Nat.nonpos (ImageData.width im)) by lia. }
    destruct (foldOpt_total
                (fun y s =>
                   foldOpt (fun x s => scanCell im minWidth minHeight x y s)
                     (range (ImageData.width im)) (Some s))
                (fun s => Z.of_nat (length (Scan.visited s)) =
                          ImageData.width im * ImageData.height im)
                (range (ImageData.height im))) with (s := s0)
      as (s' & Hs' & _).
    - intros y s Hy Hs. apply in_range in Hy.
      apply (foldOpt_total (fun x s => scanCell im minWidth minHeight x y s)
               (fun s => Z.of_nat (length (Scan.visited s)) =
                         ImageData.width im * ImageData.height im));
        [|exact Hs].
      intros x s1 Hx Hs1. apply in_range in Hx.
      destruct (scanCell_total im minWidth minHeight x y s1 Hs1 Hx Hy)
        as (s2 & Hs2 & Hlen2).
      exists s2. split; [exact Hs2|]. now rewrite Hlen2.
    - cbn [s0 Scan.visited]. rewrite length_replicate. nia.
    - now exists s'. }
  destruct Hcells as [s' ->]. now exists (Scan.rects s').
Qed.

(** *** Two squares *)

Section TwoSquares.
Variables (im : ImageData.t) (x1 y1 x2 y2 : Z).
Let W := ImageData.width im.
Let H := ImageData.height im.
Let data := ImageData.data im.

Hypothesis Hx1 : 0 <= x1.
Hypothesis Hx1W : x1 + 3 <= W.
Hypothesis Hy1 : 0 <= y1.
Hypothesis Hy1H : y1 + 3 <= H.
Hypothesis Hx2 : 0 <= x2.
Hypothesis Hx2W : x2 + 3 <= W.
Hypothesis Hy2 : 0 <= y2.
Hypothesis Hy2H : y2 + 3 <= H.
Hypothesis Hapart :
  x1 + 4 <= x2 \/ x2 + 4 <= x1 \/ y1 + 4 <= y2 \/ y2 + 4 <= y1.
Hypothesis Halpha :
  forall x y, 0 <= x < W -> 0 <= y < H ->
    alphaAt im x y =
    Some (if inSquareb x1 y1 x y || inSquareb x2 y2 x y then 255 else 0).

Lemma two_squares_opaque (p : Z) :
  0 <= p < W * H ->
  (isTransparent data p = false <->
   squareRegion W H x1 y1 p \/ squareRegion W H x2 y2 p).
Proof using All.
  intros Hp.
  destruct (index_of_coords W p) as (Hidx & Hx & Hy); [lia|lia|].
  assert (HyH : p / W < H) by nia.
  specialize (Halpha (Z.rem p W) (p / W) Hx (conj Hy HyH)).
  unfold alphaAt in Halpha. fold W in Halpha. rewrite Hidx in Halpha.
  unfold isTransparent. fold data in Halpha. rewrite Halpha.
  unfold squareRegion, inSquare, inSquareb.
  destruct (Z.leb_spec x1 (Z.rem p W)), (Z.ltb_spec (Z.rem p W) (x1 + 3)),
    (Z.leb_spec y1 (p / W)), (Z.ltb_spec (p / W) (y1 + 3)),
    (Z.leb_spec x2 (Z.rem p W)), (Z.ltb_spec (Z.rem p W) (x2 + 3)),
    (Z.leb_spec y2 (p / W)), (Z.ltb_spec (p / W) (y2 + 3));
    cbn; split; intros; try reflexivity; try discriminate; lia.
Qed.

Lemma two_squares_disjoint (p : Z) :
  squareRegion W H x1 y1 p -> squareRegion W H x2 y2 p -> False.
Proof using Hapart.
  unfold squareRegion, inSquare. lia.
Qed.

Lemma two_squares_closed_1 (p q : Z) :
  squareRegion W H x1 y1 p -> In q (neighbors W p) -> 0 <= q < W * H ->
  isTransparent data q = false -> squareRegion W H x1 y1 q.
Proof using All.
  intros Hp Hq Hr Ht. apply two_squares_opaque in Ht as [Hin|Hin]; [exact Hin| |lia].
  exfalso.
  destruct (neighbors_coords W p q) as [Hc|Hc]; try lia; [apply Hp|assumption|..];
    unfold squareRegion, inSquare in *; lia.
Qed.

Lemma two_squares_closed_2 (p q : Z) :
  squareRegion W H x2 y2 p -> In q (neighbors W p) -> 0 <= q < W * H ->
  isTransparent data q = false -> squareRegion W H x2 y2 q.
Proof using All.
  intros Hp Hq Hr Ht. apply two_squares_opaque in Ht as [Hin|Hin]; [|exact Hin|lia].
  exfalso.
  destruct (neighbors_coords W p q) as [Hc|Hc]; try lia; [apply Hp|assumption|..];
    unfold squareRegion, inSquare in *; lia.
Qed.

Hypothesis Horder : y1 * W + x1 < y2 * W + x2.

Lemma two_squares_scan (minWidth minHeight : Z) :
  detectIslands im minWidth minHeight =
  Some (if (minWidth <=? 3) && (minHeight <=? 3)
        then [Rect.mk "island-0" x1 y1 3 3; Rect.mk "island-1" x2 y2 3 3]
        else []).
Proof using All.
  unfold detectIslands. fold W H.
  set (N := W * H). set (t1 := y1 * W + x1). set (t2 := y2 * W + x2).
  set (s0 := Scan.mk (replicate (Z.to_nat N) false) [] 0%nat).
  assert (HW : 0 < W) by lia. assert (HH : 0 < H) by lia.
  assert (HN : 0 <= N) by (unfold N; nia).
  destruct (squareRegion_index W H x1 y1 Hx1 Hx1W Hy1 Hy1H 0 0)
    as (R1 & _); [lia|lia|].
  destruct (squareRegion_index W H x2 y2 Hx2 Hx2W Hy2 Hy2H 0 0)
    as (R2 & _); [lia|lia|].
  replace ((y1 + 0) * W + (x1 + 0)) with t1 in R1 by (unfold t1; lia).
  replace ((y2 + 0) * W + (x2 + 0)) with t2 in R2 by (unfold t2; lia).
  assert (Ht1 : 0 <= t1 < N) by apply R1.
  assert (Ht2 : t1 + 1 <= t2 < N) by (split; [unfold t1, t2; lia|apply R2]).
  rewrite scanCells_flat by (fold W H; lia). fold W H N.
  rewrite range_between, (between_split 0 t1 N) by lia.
  rewrite (between_split (t1 + 1) t2 N) by lia.
  (* before the first square: transparent pixels only *)
  rewrite foldOpt_app, foldOpt_skip.
  2:{ intros idx Hidx. apply in_between in Hidx.
      apply scanIndex_skip; [exact HW|lia|]. apply orb_true_iff. right.
      destruct (isTransparent (ImageData.data im) idx) eqn:E; [reflexivity|].
      exfalso. apply (two_squares_opaque idx) in E as [Hin|Hin]; [| |lia].
      - apply squareRegion_first in Hin; fold t1 in Hin; lia.
      - apply squareRegion_first in Hin; fold t2 in Hin; lia. }
  (* the first square *)
  rewrite foldOpt_cons.
  destruct (scanIndex_square im minWidth minHeight H x1 y1 s0)
    as (vis1 & Hscan1 & Hlen1 & Hvis1); try assumption.
  { cbn [s0 Scan.visited]. rewrite length_replicate. fold W. lia. }
  { intros p Hp. split.
    - apply two_squares_opaque; [apply Hp|now left].
    - apply visitedAt_replicate. }
  { apply two_squares_closed_1. }
  fold W t1 in Hscan1. rewrite Hscan1. clear Hscan1.
  cbn [s0 Scan.visited Scan.rects Scan.idCounter app] in *.
  set (s1 := if (minWidth <=? 3) && (minHeight <=? 3) then _ else _).
  assert (Hs1 : Scan.visited s1 = vis1)
    by (unfold s1; destruct (_ && _); reflexivity).
  assert (Hvis1' : forall p, 0 <= p ->
            (visitedAt vis1 p = true <-> squareRegion W H x1 y1 p)).
  { intros p Hp. rewrite (Hvis1 p Hp), visitedAt_replicate. fold W.
    split; [intros [|]; [discriminate|assumption]|now right]. }
  (* between the squares: transparent pixels and marked ones *)
  rewrite foldOpt_app, foldOpt_skip.
  2:{ intros idx Hidx. apply in_between in Hidx.
      apply scanIndex_skip; [exact HW|lia|]. apply orb_true_iff. rewrite Hs1.
      destruct (isTransparent (ImageData.data im) idx) eqn:E; [now right|].
      left. apply (two_squares_opaque idx) in E as [Hin|Hin]; [| |lia].
      - apply Hvis1'; [lia|exact Hin].
      - apply squareRegion_first in Hin; fold t2 in Hin; lia. }
  (* the second square *)
  rewrite foldOpt_cons.
  destruct (scanIndex_square im minWidth minHeight H x2 y2 s1)
    as (vis2 & Hscan2 & Hlen2 & Hvis2); try assumption.
  { rewrite Hs1. exact Hlen1. }
  { intros p Hp. split.
    - apply two_squares_opaque; [apply Hp|now right].
    - rewrite Hs1. destruct (visitedAt vis1 p) eqn:E; [|reflexivity].
      exfalso. apply Hvis1' in E; [|apply Hp].
      exact (two_squares_disjoint p E Hp). }
  { apply two_squares_closed_2. }
  fold W t2 in Hscan2. rewrite Hscan2. clear Hscan2.
  set (s2 := if (minWidth <=? 3) && (minHeight <=? 3) then _ else _).
  assert (Hs2 : Scan.visited s2 = vis2)
    by (unfold s2; destruct (_ && _); reflexivity).
  (* after the second square: transparent pixels and marked ones *)
  rewrite foldOpt_skip.
  2:{ intros idx Hidx. apply in_between in Hidx.
      apply scanIndex_skip; [exact HW|lia|]. apply orb_true_iff. rewrite Hs2.
      destruct (isTransparent (ImageData.data im) idx) eqn:E; [now right|].
      left. apply Hvis2; [lia|]. rewrite Hs1. fold W.
      apply (two_squares_opaque idx) in E as [Hin|Hin]; [| |lia].
      - left. apply Hvis1'; [lia|exact Hin].
      - now right. }
  unfold s2, s1. destruct ((minWidth <=? 3) && (minHeight <=? 3)); reflexivity.
Qed.
End TwoSquares.

(** C4. A buffer whose opaque pixels are exactly two 3 x 3 squares of alpha
    255, kept apart by at least one transparent pixel on every side:
    [detectIslands] with [minWidth = minHeight = 1] returns exactly two
    rectangles, each of width 3 and height 3, lying on the two squares (the
    square whose top-left corner the row-major scan meets first is
    [island-0]); with [minWidth = 4] it returns the empty list. *)
Theorem detectIslands_two_squares (im : ImageData.t) (x1 y1 x2 y2 : Z) :
  0 <= x1 -> x1 + 3 <= ImageData.width im ->
  0 <= y1 -> y1 + 3 <= ImageData.height im ->
  0 <= x2 -> x2 + 3 <= ImageData.width im ->
  0 <= y2 -> y2 + 3 <= ImageData.height im ->
  x1 + 4 <= x2 \/ x2 + 4 <= x1 \/ y1 + 4 <= y2 \/ y2 + 4 <= y1 ->
  (forall x y, 0 <= x < ImageData.width im -> 0 <= y < ImageData.height im ->
     alphaAt im x y =
     Some (if inSquareb x1 y1 x y || inSquareb x2 y2 x y then 255 else 0)) ->
  detectIslands im 1 1 =
    Some (if y1 * ImageData.width im + x1 <? y2 * ImageData.width im + x2
          then [Rect.mk "island-0" x1 y1 3 3; Rect.mk "island-1" x2 y2 3 3]
          else [Rect.mk "island-0" x2 y2 3 3; Rect.mk "island-1" x1 y1 3 3]) /\
  (forall minHeight, detectIslands im 4 minHeight = Some []).
Proof.
  intros Hx1 Hx1W Hy1 Hy1H Hx2 Hx2W Hy2 Hy2H Hapart Halpha.
  destruct (Z.ltb_spec (y1 * ImageData.width im + x1)
              (y2 * ImageData.width im + x2)) as [Hlt|Hge].
  - split; [|intros minHeight];
      now rewrite (two_squares_scan im x1 y1 x2 y2).
  - assert (Hlt : y2 * ImageData.width im + x2 < y1 * ImageData.width im + x1).
    { destruct (Z.lt_total y1 y2) as [Hy | [-> | Hy]].
      - assert (ImageData.width im <= (y2 - y1) * ImageData.width im) by nia. lia.
      - lia.
      - assert (ImageData.width im <= (y1 - y2) * ImageData.width im) by nia. lia. }
    assert (Halpha' : forall x y,
              0 <= x < ImageData.width im -> 0 <= y < ImageData.height im ->
              alphaAt im x y =
              Some (if inSquareb x2 y2 x y || inSquareb x1 y1 x y
                    then 255 else 0)).
    { intros x y Hx Hy. rewrite orb_comm. now apply Halpha. }
    split; [|intros minHeight];
      rewrite (two_squares_scan im x2 y2 x1 y1);
      try assumption; try reflexivity; lia.
Qed.

Lemma detectIslands_two_squares_witness :
  detectIslands twoSquaresExample 1 1 =
    Some (if 0 * ImageData.width twoSquaresExample + 0
             <? 0 * ImageData.width twoSquaresExample + 4
          then [Rect.mk "island-0" 0 0 3 3; Rect.mk "island-1" 4 0 3 3]
          else [Rect.mk "island-0" 4 0 3 3; Rect.mk "island-1" 0 0 3 3]) /\
  (forall minHeight, detectIslands twoSquaresExample 4 minHeight = Some []).
Proof.
  apply (detectIslands_two_squares twoSquaresExample 0 0 4 0);
    try (cbn; lia).
  intros x y Hx Hy. cbn in Hx, Hy.
  assert (Hxs : x = 0 \/ x = 1 \/ x = 2 \/ x = 3 \/ x = 4 \/ x = 5 \/ x = 6) by lia.
  assert (Hys : y = 0 \/ y = 1 \/ y = 2) by lia.
  destruct Hxs as [-> | [-> | [-> | [-> | [-> | [-> | ->]]]]]];
    destruct Hys as [-> | [-> | ->]]; reflexivity.
Defined.

(** ** The buffer as mutable state *)

Lemma forEach_readonly {A S : Type} (f : list Z -> S -> A -> S)
    (body : S -> A -> Buf S) (l : list A) :
  (forall s a d, body s a d = (f d s a, d)) ->
  forall s d, forEach l body s d = (fold_left (f d) l s, d).
Proof.
  intros Hbody. induction l as [|a l IH]; intros s d; [reflexivity|].
  cbn [forEach fold_left]. unfold bind. rewrite Hbody. apply IH.
Qed.

Lemma forEach_writes {A : Type} (g : list Z -> A -> list Z)
    (body : A -> Buf unit) (l : list A) :
  (forall a d, body a d = (tt, g d a)) ->
  forall d, forEach l (fun _ a => body a) tt d = (tt, fold_left g l d).
Proof.
  intros Hbody. induction l as [|a l IH]; intros d; [reflexivity|].
  cbn [forEach fold_left]. unfold bind. rewrite Hbody. apply IH.
Qed.

Lemma keyPixel_run target (tol featherPx : Z) (i : nat) (d : list Z) :
  InPlace.keyPixel target tol featherPx i d = (tt, keyPixel target tol featherPx d i).
Proof.
  unfold InPlace.keyPixel, keyPixel, bind, readAt, writeAt, ret.
  destruct (d !! i) as [r|]; [|reflexivity].
  destruct (d !! (i + 1)%nat) as [g|]; [|reflexivity].
  destruct (d !! (i + 2)%nat) as [b|]; [|reflexivity].
  cbv zeta. destruct (_ <=? _); [reflexivity|].
  destruct (_ && _); [|reflexivity].
  destruct (d !! (i + 3)%nat); reflexivity.
Qed.

Lemma applyColorKeyToImageData_run target (tolerance feather : Z) (d : list Z) :
  InPlace.applyColorKeyToImageData target tolerance feather d =
  (tt, keyData target tolerance feather d).
Proof.
  unfold InPlace.applyColorKeyToImageData, keyData, bind, dataLength. cbv zeta.
  apply (forEach_writes (keyPixel target (Z.max 0 tolerance) (Z.max 0 feather))).
  intros i d'. apply keyPixel_run.
Qed.

Lemma getTrimmedBounds_run (width height : Z) (d : list Z) :
  InPlace.getTrimmedBounds width height d =
  (getTrimmedBounds (ImageData.mk width height d), d).
Proof.
  unfold InPlace.getTrimmedBounds, getTrimmedBounds, scanExtent, bind.
  rewrite (forEach_readonly
             (fun d e y => scanRow (ImageData.mk width height d) e y)).
  - reflexivity.
  - intros e y d'. unfold scanRow. cbn [ImageData.width].
    apply (forEach_readonly
             (fun d e x => scanPixel (ImageData.mk width height d) y e x)).
    reflexivity.
Qed.

Lemma visitNeighbor_run (acc : list bool * list Z) (n : Z) (d : list Z) :
  InPlace.visitNeighbor acc n d = (visitNeighbor d acc n, d).
Proof.
  destruct acc as [visited stack].
  unfold InPlace.visitNeighbor, visitNeighbor, InPlace.isTransparent,
    isTransparent, bind, readAt, ret.
  destruct ((0 <=? n) && (n <? Z.of_nat (length visited))
            && negb (visitedAt visited n)); [|reflexivity].
  cbn [andb]. destruct (d !! Z.to_nat (n * 4 + 3)) as [a|]; [|reflexivity].
  destruct (a =? 0); reflexivity.
Qed.

Lemma floodStep_run (width curr : Z) (rest : list Z) (st : Flood.t) (d : list Z) :
  InPlace.floodStep width curr rest st d = (floodStep width d curr rest st, d).
Proof.
  unfold InPlace.floodStep, floodStep, bind. cbv zeta.
  rewrite (forEach_readonly visitNeighbor) by (intros; apply visitNeighbor_run).
  destruct (fold_left _ _ _) as [visited' stack']. reflexivity.
Qed.

Lemma flood_run_state (width : Z) (fuel : nat) :
  forall (st : Flood.t) (d : list Z),
    InPlace.flood width fuel st d = (flood width d fuel st, d).
Proof.
  induction fuel as [|fuel IH]; intros st d; [reflexivity|].
  cbn [InPlace.flood flood]. destruct (Flood.stack st) as [|curr rest];
    [reflexivity|].
  unfold bind. rewrite floodStep_run. apply IH.
Qed.

Lemma scanCell_run (width height minWidth minHeight y : Z)
    (s : option Scan.t) (x : Z) (d : list Z) :
  InPlace.scanCell width minWidth minHeight y s x d =
  (match s with
   | Some s => scanCell (ImageData.mk width height d) minWidth minHeight x y s
   | None => None
   end, d).
Proof.
  destruct s as [s|]; [|reflexivity].
  unfold InPlace.scanCell, scanCell. cbv zeta.
  cbn [ImageData.width ImageData.data].
  destruct (visitedAt (Scan.visited s) (y * width + x)); [reflexivity|].
  cbn [orb]. unfold bind at 1. unfold InPlace.isTransparent, isTransparent,
    bind at 1, readAt, ret at 1.
  destruct (match d !! Z.to_nat ((y * width + x) * 4 + 3) with
            | Some a => a =? 0
            | None => false
            end); [reflexivity|].
  unfold bind. rewrite flood_run_state. reflexivity.
Qed.

Lemma detectIslands_run (width height minWidth minHeight : Z) (d : list Z) :
  InPlace.detectIslands width height minWidth minHeight d =
  (detectIslands (ImageData.mk width height d) minWidth minHeight, d).
Proof.
  unfold InPlace.detectIslands, detectIslands, scanCells, bind. cbv zeta.
  cbn [ImageData.width ImageData.height].
  set (im := fun d => ImageData.mk width height d).
  set (cell := fun d y (acc : option Scan.t) x =>
                 match acc with
                 | Some s => scanCell (im d) minWidth minHeight x y s
                 | None => None
                 end).
  rewrite (forEach_readonly
             (fun d acc y => fold_left (cell d y) (range width) acc)).
  - unfold ret. f_equal.
    assert (Hfold : forall l acc,
              fold_left (fun acc y => fold_left (cell d y) (range width) acc) l acc =
              foldOpt (fun y s =>
                         foldOpt (fun x s => scanCell (im d) minWidth minHeight x y s)
                           (range width) (Some s)) l acc).
    { induction l as [|y l IH]; intros acc; [reflexivity|].
      cbn [fold_left]. rewrite IH. unfold foldOpt at 1 3. cbn [fold_left].
      f_equal. destruct acc as [s|]; [reflexivity|].
      apply (foldOpt_None (fun x s => scanCell (im d) minWidth minHeight x y s)). }
    now rewrite Hfold.
  - intros acc y d'.
    apply (forEach_readonly (fun d acc x => cell d y acc x)).
    intros acc' x d''. apply scanCell_run.
Qed.

(** C7. Colour keying writes the alpha channel only: it keeps the length
    of the buffer and every R, G and B byte; and the two scanning
    functions, [getTrimmedBounds] and [detectIslands], return the buffer as
    they found it. *)
Theorem buffer_effects :
  (forall (target : ColorRGB.t) (tolerance feather : Z) (data : list Z),
      let data' :=
        snd (InPlace.applyColorKeyToImageData target tolerance feather data) in
      length data' = length data /\
      forall j : nat, (j mod 4 <> 3)%nat -> data' !! j = data !! j) /\
  (forall (width height : Z) (data : list Z),
      snd (InPlace.getTrimmedBounds width height data) = data) /\
  (forall (width height minWidth minHeight : Z) (data : list Z),
      snd (InPlace.detectIslands width height minWidth minHeight data) = data).
Proof.
  split; [|split].
  - intros target tolerance feather data.
    rewrite applyColorKeyToImageData_run, keyData_mapAlpha. cbn [snd].
    split; [apply mapAlpha_length|]. intros j Hj. now apply mapAlpha_lookup_rgb.
  - intros. now rewrite getTrimmedBounds_run.
  - intros. now rewrite detectIslands_run.
Qed.

Lemma buffer_effects_witness :
  snd (InPlace.applyColorKeyToImageData (ColorRGB.mk 0 0 0) 10 10
         [15; 0; 0; 200]) !! 2%nat = [15; 0; 0; 200] !! 2%nat /\
  snd (InPlace.getTrimmedBounds 1 1 [15; 0; 0; 200]) = [15; 0; 0; 200] /\
  snd (InPlace.detectIslands 1 1 1 1 [15; 0; 0; 200]) = [15; 0; 0; 200].
Proof.
  split; [|split].
  - apply (proj1 buffer_effects (ColorRGB.mk 0 0 0) 10 10 [15; 0; 0; 200]).
    cbn. lia.
  - apply (proj1 (proj2 buffer_effects)).
  - apply (proj2 (proj2 buffer_effects)).
Defined.

(** ** Bounds scanner: the box *)

Lemma boxOf_scanPixel (im : ImageData.t) (cells : list (Z * Z)) (e : Extent.t)
    (x y : Z) :
  0 <= x < ImageData.width im -> 0 <= y < ImageData.height im ->
  boxOf im cells e -> boxOf im (cells ++ [(x, y)]) (scanPixel im y e x).
Proof.
  intros Hx Hy [Hcov Hatt]. unfold scanPixel.
  destruct (alphaAt im x y) as [alpha|] eqn:Ha;
    [destruct (Z.ltb_spec 0 alpha) as [Hpos|Hneg]|].
  - assert (Hv : visible im x y) by (exists alpha; auto).
    assert (Hin : In (x, y) (cells ++ [(x, y)])) by (apply in_or_app; right; left; reflexivity).
    split.
    + intros x' y' Hin' Hv'. apply in_app_or in Hin' as [Hin'|[[= <- <-]|[]]].
      * specialize (Hcov x' y' Hin' Hv'). unfold stretch. cbn.
        destruct (Z.ltb_spec x (Extent.minX e)), (Z.ltb_spec y (Extent.minY e)),
          (Z.ltb_spec (Extent.maxX e) x), (Z.ltb_spec (Extent.maxY e) y); lia.
      * unfold stretch. cbn.
        destruct (Z.ltb_spec x (Extent.minX e)), (Z.ltb_spec y (Extent.minY e)),
          (Z.ltb_spec (Extent.maxX e) x), (Z.ltb_spec (Extent.maxY e) y); lia.
    + right. unfold stretch. cbn.
      destruct Hatt as [(H1 & H2 & H3 & H4)|(A1 & A2 & A3 & A4)].
      * rewrite H1, H2, H3, H4.
        destruct (Z.ltb_spec x (ImageData.width im)); [|lia].
        destruct (Z.ltb_spec y (ImageData.height im)); [|lia].
        destruct (Z.ltb_spec (-1) x); [|lia].
        destruct (Z.ltb_spec (-1) y); [|lia].
        repeat split; eauto.
      * repeat split.
        -- destruct (Z.ltb_spec x (Extent.minX e)); [eauto|].
           destruct A1 as (y0 & Hi & Hv0). exists y0. split; [apply in_or_app; auto|auto].
        -- destruct (Z.ltb_spec (Extent.maxX e) x); [eauto|].
           destruct A2 as (y0 & Hi & Hv0). exists y0. split; [apply in_or_app; auto|auto].
        -- destruct (Z.ltb_spec y (Extent.minY e)); [eauto|].
           destruct A3 as (x0 & Hi & Hv0). exists x0. split; [apply in_or_app; auto|auto].
        -- destruct (Z.ltb_spec (Extent.maxY e) y); [eauto|].
           destruct A4 as (x0 & Hi & Hv0). exists x0. split; [apply in_or_app; auto|auto].
  - split.
    + intros x' y' Hin' Hv'. apply in_app_or in Hin' as [Hin'|[[= <- <-]|[]]]; [auto|].
      destruct Hv' as (a & Ha' & Hpos). rewrite Ha in Ha'. injection Ha' as <-. lia.
    + destruct Hatt as [Hinit|(A1 & A2 & A3 & A4)]; [left; exact Hinit|right].
      repeat split.
      * destruct A1 as (y0 & Hi & Hv0). exists y0. split; [apply in_or_app; auto|auto].
      * destruct A2 as (y0 & Hi & Hv0). exists y0. split; [apply in_or_app; auto|auto].
      * destruct A3 as (x0 & Hi & Hv0). exists x0. split; [apply in_or_app; auto|auto].
      * destruct A4 as (x0 & Hi & Hv0). exists x0. split; [apply in_or_app; auto|auto].
  - split.
    + intros x' y' Hin' Hv'. apply in_app_or in Hin' as [Hin'|[[= <- <-]|[]]]; [auto|].
      destruct Hv' as (a & Ha' & Hpos). rewrite Ha in Ha'. discriminate.
    + destruct Hatt as [Hinit|(A1 & A2 & A3 & A4)]; [left; exact Hinit|right].
      repeat split.
      * destruct A1 as (y0 & Hi & Hv0). exists y0. split; [apply in_or_app; auto|auto].
      * destruct A2 as (y0 & Hi & Hv0). exists y0. split; [apply in_or_app; auto|auto].
      * destruct A3 as (x0 & Hi & Hv0). exists x0. split; [apply in_or_app; auto|auto].
      * destruct A4 as (x0 & Hi & Hv0). exists x0. split; [apply in_or_app; auto|auto].
Qed.

Lemma boxOf_scanRow (im : ImageData.t) (y : Z) (xs : list Z) :
  0 <= y < ImageData.height im ->
  (forall x, In x xs -> 0 <= x < ImageData.width im) ->
  forall cells e, boxOf im cells e ->
    boxOf im (cells ++ map (fun x => (x, y)) xs) (fold_left (scanPixel im y) xs e).
Proof.
  intros Hy. induction xs as [|x xs IH]; intros Hxs cells e Hbox.
  - simpl. rewrite app_nil_r. exact Hbox.
  - simpl.
    replace (cells ++ (x, y) :: map (fun x0 => (x0, y)) xs)
      with ((cells ++ [(x, y)]) ++ map (fun x0 => (x0, y)) xs)
      by (rewrite <- app_assoc; reflexivity).
    apply IH; [intros x' Hx'; apply Hxs; right; exact Hx'|].
    apply boxOf_scanPixel; [apply Hxs; left; reflexivity|exact Hy|exact Hbox].
Qed.

Lemma boxOf_scanRows (im : ImageData.t) (ys : list Z) :
  (forall y, In y ys -> 0 <= y < ImageData.height im) ->
  forall cells e, boxOf im cells e ->
    boxOf im
      (cells ++ flat_map (fun y => map (fun x => (x, y)) (range (ImageData.width im))) ys)
      (fold_left (scanRow im) ys e).
Proof.
  induction ys as [|y ys IH]; intros Hys cells e Hbox.
  - simpl. rewrite app_nil_r. exact Hbox.
  - simpl. rewrite app_assoc.
    apply IH; [intros y' Hy'; apply Hys; right; exact Hy'|].
    apply boxOf_scanRow; [apply Hys; left; reflexivity| |exact Hbox].
    intros x Hx. apply in_range, Hx.
Qed.

Lemma boxOf_scanExtent (im : ImageData.t) :
  boxOf im
    (flat_map (fun y => map (fun x => (x, y)) (range (ImageData.width im)))
       (range (ImageData.height im)))
    (scanExtent im).
Proof.
  unfold scanExtent.
  apply (boxOf_scanRows im (range (ImageData.height im))
           (fun y Hy => proj1 (in_range y _) Hy) []).
  split; [intros x y []|]. left. cbn. auto.
Qed.

Lemma in_cells (W H x y : Z) :
  In (x, y) (flat_map (fun y => map (fun x => (x, y)) (range W)) (range H))
  <-> 0 <= x < W /\ 0 <= y < H.
Proof.
  rewrite in_flat_map. split.
  - intros (y' & Hy' & Hin). apply in_map_iff in Hin as (x' & [= <- <-] & Hx').
    apply in_range in Hy', Hx'. auto.
  - intros [Hx Hy]. exists y. split; [apply in_range, Hy|].
    apply in_map_iff. exists x. split; [reflexivity|apply in_range, Hx].
Qed.

Lemma getTrimmedBounds_box (im : ImageData.t) (b : Bounds.t) :
  getTrimmedBounds im = Some b ->
  (0 <= Bounds.x b /\ 1 <= Bounds.w b /\
   Bounds.x b + Bounds.w b <= ImageData.width im /\
   0 <= Bounds.y b /\ 1 <= Bounds.h b /\
   Bounds.y b + Bounds.h b <= ImageData.height im) /\
  (forall x y, 0 <= x < ImageData.width im -> 0 <= y < ImageData.height im ->
     visible im x y ->
     Bounds.x b <= x < Bounds.x b + Bounds.w b /\
     Bounds.y b <= y < Bounds.y b + Bounds.h b).
Proof.
  unfold getTrimmedBounds. intros Hb.
  destruct (boxOf_scanExtent im) as [Hcov Hatt].
  set (e := scanExtent im) in *.
  destruct (Z.eqb_spec (Extent.maxX e) (-1)) as [|Hne]; [discriminate|].
  injection Hb as <-. cbn [Bounds.x Bounds.y Bounds.w Bounds.h].
  destruct Hatt as [(_ & _ & H3 & _)|(A1 & A2 & A3 & A4)]; [contradiction|].
  destruct A1 as (ya & Hia & Hva), A2 as (yb & Hib & _),
    A3 as (xa & Hic & Hvc), A4 as (xb & Hid & _).
  pose proof (Hcov _ _ Hia Hva). pose proof (Hcov _ _ Hic Hvc).
  apply in_cells in Hia, Hib, Hic, Hid.
  split; [lia|].
  intros x y Hx Hy Hv.
  pose proof (Hcov x y (proj2 (in_cells _ _ _ _) (conj Hx Hy)) Hv). lia.
Qed.

(** X1. When [getTrimmedBounds] returns a box, the box is the tight
    bounding box of the visible pixels (alpha > 0) of the buffer: it is at
    least 1 x 1 and lies in the buffer, it contains every visible pixel,
    and its first and last column and row each hold a visible pixel. *)
Theorem getTrimmedBounds_tight_box (im : ImageData.t) (b : Bounds.t) :
  getTrimmedBounds im = Some b ->
  (0 <= Bounds.x b /\ 1 <= Bounds.w b /\
   Bounds.x b + Bounds.w b <= ImageData.width im /\
   0 <= Bounds.y b /\ 1 <= Bounds.h b /\
   Bounds.y b + Bounds.h b <= ImageData.height im) /\
  (forall x y, 0 <= x < ImageData.width im -> 0 <= y < ImageData.height im ->
     visible im x y ->
     Bounds.x b <= x < Bounds.x b + Bounds.w b /\
     Bounds.y b <= y < Bounds.y b + Bounds.h b) /\
  (exists y, 0 <= y < ImageData.height im /\ visible im (Bounds.x b) y) /\
  (exists y, 0 <= y < ImageData.height im /\
             visible im (Bounds.x b + Bounds.w b - 1) y) /\
  (exists x, 0 <= x < ImageData.width im /\ visible im x (Bounds.y b)) /\
  (exists x, 0 <= x < ImageData.width im /\
             visible im x (Bounds.y b + Bounds.h b - 1)).
Proof.
  unfold getTrimmedBounds. intros Hb.
  destruct (boxOf_scanExtent im) as [Hcov Hatt].
  set (e := scanExtent im) in *.
  destruct (Z.eqb_spec (Extent.maxX e) (-1)) as [|Hne]; [discriminate|].
  injection Hb as <-. cbn [Bounds.x Bounds.y Bounds.w Bounds.h].
  destruct Hatt as [(_ & _ & H3 & _)|(A1 & A2 & A3 & A4)]; [contradiction|].
  destruct A1 as (ya & Hia & Hva), A2 as (yb & Hib & Hvb),
    A3 as (xa & Hic & Hvc), A4 as (xb & Hid & Hvd).
  apply in_cells in Hia, Hib, Hic, Hid.
  pose proof (Hcov _ _ (proj2 (in_cells _ _ _ _) Hia) Hva).
  pose proof (Hcov _ _ (proj2 (in_cells _ _ _ _) Hic) Hvc).
  split; [lia|]. split.
  - intros x y Hx Hy Hv.
    pose proof (Hcov x y (proj2 (in_cells _ _ _ _) (conj Hx Hy)) Hv). lia.
  - replace (Extent.minX e + (Extent.maxX e - Extent.minX e + 1) - 1)
      with (Extent.maxX e) by lia.
    replace (Extent.minY e + (Extent.maxY e - Extent.minY e + 1) - 1)
      with (Extent.maxY e) by lia.
    repeat split; eauto; [exists ya|exists yb|exists xa|exists xb]; (split; [lia|assumption]).
Qed.

Lemma getTrimmedBounds_tight_box_witness :
  let im := ImageData.mk 2 2 [0; 0; 0; 0; 7; 7; 7; 9; 0; 0; 0; 0; 0; 0; 0; 0] in
  getTrimmedBounds im = Some (Bounds.mk 1 0 1 1) /\
  (forall x y, 0 <= x < 2 -> 0 <= y < 2 -> visible im x y ->
     1 <= x < 1 + 1 /\ 0 <= y < 0 + 1).
Proof.
  cbv zeta. split; [reflexivity|].
  exact (proj1 (proj2 (getTrimmedBounds_tight_box
           (ImageData.mk 2 2 [0; 0; 0; 0; 7; 7; 7; 9; 0; 0; 0; 0; 0; 0; 0; 0])
           (Bounds.mk 1 0 1 1) eq_refl))).
Defined.

(** ** Frame extractor: trimming *)

Lemma lookup_flat_map_block {A B : Type} (f : A -> list B) (n : nat) (l : list A) :
  (forall a, length (f a) = n) ->
  forall k r, (r < n)%nat ->
    flat_map f l !! (k * n + r)%nat =
    match l !! k with Some a => f a !! r | None => None end.
Proof.
  intros Hlen. induction l as [|a l IH]; intros k r Hr.
  - destruct k; reflexivity.
  - cbn [flat_map]. destruct k as [|k].
    + cbn [lookup list_lookup Nat.mul Nat.add]. apply lookup_app_l. rewrite Hlen. exact Hr.
    + rewrite lookup_app_r by (rewrite Hlen; lia).
      rewrite Hlen. replace (S k * n + r - n)%nat with (k * n + r)%nat by lia.
      cbn [lookup list_lookup]. apply IH, Hr.
Qed.

Lemma length_flat_map_block {A B : Type} (f : A -> list B) (n : nat) (l : list A) :
  (forall a, length (f a) = n) -> length (flat_map f l) = (length l * n)%nat.
Proof.
  intros Hlen. induction l as [|a l IH]; [reflexivity|].
  cbn [flat_map]. rewrite length_app, Hlen, IH. reflexivity.
Qed.

Lemma lookup_range (n : Z) (k : nat) :
  (k < Z.to_nat n)%nat -> range n !! k = Some (Z.of_nat k).
Proof.
  intros Hk. unfold range.
  change (map Z.of_nat (seq 0 (Z.to_nat n))) with (Z.of_nat <$> seq 0 (Z.to_nat n)).
  rewrite list_lookup_fmap, lookup_seq_lt by exact Hk. reflexivity.
Qed.

Lemma length_range (n : Z) : length (range n) = Z.to_nat n.
Proof. unfold range. rewrite length_map, length_seq. reflexivity. Qed.

Lemma length_pixelAt (img : ImageData.t) (x y : Z) : length (pixelAt img x y) = 4%nat.
Proof. unfold pixelAt. destruct (_ && _); reflexivity. Qed.

Lemma length_region (img : ImageData.t) (x y w h : Z) :
  length (ImageData.data (region img x y w h)) = (Z.to_nat h * (Z.to_nat w * 4))%nat.
Proof.
  unfold region. cbn [ImageData.data].
  rewrite (length_flat_map_block _ (Z.to_nat w * 4)), length_range; [reflexivity|].
  intros dy. rewrite (length_flat_map_block _ 4), length_range; [reflexivity|].
  intros dx. apply length_pixelAt.
Qed.

Lemma region_lookup (img : ImageData.t) (x y w h dx dy : Z) (c : nat) :
  0 <= dx < w -> 0 <= dy < h -> (c < 4)%nat ->
  ImageData.data (region img x y w h) !! (Z.to_nat ((dy * w + dx) * 4) + c)%nat =
  pixelAt img (x + dx) (y + dy) !! c.
Proof.
  intros Hdx Hdy Hc. unfold region. cbn [ImageData.data].
  replace (Z.to_nat ((dy * w + dx) * 4) + c)%nat
    with (Z.to_nat dy * (Z.to_nat w * 4) + (Z.to_nat dx * 4 + c))%nat by nia.
  rewrite (lookup_flat_map_block _ (Z.to_nat w * 4)).
  - rewrite lookup_range by lia.
    rewrite (lookup_flat_map_block _ 4); [|intros a; apply length_pixelAt|exact Hc].
    rewrite lookup_range by lia. rewrite !Z2Nat.id by lia. reflexivity.
  - intros a. rewrite (length_flat_map_block _ 4), length_range; [reflexivity|].
    intros dx'. apply length_pixelAt.
  - nia.
Qed.

Lemma pixelAt_lookups (img : ImageData.t) (x y : Z) :
  pixelAt img x y =
  [ default 0 (pixelAt img x y !! 0%nat); default 0 (pixelAt img x y !! 1%nat);
    default 0 (pixelAt img x y !! 2%nat); default 0 (pixelAt img x y !! 3%nat) ].
Proof. unfold pixelAt. destruct (_ && _); reflexivity. Qed.

(** The canvas of [extractFrame] shows the pixels of the source under the
    rectangle, and transparent black where the rectangle leaves the image. *)
Lemma region_pixel (img : ImageData.t) (x y w h dx dy : Z) :
  0 <= dx < w -> 0 <= dy < h ->
  pixelAt (region img x y w h) dx dy = pixelAt img (x + dx) (y + dy).
Proof.
  intros Hdx Hdy.
  rewrite (pixelAt_lookups img (x + dx) (y + dy)).
  unfold pixelAt at 1. cbn [ImageData.width ImageData.height region].
  destruct (Z.leb_spec 0 dx); [|lia]. destruct (Z.ltb_spec dx w); [|lia].
  destruct (Z.leb_spec 0 dy); [|lia]. destruct (Z.ltb_spec dy h); [|lia].
  cbn [andb].
  change (ImageData.mk w h ?d) with (region img x y w h).
  rewrite <- (region_lookup img x y w h dx dy 0), <- (region_lookup img x y w h dx dy 1),
    <- (region_lookup img x y w h dx dy 2), <- (region_lookup img x y w h dx dy 3)
    by (assumption || lia).
  rewrite Nat.add_0_r. reflexivity.
Qed.

Lemma keyedSlice_size (src : ImageData.t) (rect : Rect.t) (settings : AppSettings.t) :
  ImageData.width (keyedSlice src rect settings) = Rect.w rect /\
  ImageData.height (keyedSlice src rect settings) = Rect.h rect.
Proof.
  unfold keyedSlice. cbv zeta.
  destruct (Processing.colorKeyEnabled _); [|split; reflexivity].
  destruct (keyColors settings) as [|c cs]; [split; reflexivity|].
  rewrite applyColorKeys_mapAlpha. split; reflexivity.
Qed.

(** X2. With [autoTrim] on, a frame returned by [extractFrame] has the
    rectangle's size as [originalSize]; its trim box ([trimOffset],
    [trimmedSize]) is at least 1 x 1 and lies inside the rectangle; the
    blob encodes the keyed slice cropped to that box; and every visible
    pixel of the keyed slice lies in the box and appears in the crop,
    moved by the offset. *)
Theorem extractFrame_trimmed_geometry
    (Blob : Type) (dom : Dom Blob) (sourceImage : ImageData.t)
    (rect : Rect.t) (settings : AppSettings.t) (frame : FrameData Blob) :
  Processing.autoTrim (AppSettings.processing settings) = true ->
  extractFrame dom sourceImage rect settings = Some frame ->
  let keyed := keyedSlice sourceImage rect settings in
  let ox := Point.x (trimOffset frame) in
  let oy := Point.y (trimOffset frame) in
  let tw := Size.w (trimmedSize frame) in
  let th := Size.h (trimmedSize frame) in
  originalSize frame = Size.mk (Rect.w rect) (Rect.h rect) /\
  (0 <= ox /\ 1 <= tw /\ ox + tw <= Rect.w rect) /\
  (0 <= oy /\ 1 <= th /\ oy + th <= Rect.h rect) /\
  toBlob dom (region keyed ox oy tw th) = Some (blob frame) /\
  (forall x y, 0 <= x < Rect.w rect -> 0 <= y < Rect.h rect ->
     visible keyed x y ->
     (0 <= x - ox < tw /\ 0 <= y - oy < th) /\
     pixelAt (region keyed ox oy tw th) (x - ox) (y - oy) = pixelAt keyed x y).
Proof.
  intros Htrim. unfold extractFrame. rewrite Htrim.
  destruct (context2d dom); [|discriminate]. cbn [negb].
  destruct (getTrimmedBounds _) as [bounds|] eqn:Hb; [|discriminate].
  destruct (trimmedContext2d dom); [|discriminate]. cbn [negb].
  destruct (toBlob dom _) as [bl|] eqn:Hblob; [|discriminate].
  intros [= <-]. cbv zeta.
  cbn [originalSize trimOffset trimmedSize blob Point.x Point.y Size.w Size.h].
  apply getTrimmedBounds_box in Hb as (Hbox & Hcov).
  destruct (keyedSlice_size sourceImage rect settings) as [Hw Hh].
  rewrite Hw, Hh in Hbox, Hcov.
  split; [reflexivity|]. split; [lia|]. split; [lia|]. split; [exact Hblob|].
  intros x y Hx Hy Hv. specialize (Hcov x y Hx Hy Hv).
  split; [lia|].
  rewrite region_pixel by lia. f_equal; lia.
Qed.

Lemma extractFrame_trimmed_geometry_witness :
  let dom := mkDom true true (fun _ : ImageData.t => Some tt)
               (fun _ => "blob:1"%string) in
  let img := ImageData.mk 2 1 [0; 0; 0; 0; 255; 0; 0; 255] in
  let rect := Rect.mk "grid-0" 0 0 2 1 in
  let settings :=
    AppSettings.mk ModeGrid (Grid.mk 2 1 0 0 0 0) (Islands.mk 2 2)
      (Processing.mk true false [] 10 0) in
  let frame :=
    mkFrame "grid-0"%string tt "blob:1"%string rect (Point.mk 1 0)
      (Size.mk 1 1) (Size.mk 2 1) in
  extractFrame dom img rect settings = Some frame /\
  originalSize frame = Size.mk 2 1 /\
  (0 <= 1 /\ 1 <= 1 /\ 1 + 1 <= 2).
Proof.
  cbv zeta. split; [reflexivity|].
  pose proof (extractFrame_trimmed_geometry unit
                (mkDom true true (fun _ : ImageData.t => Some tt)
                   (fun _ => "blob:1"%string))
                (ImageData.mk 2 1 [0; 0; 0; 0; 255; 0; 0; 255])
                (Rect.mk "grid-0" 0 0 2 1)
                (AppSettings.mk ModeGrid (Grid.mk 2 1 0 0 0 0) (Islands.mk 2 2)
                   (Processing.mk true false [] 10 0))
                (mkFrame "grid-0"%string tt "blob:1"%string
                   (Rect.mk "grid-0" 0 0 2 1) (Point.mk 1 0)
                   (Size.mk 1 1) (Size.mk 2 1))
                eq_refl eq_refl) as H.
  exact (conj (proj1 H) (proj1 (proj2 H))).
Defined.

(** ** Island detector: any image *)

Lemma flood_preserves (W : Z) (data : list Z) (K : Flood.t -> Prop) :
  (forall st curr rest, K st -> Flood.stack st = curr :: rest ->
     K (floodStep W data curr rest st)) ->
  forall fuel st st', K st -> flood W data fuel st = Some st' ->
    K st' /\ Flood.stack st' = [].
Proof.
  intros Hstep. induction fuel as [|fuel IH]; intros st st' HK Hrun; [discriminate|].
  cbn [flood] in Hrun. destruct (Flood.stack st) as [|curr rest] eqn:Hstack.
  - injection Hrun as <-. auto.
  - apply (IH _ _ (Hstep st curr rest HK Hstack) Hrun).
Qed.

Lemma floodStep_box (W H : Z) (data : list Z) (v0 : list bool) (seed : Z)
    (st : Flood.t) (curr : Z) (rest : list Z) :
  0 < W -> Z.of_nat (length v0) = W * H ->
  floodBox W H data v0 seed st -> Flood.stack st = curr :: rest ->
  floodBox W H data v0 seed (floodStep W data curr rest st).
Proof.
  intros HW Hlen0 [Hlen Hstk Hx Hy Hold Hseed Hnew] Hstack.
  destruct (fold_visitNeighbor data (neighbors W curr) (Flood.visited st) rest)
    as (vis' & new & Hfold & Hlen' & Hmono & Hsplit & Hin & _ & _).
  unfold floodStep. rewrite Hfold.
  assert (Hcurr : 0 <= curr < W * H) by (apply Hstk; rewrite Hstack; now left).
  destruct (index_of_coords W curr HW (proj1 Hcurr)) as (Hidx & Hcx & Hcy).
  assert (HcyH : curr / W < H) by (apply Z.div_lt_upper_bound; lia).
  split; cbn [Flood.visited Flood.stack Flood.extent].
  - congruence.
  - intros p Hp. apply in_app_or in Hp as [Hp|Hp].
    + destruct (Hin p Hp) as (_ & Hr & _). lia.
    + apply Hstk. rewrite Hstack. now right.
  - unfold stretch. cbn.
    destruct (Z.ltb_spec (Z.rem curr W) (Extent.minX (Flood.extent st))),
      (Z.ltb_spec (Extent.maxX (Flood.extent st)) (Z.rem curr W)); lia.
  - unfold stretch. cbn.
    destruct (Z.ltb_spec (curr / W) (Extent.minY (Flood.extent st))),
      (Z.ltb_spec (Extent.maxY (Flood.extent st)) (curr / W)); lia.
  - intros p Hp. apply Hmono, Hold, Hp.
  - apply Hmono, Hseed.
  - intros p Hp0 Hp. destruct (Hsplit p Hp0 Hp) as [Hp'|Hp'].
    + destruct (Hnew p Hp0 Hp') as [Hv0|[Ht [Hs|Hc]]]; [now left| |].
      * right. split; [exact Ht|]. rewrite Hstack in Hs. destruct Hs as [<-|Hs].
        -- right. apply covers_stretch_self.
        -- left. apply in_or_app. now right.
      * right. split; [exact Ht|]. right. now apply covers_stretch.
    + destruct (Hin p Hp') as (_ & _ & Ht & _).
      right. split; [exact Ht|]. left. apply in_or_app. now left.
Qed.

Lemma foldOpt_range_inv {S : Type} (f : Z -> S -> option S) (I : Z -> S -> Prop)
    (n : Z) (s : S) :
  0 <= n -> I 0 s ->
  (forall k s, 0 <= k < n -> I k s -> exists s', f k s = Some s' /\ I (k + 1) s') ->
  exists s', foldOpt f (range n) (Some s) = Some s' /\ I n s'.
Proof.
  intros Hn H0 Hstep.
  assert (H : forall m : nat, Z.of_nat m <= n ->
            exists s', foldOpt f (range (Z.of_nat m)) (Some s) = Some s' /\
                       I (Z.of_nat m) s').
  { induction m as [|m IH]; intros Hm.
    - exists s. auto.
    - destruct IH as (s1 & Hs1 & HI1); [lia|].
      destruct (Hstep (Z.of_nat m) s1) as (s2 & Hs2 & HI2); [lia|exact HI1|].
      exists s2. replace (Z.of_nat (Datatypes.S m)) with (Z.of_nat m + 1) by lia.
      rewrite range_add by lia. rewrite foldOpt_app, Hs1.
      change (range 1) with [0]. cbn [map]. rewrite Z.add_0_r.
      rewrite foldOpt_cons. split; [exact Hs2|exact HI2]. }
  destruct (H (Z.to_nat n)) as (s' & Hs' & HI'); [lia|].
  rewrite Z2Nat.id in Hs', HI' by lia. now exists s'.
Qed.

Lemma scanIndex_inv (im : ImageData.t) (minWidth minHeight k : Z) (s : Scan.t) :
  0 < ImageData.width im ->
  0 <= k < ImageData.width im * ImageData.height im ->
  scanInv im minWidth minHeight k s ->
  exists s', scanIndex im minWidth minHeight k s = Some s' /\
             scanInv im minWidth minHeight (k + 1) s'.
Proof.
  set (W := ImageData.width im). set (H := ImageData.height im).
  set (data := ImageData.data im).
  intros HW Hk [Hlen Hrects Hids Hdone Hmarks].
  fold W H in Hlen. fold data in Hdone, Hmarks. fold W in Hmarks. fold W H in Hrects.
  destruct (index_of_coords W k HW (proj1 Hk)) as (Hidx & Hx & Hy).
  assert (HyH : k / W < H) by (apply Z.div_lt_upper_bound; lia).
  unfold scanIndex, scanCell. cbv zeta. fold W data. rewrite Hidx.
  destruct (visitedAt (Scan.visited s) k) eqn:Hv; cbn [orb].
  { exists s. split; [reflexivity|]. split; auto.
    intros p Hp Ht. destruct (Z.eq_dec p k) as [->|]; [exact Hv|]. apply Hdone; [lia|exact Ht]. }
  destruct (isTransparent data k) eqn:Ht.
  { exists s. split; [reflexivity|]. split; auto.
    intros p Hp Ht'. fold data in Ht'.
    destruct (Z.eq_dec p k) as [->|]; [congruence|]. apply Hdone; [lia|exact Ht']. }
  set (v1 := <[Z.to_nat k := true]> (Scan.visited s)).
  set (st0 := Flood.mk [k] v1 (Extent.mk (Z.rem k W) (k / W) (Z.rem k W) (k / W))).
  assert (Hk' : 0 <= k < Z.of_nat (length (Scan.visited s))) by lia.
  destruct (flood_total W data (Datatypes.S (length v1)) st0) as (f & Hrun & _).
  { unfold st0, v1. cbn [Flood.visited Flood.stack].
    pose proof (countFalse_insert (Scan.visited s) (Z.to_nat k)
                  (visitedAt_false_lookup _ k Hk' Hv)).
    pose proof (countFalse_le (Scan.visited s)).
    rewrite length_insert. simpl. lia. }
  rewrite Hrun.
  assert (Hbox0 : floodBox W H data (Scan.visited s) k st0).
  { unfold st0, v1. split; cbn [Flood.visited Flood.stack Flood.extent Extent.minX Extent.maxX Extent.minY Extent.maxY].
    - apply length_insert.
    - intros p [<-|[]]. exact Hk.
    - lia.
    - lia.
    - intros p Hp. now apply visitedAt_insert_mono.
    - rewrite visitedAt_insert by lia. destruct (Z.eq_dec k k); [reflexivity|contradiction].
    - intros p Hp0 Hp. rewrite visitedAt_insert in Hp by lia.
      destruct (Z.eq_dec p k) as [->|]; [|now left].
      right. split; [exact Ht|]. left. now left. }
  destruct (flood_preserves W data (floodBox W H data (Scan.visited s) k)
              (fun st curr rest HK Hs =>
                 floodStep_box W H data (Scan.visited s) k st curr rest HW Hlen HK Hs)
              _ _ _ Hbox0 Hrun) as [[Flen Fstk Fx Fy Fold Fseed Fnew] Fempty].
  set (e := Flood.extent f) in *.
  set (r := Rect.mk (islandId (Scan.idCounter s)) (Extent.minX e) (Extent.minY e)
              (Extent.maxX e - Extent.minX e + 1) (Extent.maxY e - Extent.minY e + 1)).
  assert (Hr : withinImage W H r) by (unfold withinImage, r; cbn; lia).
  assert (Hdone' : forall p, 0 <= p < k + 1 -> isTransparent data p = false ->
                             visitedAt (Flood.visited f) p = true).
  { intros p Hp Ht'. destruct (Z.eq_dec p k) as [->|]; [exact Fseed|].
    apply Fold, Hdone; [lia|exact Ht']. }
  destruct (Z.leb_spec minWidth (Extent.maxX e - Extent.minX e + 1)) as [Hmw|Hmw];
    [destruct (Z.leb_spec minHeight (Extent.maxY e - Extent.minY e + 1)) as [Hmh|Hmh]|];
    cbn [andb]; eexists; (split; [reflexivity|]);
    split; cbn [Scan.visited Scan.rects Scan.idCounter]; fold W H data;
    try (rewrite Flen; exact Hlen); try exact Hdone'; try exact Hrects; try exact Hids.
  - intros r' Hr'. apply in_app_or in Hr' as [Hr'|[<-|[]]]; [now apply Hrects|].
    split; [exact Hr|]. unfold r. cbn. lia.
  - rewrite List.map_app, Hids, seq_S, List.map_app. reflexivity.
  - intros p Hp0 Hp. destruct (Fnew p Hp0 Hp) as [Hv0|[Ht' [Hs|Hc]]].
    + destruct (Hmarks p Hp0 Hv0) as [Ht' Hex]. split; [exact Ht'|].
      intros H1 H2. destruct (Hex H1 H2) as (r' & Hin & Hr').
      exists r'. split; [apply in_or_app; now left|exact Hr'].
    + rewrite Fempty in Hs. destruct Hs.
    + split; [exact Ht'|]. intros _ _. exists r. split; [apply in_or_app; right; now left|].
      unfold covers in Hc. fold e in Hc. unfold inRect, r. cbn. lia.
  - intros p Hp0 Hp. destruct (Fnew p Hp0 Hp) as [Hv0|[Ht' [Hs|Hc]]].
    + now apply Hmarks.
    + rewrite Fempty in Hs. destruct Hs.
    + split; [exact Ht'|]. intros H1 H2. lia.
  - intros p Hp0 Hp. destruct (Fnew p Hp0 Hp) as [Hv0|[Ht' [Hs|Hc]]].
    + now apply Hmarks.
    + rewrite Fempty in Hs. destruct Hs.
    + split; [exact Ht'|]. intros H1 H2. lia.
Qed.

Lemma isTransparent_alphaAt (im : ImageData.t) (x y : Z) :
  isTransparent (ImageData.data im) (y * ImageData.width im + x) = true <->
  alphaAt im x y = Some 0.
Proof.
  unfold isTransparent, alphaAt.
  destruct (ImageData.data im !! _) as [a|]; [|split; discriminate].
  destruct (Z.eqb_spec a 0) as [->|Hne]; split; try reflexivity; try discriminate.
  intros [= ->]. contradiction.
Qed.

Lemma detectIslands_scan (im : ImageData.t) (minWidth minHeight : Z) :
  exists s,
    detectIslands im minWidth minHeight = Some (Scan.rects s) /\
    (0 < ImageData.width im -> 0 < ImageData.height im ->
     scanInv im minWidth minHeight (ImageData.width im * ImageData.height im) s) /\
    (ImageData.width im <= 0 \/ ImageData.height im <= 0 -> Scan.rects s = []).
Proof.
  unfold detectIslands. set (s0 := Scan.mk _ [] 0%nat).
  destruct (Z.le_gt_cases (ImageData.height im) 0) as [HH|HH].
  { exists s0. unfold scanCells, range at 2.
    rewrite (Z2Nat.nonpos (ImageData.height im)) by lia.
    split; [reflexivity|]. split; [lia|reflexivity]. }
  destruct (Z.le_gt_cases (ImageData.width im) 0) as [HW|HW].
  { exists s0. unfold scanCells. rewrite foldOpt_skip.
    - split; [reflexivity|]. split; [lia|reflexivity].
    - intros y _. unfold range. now rewrite (Z2Nat.nonpos (ImageData.width im)) by lia. }
  rewrite scanCells_flat by lia.
  destruct (foldOpt_range_inv (scanIndex im minWidth minHeight)
              (scanInv im minWidth minHeight)
              (ImageData.width im * ImageData.height im) s0) as (s & Hs & Hinv).
  - nia.
  - unfold s0. split; cbn [Scan.visited Scan.rects Scan.idCounter].
    + rewrite length_replicate. nia.
    + intros r [].
    + reflexivity.
    + lia.
    + intros p _ Hp. rewrite visitedAt_replicate in Hp. discriminate.
  - intros k s Hk Hinv. apply scanIndex_inv; [lia|exact Hk|exact Hinv].
  - exists s. rewrite Hs. split; [reflexivity|]. split; [auto|lia].
Qed.

Lemma scan_ids_length (rects : list Rect.t) (n : nat) :
  map Rect.id rects = map islandId (seq 0 n) -> n = length rects.
Proof.
  intros H. apply (f_equal (@length string)) in H.
  rewrite !length_map, length_seq in H. auto.
Qed.

(** X3. [detectIslands] always returns, and every rectangle it returns
    is at least 1 x 1, lies inside the image and has at least the minimum
    width and height; the ids are [island-0], [island-1], ... in the
    order of the list. *)
Theorem detectIslands_rects_valid (im : ImageData.t) (minWidth minHeight : Z) :
  exists rects,
    detectIslands im minWidth minHeight = Some rects /\
    (forall r, In r rects ->
       withinImage (ImageData.width im) (ImageData.height im) r /\
       minWidth <= Rect.w r /\ minHeight <= Rect.h r) /\
    map Rect.id rects = map islandId (seq 0 (length rects)).
Proof.
  destruct (detectIslands_scan im minWidth minHeight) as (s & Hs & Hinv & Hempty).
  exists (Scan.rects s). split; [exact Hs|].
  destruct (Z.le_gt_cases (ImageData.width im) 0) as [HW|HW];
    [rewrite Hempty by lia; split; [intros r []|reflexivity]|].
  destruct (Z.le_gt_cases (ImageData.height im) 0) as [HH|HH];
    [rewrite Hempty by lia; split; [intros r []|reflexivity]|].
  destruct (Hinv ltac:(lia) ltac:(lia)) as [_ Hrects Hids _ _].
  split; [exact Hrects|].
  rewrite <- (scan_ids_length _ _ Hids). exact Hids.
Qed.

Lemma scanInv_covers (im : ImageData.t) (minWidth minHeight : Z) (s : Scan.t)
    (x y : Z) :
  scanInv im minWidth minHeight (ImageData.width im * ImageData.height im) s ->
  minWidth <= 1 -> minHeight <= 1 ->
  0 <= x < ImageData.width im -> 0 <= y < ImageData.height im ->
  alphaAt im x y <> Some 0 ->
  exists r, In r (Scan.rects s) /\ inRect r x y.
Proof.
  intros [_ _ _ Hdone Hmarks] Hmw Hmh Hx Hy Ha.
  set (p := y * ImageData.width im + x).
  assert (Ht : isTransparent (ImageData.data im) p = false).
  { destruct (isTransparent _ p) eqn:E; [|reflexivity].
    apply isTransparent_alphaAt in E. contradiction. }
  destruct (Hmarks p ltac:(unfold p; nia) (Hdone p ltac:(unfold p; nia) Ht))
    as [_ Hex].
  destruct (Hex Hmw Hmh) as (r & Hin & Hr).
  exists r. split; [exact Hin|].
  unfold p in Hr.
  destruct (coords_of_index (ImageData.width im) x y) as [Hrem Hdiv]; [lia|lia|].
  now rewrite Hrem, Hdiv in Hr.
Qed.

(** X4. When the minimum width and height are at most 1, every pixel of
    the image whose alpha byte is not 0 lies inside one of the rectangles
    that [detectIslands] returns. *)
Theorem detectIslands_covers_every_opaque_pixel
    (im : ImageData.t) (minWidth minHeight : Z) :
  minWidth <= 1 -> minHeight <= 1 ->
  exists rects,
    detectIslands im minWidth minHeight = Some rects /\
    forall x y, 0 <= x < ImageData.width im -> 0 <= y < ImageData.height im ->
      alphaAt im x y <> Some 0 ->
      exists r, In r rects /\ inRect r x y.
Proof.
  intros Hmw Hmh.
  destruct (detectIslands_scan im minWidth minHeight) as (s & Hs & Hinv & _).
  exists (Scan.rects s). split; [exact Hs|].
  intros x y Hx Hy Ha.
  apply (scanInv_covers im minWidth minHeight s x y); try assumption.
  apply Hinv; lia.
Qed.

Lemma detectIslands_covers_every_opaque_pixel_witness :
  exists rects,
    detectIslands twoSquaresExample 1 1 = Some rects /\
    forall x y, 0 <= x < 7 -> 0 <= y < 3 ->
      alphaAt twoSquaresExample x y <> Some 0 ->
      exists r, In r rects /\ inRect r x y.
Proof.
  exact (detectIslands_covers_every_opaque_pixel twoSquaresExample 1 1
           ltac:(lia) ltac:(lia)).
Defined.

Lemma detectIslands_transparent (im : ImageData.t) (minWidth minHeight : Z) :
  (forall x y, 0 <= x < ImageData.width im -> 0 <= y < ImageData.height im ->
     alphaAt im x y = Some 0) ->
  detectIslands im minWidth minHeight = Some [].
Proof.
  intros Hall. unfold detectIslands. set (s0 := Scan.mk _ [] 0%nat).
  unfold scanCells. rewrite foldOpt_skip; [reflexivity|].
  intros y Hy. apply in_range in Hy. apply foldOpt_skip.
  intros x Hx. apply in_range in Hx. unfold scanCell. cbv zeta.
  rewrite (proj2 (isTransparent_alphaAt im x y) (Hall x y Hx Hy)).
  rewrite orb_true_r. reflexivity.
Qed.

(** X5. When the minimum width and height are at most 1,
    [detectIslands] returns the empty list exactly when every pixel of the
    image has alpha 0. *)
Theorem detectIslands_empty_iff_transparent
    (im : ImageData.t) (minWidth minHeight : Z) :
  minWidth <= 1 -> minHeight <= 1 ->
  (detectIslands im minWidth minHeight = Some [] <->
   forall x y, 0 <= x < ImageData.width im -> 0 <= y < ImageData.height im ->
     alphaAt im x y = Some 0).
Proof.
  intros Hmw Hmh. split; [|apply detectIslands_transparent].
  intros Hnone x y Hx Hy.
  destruct (detectIslands_scan im minWidth minHeight) as (s & Hs & Hinv & _).
  rewrite Hnone in Hs. injection Hs as Hs.
  assert (Hcov : alphaAt im x y <> Some 0 -> False).
  { intros Ha.
    destruct (scanInv_covers im minWidth minHeight s x y) as (r & Hin & _);
      try assumption; [apply Hinv; lia|].
    rewrite <- Hs in Hin. destruct Hin. }
  destruct (alphaAt im x y) as [a|] eqn:Ha.
  - destruct (Z.eq_dec a 0) as [->|Hne]; [reflexivity|].
    exfalso. apply Hcov. congruence.
  - exfalso. apply Hcov. discriminate.
Qed.

Lemma detectIslands_empty_iff_transparent_witness :
  detectIslands (ImageData.mk 1 1 [9; 9; 9; 0]) 1 1 = Some [] <->
  forall x y, 0 <= x < 1 -> 0 <= y < 1 ->
    alphaAt (ImageData.mk 1 1 [9; 9; 9; 0]) x y = Some 0.
Proof.
  exact (detectIslands_empty_iff_transparent (ImageData.mk 1 1 [9; 9; 9; 0]) 1 1
           ltac:(lia) ltac:(lia)).
Defined.

(** ** Grid enumerator: the layout *)










(** ** Colour keying: key colours *)

Lemma keyedAlphas_app targets1 targets2 tol featherPx (r g b a : Z) :
  keyedAlphas (targets1 ++ targets2) tol featherPx r g b a =
  keyedAlphas targets2 tol featherPx r g b
    (keyedAlphas targets1 tol featherPx r g b a).
Proof. unfold keyedAlphas. apply fold_left_app. Qed.

Lemma keyedAlpha_exact (c : ColorRGB.t) tol featherPx (a : Z) :
  0 <= tol ->
  keyedAlpha c tol featherPx (ColorRGB.r c) (ColorRGB.g c) (ColorRGB.b c) a = 0.
Proof.
  intros Htol. unfold keyedAlpha, distSq. rewrite !Z.sub_diag.
  change (0 ^ 2 + 0 ^ 2 + 0 ^ 2) with 0.
  destruct (Z.leb_spec 0 (tol * tol)); [reflexivity|nia].
Qed.

Lemma keyedAlphas_exact (targets : list ColorRGB.t) (c : ColorRGB.t)
    tol featherPx (a : Z) :
  0 <= tol -> In c targets ->
  keyedAlphas targets tol featherPx (ColorRGB.r c) (ColorRGB.g c) (ColorRGB.b c) a = 0.
Proof.
  intros Htol Hin. apply in_split in Hin as (l1 & l2 & ->).
  rewrite keyedAlphas_app.
  change (keyedAlphas (c :: l2) tol featherPx (ColorRGB.r c) (ColorRGB.g c) (ColorRGB.b c) ?x)
    with (keyedAlphas l2 tol featherPx (ColorRGB.r c) (ColorRGB.g c) (ColorRGB.b c)
            (keyedAlpha c tol featherPx (ColorRGB.r c) (ColorRGB.g c) (ColorRGB.b c) x)).
  rewrite keyedAlpha_exact by exact Htol. apply keyedAlphas_zero.
Qed.

(** X7. A pixel whose R, G and B bytes are exactly those of one of the
    key colours comes out of [applyColorKeysToImageData] with alpha 0,
    whatever the tolerance, the feather, the other key colours and its
    alpha before. *)
Theorem key_colour_always_removed (im : ImageData.t) (targets : list ColorRGB.t)
    (c : ColorRGB.t) (tolerance feather : Z) (k : nat) (a : Z) :
  In c targets ->
  ImageData.data im !! (4 * k)%nat = Some (ColorRGB.r c) ->
  ImageData.data im !! (4 * k + 1)%nat = Some (ColorRGB.g c) ->
  ImageData.data im !! (4 * k + 2)%nat = Some (ColorRGB.b c) ->
  ImageData.data im !! (4 * k + 3)%nat = Some a ->
  ImageData.data (applyColorKeysToImageData im targets tolerance feather)
    !! (4 * k + 3)%nat = Some 0.
Proof.
  intros Hin Hr Hg Hb Ha. rewrite applyColorKeys_mapAlpha. cbn [ImageData.data].
  rewrite (mapAlpha_lookup_alpha _ k _ _ _ _ _ Hr Hg Hb Ha).
  rewrite keyedAlphas_exact; [reflexivity|lia|exact Hin].
Qed.

Lemma existsb_same_elements {A : Type} (f : A -> bool) (l1 l2 : list A) :
  (forall x, In x l1 <-> In x l2) -> existsb f l1 = existsb f l2.
Proof.
  intros H. destruct (existsb f l1) eqn:E1.
  - symmetry. apply existsb_exists. apply existsb_exists in E1 as (x & Hx & Hf).
    exists x. split; [now apply H|exact Hf].
  - destruct (existsb f l2) eqn:E2; [|reflexivity].
    apply existsb_exists in E2 as (x & Hx & Hf).
    assert (existsb f l1 = true) by (apply existsb_exists; exists x; split; [now apply H|exact Hf]).
    congruence.
Qed.

(** X8. Without feather ([feather <= 0]) the result of
    [applyColorKeysToImageData] depends only on which colours are in the
    list: two lists with the same elements, in any order and with any
    repetitions, give the same buffer. *)
Theorem hard_keys_order_independent (im : ImageData.t)
    (targets1 targets2 : list ColorRGB.t) (tolerance feather : Z) :
  feather <= 0 ->
  (forall c, In c targets1 <-> In c targets2) ->
  applyColorKeysToImageData im targets1 tolerance feather =
  applyColorKeysToImageData im targets2 tolerance feather.
Proof.
  intros Hf Hsame. rewrite !applyColorKeys_mapAlpha. f_equal.
  apply mapAlpha_ext. intros r g b a.
  rewrite !keyedAlphas_hard by lia.
  now rewrite (existsb_same_elements _ targets1 targets2 Hsame).
Qed.

Lemma key_colour_always_removed_witness :
  ImageData.data
    (applyColorKeysToImageData (ImageData.mk 1 1 [255; 0; 255; 200])
       [ColorRGB.mk 0 0 0; ColorRGB.mk 255 0 255] 0 3)
    !! 3%nat = Some 0.
Proof.
  exact (key_colour_always_removed (ImageData.mk 1 1 [255; 0; 255; 200])
           [ColorRGB.mk 0 0 0; ColorRGB.mk 255 0 255] (ColorRGB.mk 255 0 255)
           0 3 0 200 (or_intror (or_introl eq_refl)) eq_refl eq_refl eq_refl eq_refl).
Defined.

Lemma hard_keys_order_independent_witness :
  applyColorKeysToImageData (ImageData.mk 1 1 [255; 0; 255; 200])
    [ColorRGB.mk 0 0 0; ColorRGB.mk 255 0 255] 10 0 =
  applyColorKeysToImageData (ImageData.mk 1 1 [255; 0; 255; 200])
    [ColorRGB.mk 255 0 255; ColorRGB.mk 0 0 0; ColorRGB.mk 255 0 255] 10 0.
Proof.
  apply (hard_keys_order_independent (ImageData.mk 1 1 [255; 0; 255; 200])
           [ColorRGB.mk 0 0 0; ColorRGB.mk 255 0 255]
           [ColorRGB.mk 255 0 255; ColorRGB.mk 0 0 0; ColorRGB.mk 255 0 255] 10 0).
  - lia.
  - intros c. cbn [In]. tauto.
Defined.

(** ** Background colour *)

Lemma toHex_byte (v : Z) :
  isByte v ->
  exists c1 c2,
    toHex v = String c1 (String c2 EmptyString) /\
    hexClass c1 = true /\ hexClass c2 = true /\ parseInt16 c1 c2 = v.
Proof.
  intros Hv.
  assert (Hall : forallb toHexCheck (seq 0 256) = true) by (vm_compute; reflexivity).
  rewrite forallb_forall in Hall.
  specialize (Hall (Z.to_nat v)).
  unfold isByte in Hv.
  assert (Hin : In (Z.to_nat v) (seq 0 256)) by (apply in_seq; lia).
  specialize (Hall Hin). unfold toHexCheck in Hall.
  rewrite Z2Nat.id in Hall by lia.
  destruct (toHex v) as [|c1 [|c2 [|]]]; try discriminate.
  apply andb_true_iff in Hall as [Hall H3]. apply andb_true_iff in Hall as [H1 H2].
  exists c1, c2. apply Z.eqb_eq in H3. auto.
Qed.

Lemma rgbToHex_parsed (r g b : QArith_base.Q) :
  hexToRgb (rgbToHex r g b) =
  Some (ColorRGB.mk (toUint8Clamp (roundQ r)) (toUint8Clamp (roundQ g))
          (toUint8Clamp (roundQ b))).
Proof.
  unfold rgbToHex. fold (toUint8Clamp (roundQ r)) (toUint8Clamp (roundQ g))
    (toUint8Clamp (roundQ b)).
  destruct (toHex_byte _ (toUint8Clamp_byte (roundQ r))) as (r1 & r2 & -> & Hr1 & Hr2 & Hr).
  destruct (toHex_byte _ (toUint8Clamp_byte (roundQ g))) as (g1 & g2 & -> & Hg1 & Hg2 & Hg).
  destruct (toHex_byte _ (toUint8Clamp_byte (roundQ b))) as (b1 & b2 & -> & Hb1 & Hb2 & Hb).
  cbn [String.append]. rewrite hexToRgb_hash.
  apply groups_Some. exists r1, r2, g1, g2, b1, b2.
  split; [reflexivity|]. split; [repeat constructor; assumption|].
  now rewrite Hr, Hg, Hb.
Qed.

Lemma roundQ_div (a n : Z) :
  0 < n ->
  roundQ (QArith_base.Qdiv (QArith_base.inject_Z a) (QArith_base.inject_Z n)) =
  (2 * a + n) / (2 * n).
Proof.
  intros Hn. destruct n as [|p|p]; try lia.
  unfold roundQ, Qround.Qfloor, QArith_base.Qdiv, QArith_base.Qmult,
    QArith_base.Qinv, QArith_base.Qplus, QArith_base.inject_Z.
  cbn [QArith_base.Qnum QArith_base.Qden].
  f_equal; lia.
Qed.

Lemma roundQ_inject_Z (v : Z) : roundQ (QArith_base.inject_Z v) = v.
Proof.
  unfold roundQ, Qround.Qfloor, QArith_base.Qplus, QArith_base.inject_Z.
  cbn [QArith_base.Qnum QArith_base.Qden Pos.mul].
  rewrite Z.mul_1_l. change (Z.pos (1 * 2)) with 2.
  replace (v * 2 + 1) with (1 + v * 2) by lia.
  rewrite Z.div_add by lia. reflexivity.
Qed.

(** X9. [rgbToHex] followed by [hexToRgb] gives back the colour: for
    three bytes [r], [g], [b], [hexToRgb (rgbToHex r g b)] is the colour
    [(r, g, b)]. *)
Theorem rgbToHex_round_trip (r g b : Z) :
  isByte r -> isByte g -> isByte b ->
  hexToRgb (rgbToHex (QArith_base.inject_Z r) (QArith_base.inject_Z g)
              (QArith_base.inject_Z b)) = Some (ColorRGB.mk r g b).
Proof.
  intros Hr Hg Hb. rewrite rgbToHex_parsed, !roundQ_inject_Z.
  now rewrite !toUint8Clamp_id.
Qed.

Lemma rgbToHex_round_trip_witness :
  hexToRgb (rgbToHex (QArith_base.inject_Z 255) (QArith_base.inject_Z 0)
              (QArith_base.inject_Z 128)) = Some (ColorRGB.mk 255 0 128).
Proof.
  apply (rgbToHex_round_trip 255 0 128); unfold isByte; lia.
Defined.

(** X10. Whatever the image, and with or without a 2D context, the
    string returned by [detectBackgroundColor] is a colour that [hexToRgb]
    parses; without a context it is black. *)
Theorem detectBackgroundColor_always_parses
    (context2d : bool) (image : ImageData.t) :
  (exists c, hexToRgb (detectBackgroundColor context2d image) = Some c) /\
  hexToRgb (detectBackgroundColor false image) = Some (ColorRGB.mk 0 0 0).
Proof.
  split; [|reflexivity].
  unfold detectBackgroundColor. destruct context2d; cbn [negb];
    [|eexists; reflexivity].
  cbv zeta. destruct (fold_left _ _ _) as [[[r g] b] count].
  destruct (count =? 0); [eexists; reflexivity|].
  eexists. apply rgbToHex_parsed.
Qed.

Lemma bgData_app (r0 g0 b0 : Z) (l1 l2 : list Z) :
  bgData r0 g0 b0 l1 -> bgData r0 g0 b0 l2 -> bgData r0 g0 b0 (l1 ++ l2).
Proof.
  induction l1 as [l Hl | r g b a l IH] using list4_ind; intros H1 H2.
  - destruct l as [|x1 [|x2 [|x3 [|x4 l]]]]; try (simpl in H1; contradiction);
      [exact H2|simpl in Hl; lia].
  - cbn [bgData app] in *. split; [apply H1|apply IH; [apply H1|exact H2]].
Qed.

Lemma bgData_flat_map {A : Type} (r0 g0 b0 : Z) (f : A -> list Z) (l : list A) :
  (forall a, In a l -> bgData r0 g0 b0 (f a)) -> bgData r0 g0 b0 (flat_map f l).
Proof.
  induction l as [|a l IH]; intros H; [exact I|].
  cbn [flat_map]. apply bgData_app; [apply H; now left|].
  apply IH. intros a' Ha'. apply H. now right.
Qed.

Lemma sumPixels_bg (r0 g0 b0 k : Z) (data : list Z) :
  bgData r0 g0 b0 data ->
  forall sr sg sb n,
    k <= n -> sr = n * r0 -> sg = n * g0 -> sb = n * b0 ->
    exists n', sumPixels data (sr, sg, sb, n) = (n' * r0, n' * g0, n' * b0, n') /\
               k <= n'.
Proof.
  induction data as [l Hl | r g b a l IH] using list4_ind; intros Hbg sr sg sb n Hn -> -> ->.
  - destruct l as [|x1 [|x2 [|x3 [|x4 l]]]]; try (simpl in Hbg; contradiction);
      [|simpl in Hl; lia].
    exists n. auto.
  - cbn [bgData] in Hbg. destruct Hbg as [Hpx Hbg]. cbn [sumPixels].
    unfold addPixel. destruct (Z.eqb_spec a 0) as [->|Hne].
    + apply IH; auto.
    + destruct Hpx as [->|(-> & -> & ->)]; [contradiction|].
      apply IH; auto; lia.
Qed.

Lemma sample_bg (image : ImageData.t) (r0 g0 b0 sx sy : Z) :
  let w := ImageData.width image in
  let h := ImageData.height image in
  let size := Z.max 1 (Z.min (Z.min 10 w) h) in
  (forall x y, sampled image x y ->
     exists a, pixelAt image x y = [r0; g0; b0; a] \/
               exists r g b, pixelAt image x y = [r; g; b; 0]) ->
  (sx = 0 \/ sx = w - size) -> (sy = 0 \/ sy = h - size) ->
  bgData r0 g0 b0 (ImageData.data (region image sx sy size size)).
Proof.
  intros w h size Hbg Hsx Hsy. unfold region. cbn [ImageData.data].
  apply bgData_flat_map. intros dy Hdy. apply in_range in Hdy.
  apply bgData_flat_map. intros dx Hdx. apply in_range in Hdx.
  destruct (Z_le_gt_dec 0 (sx + dx)) as [Hx0|Hx0];
    [destruct (Z_lt_ge_dec (sx + dx) w) as [Hx1|Hx1];
     [destruct (Z_le_gt_dec 0 (sy + dy)) as [Hy0|Hy0];
      [destruct (Z_lt_ge_dec (sy + dy) h) as [Hy1|Hy1]|]|]|].
  - destruct (Hbg (sx + dx) (sy + dy)) as [a [->|(r & g & b & ->)]].
    + unfold sampled. fold w h size. lia.
    + cbn. auto.
    + cbn. auto.
  - unfold pixelAt. fold w h.
    destruct (Z.ltb_spec (sy + dy) h); [lia|].
    rewrite andb_false_r. cbn. auto.
  - unfold pixelAt. fold w h.
    destruct (Z.leb_spec 0 (sy + dy)); [lia|].
    rewrite andb_false_r. cbn. auto.
  - unfold pixelAt. fold w h.
    destruct (Z.ltb_spec (sx + dx) w); [lia|].
    rewrite andb_false_r. cbn. auto.
  - unfold pixelAt. fold w h.
    destruct (Z.leb_spec 0 (sx + dx)); [lia|]. cbn. auto.
Qed.

Lemma meanOf_parsed (n r0 g0 b0 : Z) :
  0 < n -> isByte r0 -> isByte g0 -> isByte b0 ->
  hexToRgb (rgbToHex (meanOf n r0) (meanOf n g0) (meanOf n b0)) =
  Some (ColorRGB.mk r0 g0 b0).
Proof.
  intros Hn Hr Hg Hb. unfold meanOf.
  rewrite rgbToHex_parsed, !roundQ_div by lia.
  assert (Havg : forall c, (2 * (n * c) + n) / (2 * n) = c).
  { intros c. replace (2 * (n * c) + n) with (n * (1 + c * 2)) by lia.
    rewrite (Z.mul_comm 2 n), Z.div_mul_cancel_l by lia.
    rewrite Z.div_add by lia. reflexivity. }
  rewrite !Havg. now rewrite !toUint8Clamp_id.
Qed.

Lemma detectBackgroundColor_uniform
    (image : ImageData.t) (r0 g0 b0 a0 : Z) :
  0 < ImageData.width image -> 0 < ImageData.height image ->
  pixelAt image 0 0 = [r0; g0; b0; a0] -> a0 <> 0 ->
  (forall x y, sampled image x y ->
     exists a, pixelAt image x y = [r0; g0; b0; a] \/
               exists r g b, pixelAt image x y = [r; g; b; 0]) ->
  exists n, 0 < n /\
    detectBackgroundColor true image =
    rgbToHex (meanOf n r0) (meanOf n g0) (meanOf n b0).
Proof.
  intros HW HH H00 Ha0 Hbg.
  unfold detectBackgroundColor. cbn [negb]. cbv zeta.
  set (w := ImageData.width image) in *. set (h := ImageData.height image) in *.
  set (size := Z.max 1 (Z.min (Z.min 10 w) h)).
  cbn [fold_left Point.x Point.y].
  pose proof (sample_bg image r0 g0 b0 0 0 Hbg (or_introl eq_refl) (or_introl eq_refl)) as B1.
  pose proof (sample_bg image r0 g0 b0 (w - size) 0 Hbg (or_intror eq_refl) (or_introl eq_refl)) as B2.
  pose proof (sample_bg image r0 g0 b0 0 (h - size) Hbg (or_introl eq_refl) (or_intror eq_refl)) as B3.
  pose proof (sample_bg image r0 g0 b0 (w - size) (h - size) Hbg (or_intror eq_refl) (or_intror eq_refl)) as B4.
  fold w h size in B1, B2, B3, B4.
  assert (Hhead : exists rest,
            ImageData.data (region image 0 0 size size) = r0 :: g0 :: b0 :: a0 :: rest).
  { unfold region. cbn [ImageData.data].
    assert (Hsize : range size = 0 :: map (fun i => 1 + i) (range (size - 1))).
    { replace size with (1 + (size - 1)) at 1 by lia.
      rewrite (range_add 1) by lia. reflexivity. }
    rewrite Hsize. cbn [app flat_map].
    change (pixelAt image (0 + 0) (0 + 0)) with (pixelAt image 0 0). rewrite H00. cbn [app]. eexists. reflexivity. }
  destruct Hhead as [rest Hhead]. rewrite Hhead in *.
  cbn [sumPixels bgData] in *.
  assert (Hfirst : addPixel (0, 0, 0, 0) r0 g0 b0 a0 = (r0, g0, b0, 1)).
  { unfold addPixel. destruct (Z.eqb_spec a0 0); [contradiction|reflexivity]. }
  rewrite Hfirst.
  destruct (sumPixels_bg r0 g0 b0 1 rest (proj2 B1) r0 g0 b0 1)
    as (n1 & -> & Hn1); try lia.
  destruct (sumPixels_bg r0 g0 b0 1 _ B2 (n1 * r0) (n1 * g0) (n1 * b0) n1)
    as (n2 & -> & Hn2); try lia.
  destruct (sumPixels_bg r0 g0 b0 1 _ B3 (n2 * r0) (n2 * g0) (n2 * b0) n2)
    as (n3 & -> & Hn3); try lia.
  destruct (sumPixels_bg r0 g0 b0 1 _ B4 (n3 * r0) (n3 * g0) (n3 * b0) n3)
    as (n4 & -> & Hn4); try lia.
  destruct (Z.eqb_spec n4 0); [lia|].
  exists n4. split; [lia|reflexivity].
Qed.

(** X11. When the top-left pixel of a non-empty image is not transparent
    and every pixel of the four sampled corner squares is either
    transparent or of the top-left pixel's colour, [detectBackgroundColor]
    returns exactly that colour. *)
Theorem detectBackgroundColor_uniform_corners
    (image : ImageData.t) (r0 g0 b0 a0 : Z) :
  isByte r0 -> isByte g0 -> isByte b0 ->
  0 < ImageData.width image -> 0 < ImageData.height image ->
  pixelAt image 0 0 = [r0; g0; b0; a0] -> a0 <> 0 ->
  (forall x y, sampled image x y ->
     exists a, pixelAt image x y = [r0; g0; b0; a] \/
               exists r g b, pixelAt image x y = [r; g; b; 0]) ->
  hexToRgb (detectBackgroundColor true image) = Some (ColorRGB.mk r0 g0 b0).
Proof.
  intros Hr Hg Hb HW HH H00 Ha0 Hbg.
  destruct (detectBackgroundColor_uniform image r0 g0 b0 a0 HW HH H00 Ha0 Hbg)
    as (n & Hn & ->).
  now apply meanOf_parsed.
Qed.

Lemma detectBackgroundColor_uniform_corners_witness :
  hexToRgb (detectBackgroundColor true
              (ImageData.mk 2 1 [10; 20; 30; 255; 1; 2; 3; 0])) =
  Some (ColorRGB.mk 10 20 30).
Proof.
  apply (detectBackgroundColor_uniform_corners
           (ImageData.mk 2 1 [10; 20; 30; 255; 1; 2; 3; 0]) 10 20 30 255);
    try (unfold isByte; lia); try (cbn; lia); try reflexivity.
  intros x y [[Hx Hy] _]. cbn in Hx, Hy.
  assert (y = 0) by lia. assert (x = 0 \/ x = 1) as [-> | ->] by lia; subst y.
  - exists 255. left. reflexivity.
  - exists 0. right. exists 1, 2, 3. reflexivity.
Defined.

(** ** Picking a key colour *)

Lemma includes_In (l : list string) (x : string) : includes l x = true <-> In x l.
Proof.
  unfold includes. rewrite existsb_exists. split.
  - intros (y & Hy & He). apply String.eqb_eq in He. now subst.
  - intros H. exists x. split; [exact H|apply String.eqb_refl].
Qed.

Lemma handlePickColor_colors (hex : string) (settings : AppSettings.t) :
  In hex (Processing.colorKeyColors
            (AppSettings.processing (handlePickColor hex settings))).
Proof.
  unfold handlePickColor. cbn.
  destruct (includes _ hex) eqn:E.
  - now apply includes_In.
  - apply in_or_app. right. now left.
Qed.

Lemma keyedSlice_key_colour (image : ImageData.t) (rect : Rect.t)
    (settings : AppSettings.t) (c : ColorRGB.t) (dx dy a : Z) :
  Processing.colorKeyEnabled (AppSettings.processing settings) = true ->
  In c (keyColors settings) ->
  0 <= dx < Rect.w rect -> 0 <= dy < Rect.h rect ->
  pixelAt image (Rect.x rect + dx) (Rect.y rect + dy) =
    [ColorRGB.r c; ColorRGB.g c; ColorRGB.b c; a] ->
  alphaAt (keyedSlice image rect settings) dx dy = Some 0.
Proof.
  intros Hen Hin Hdx Hdy Hpx.
  unfold keyedSlice. cbv zeta. rewrite Hen.
  destruct (keyColors settings) as [|c0 cs] eqn:Hk; [destruct Hin|].
  rewrite <- Hk in *. clear Hk c0 cs.
  set (w := Rect.w rect) in *. set (h := Rect.h rect) in *.
  set (src := region image (Rect.x rect) (Rect.y rect) w h).
  unfold alphaAt. rewrite applyColorKeys_mapAlpha.
  cbn [ImageData.width ImageData.data].
  change (ImageData.width src) with w.
  set (k := Z.to_nat (dy * w + dx)).
  replace (Z.to_nat ((dy * w + dx) * 4 + 3)) with (4 * k + 3)%nat by (unfold k; nia).
  assert (Hlook : forall i : nat, (i < 4)%nat ->
            ImageData.data src !! (4 * k + i)%nat =
            [ColorRGB.r c; ColorRGB.g c; ColorRGB.b c; a] !! i).
  { intros i Hi. rewrite <- Hpx. unfold src.
    rewrite <- (region_lookup image (Rect.x rect) (Rect.y rect) w h dx dy i Hdx Hdy Hi).
    f_equal. unfold k. nia. }
  rewrite (mapAlpha_lookup_alpha _ k _ (ColorRGB.r c) (ColorRGB.g c) (ColorRGB.b c) a).
  - rewrite keyedAlphas_exact; [reflexivity|lia|exact Hin].
  - rewrite <- (Nat.add_0_r (4 * k)). apply (Hlook 0%nat). lia.
  - apply (Hlook 1%nat). lia.
  - apply (Hlook 2%nat). lia.
  - apply (Hlook 3%nat). lia.
Qed.

Lemma handlePickColor_keyColors (hex : string) (settings : AppSettings.t)
    (c : ColorRGB.t) :
  hexToRgb hex = Some c -> In c (keyColors (handlePickColor hex settings)).
Proof.
  intros Hhex. unfold keyColors. apply list_elem_of_In, list_elem_of_omap.
  exists hex. split; [apply list_elem_of_In, handlePickColor_colors|exact Hhex].
Qed.

(** X12. After [handlePickColor] with a colour that [hexToRgb] parses,
    whatever the settings were before, every pixel of a slice whose source
    pixel has exactly that colour is transparent in the keyed slice from
    which [extractFrame] makes the frame. *)
Theorem picked_colour_is_keyed_out (image : ImageData.t) (rect : Rect.t)
    (settings : AppSettings.t) (hex : string) (c : ColorRGB.t) (dx dy a : Z) :
  hexToRgb hex = Some c ->
  0 <= dx < Rect.w rect -> 0 <= dy < Rect.h rect ->
  pixelAt image (Rect.x rect + dx) (Rect.y rect + dy) =
    [ColorRGB.r c; ColorRGB.g c; ColorRGB.b c; a] ->
  alphaAt (keyedSlice image rect (handlePickColor hex settings)) dx dy = Some 0.
Proof.
  intros Hhex Hdx Hdy Hpx.
  apply (keyedSlice_key_colour image rect _ c dx dy a); try assumption.
  - reflexivity.
  - now apply handlePickColor_keyColors.
Qed.

Lemma picked_colour_is_keyed_out_witness :
  alphaAt
    (keyedSlice (ImageData.mk 2 1 [0; 255; 0; 255; 9; 9; 9; 255])
       (Rect.mk "grid-0" 0 0 2 1)
       (handlePickColor "#00ff00"
          (AppSettings.mk ModeGrid (Grid.mk 2 1 0 0 0 0) (Islands.mk 5 5)
             (Processing.mk false false ["#ff00ff"%string] 10 0))))
    0 0 = Some 0.
Proof.
  apply (picked_colour_is_keyed_out
           (ImageData.mk 2 1 [0; 255; 0; 255; 9; 9; 9; 255])
           (Rect.mk "grid-0" 0 0 2 1)
           (AppSettings.mk ModeGrid (Grid.mk 2 1 0 0 0 0) (Islands.mk 5 5)
              (Processing.mk false false ["#ff00ff"%string] 10 0))
           "#00ff00" (ColorRGB.mk 0 255 0) 0 0 255);
    try reflexivity; cbn; lia.
Defined.

(** X13. When the corners of the image are uniform as in X11,
    [handleAutoDetectColor] leaves settings under which every pixel of a
    slice whose source pixel has the corner colour is transparent in the
    keyed slice of [extractFrame]. *)
Theorem auto_detected_background_is_keyed_out
    (image : ImageData.t) (rect : Rect.t) (settings : AppSettings.t)
    (r0 g0 b0 a0 dx dy a : Z) :
  isByte r0 -> isByte g0 -> isByte b0 ->
  0 < ImageData.width image -> 0 < ImageData.height image ->
  pixelAt image 0 0 = [r0; g0; b0; a0] -> a0 <> 0 ->
  (forall x y, sampled image x y ->
     exists a, pixelAt image x y = [r0; g0; b0; a] \/
               exists r g b, pixelAt image x y = [r; g; b; 0]) ->
  0 <= dx < Rect.w rect -> 0 <= dy < Rect.h rect ->
  pixelAt image (Rect.x rect + dx) (Rect.y rect + dy) = [r0; g0; b0; a] ->
  alphaAt (keyedSlice image rect (handleAutoDetectColor true image settings))
    dx dy = Some 0.
Proof.
  intros Hr Hg Hb HW HH H00 Ha0 Hbg Hdx Hdy Hpx.
  unfold handleAutoDetectColor.
  destruct (detectBackgroundColor_uniform image r0 g0 b0 a0 HW HH H00 Ha0 Hbg)
    as (n & Hn & ->).
  apply (keyedSlice_key_colour image rect _ (ColorRGB.mk r0 g0 b0) dx dy a);
    try assumption.
  - reflexivity.
  - apply handlePickColor_keyColors. now apply meanOf_parsed.
Qed.

Lemma auto_detected_background_is_keyed_out_witness :
  alphaAt
    (keyedSlice (ImageData.mk 2 1 [10; 20; 30; 255; 1; 2; 3; 0])
       (Rect.mk "grid-0" 0 0 2 1)
       (handleAutoDetectColor true (ImageData.mk 2 1 [10; 20; 30; 255; 1; 2; 3; 0])
          (AppSettings.mk ModeGrid (Grid.mk 2 1 0 0 0 0) (Islands.mk 5 5)
             (Processing.mk false false [] 10 0))))
    0 0 = Some 0.
Proof.
  apply (auto_detected_background_is_keyed_out
           (ImageData.mk 2 1 [10; 20; 30; 255; 1; 2; 3; 0])
           (Rect.mk "grid-0" 0 0 2 1)
           (AppSettings.mk ModeGrid (Grid.mk 2 1 0 0 0 0) (Islands.mk 5 5)
              (Processing.mk false false [] 10 0))
           10 20 30 255 0 0 255);
    try (unfold isByte; lia); try (cbn; lia); try reflexivity.
  intros x y [[Hx Hy] _]. cbn in Hx, Hy.
  assert (y = 0) by lia. assert (x = 0 \/ x = 1) as [-> | ->] by lia; subst y.
  - exists 255. left. reflexivity.
  - exists 0. right. exists 1, 2, 3. reflexivity.
Defined.

(** ** Frame generation and deletion *)

Lemma fold_add_elem (ids : list string) (h : gset string) (x : string) :
  x ∈ fold_left (fun next id => {[ id ]} ∪ next) ids h <-> x ∈ h \/ In x ids.
Proof.
  revert h. induction ids as [|i ids IH]; intros h; cbn [fold_left].
  - cbn. tauto.
  - rewrite IH, elem_of_union, elem_of_singleton. cbn [In].
    intuition (subst; auto).
Qed.

Lemma omap_sublist {A B K : Type} (f : A -> option B) (ka : A -> K) (kb : B -> K)
    (l : list A) :
  (forall a b, f a = Some b -> kb b = ka a) ->
  sublist (map kb (omap f l)) (map ka l).
Proof.
  intros Hk. induction l as [|a l IH]; [constructor|].
  cbn [omap list_omap map]. destruct (f a) as [b|] eqn:E.
  - cbn [map]. rewrite (Hk a b E). now constructor.
  - now constructor.
Qed.

Lemma extractFrame_rect {Blob : Type} (dom : Dom Blob) (image : ImageData.t)
    (r : Rect.t) (settings : AppSettings.t) (f : FrameData Blob) :
  extractFrame dom image r settings = Some f -> id f = Rect.id r /\ rect f = r.
Proof.
  unfold extractFrame.
  destruct (context2d dom); [|discriminate]. cbn [negb].
  destruct (getTrimmedBounds _) as [bounds|]; [|discriminate].
  destruct (Processing.autoTrim _).
  - destruct (trimmedContext2d dom); [|discriminate]. cbn [negb].
    destruct (toBlob dom _) as [bl|]; [|discriminate].
    intros [= <-]. split; reflexivity.
  - destruct (toBlob dom _) as [bl|]; [|discriminate].
    intros [= <-]. split; reflexivity.
Qed.

Lemma in_visibleRects (rects manual : list Rect.t) (hidden : gset string) (r : Rect.t) :
  In r (visibleRects rects manual hidden) <->
  (In r rects \/ In r manual) /\ (Rect.id r ∉ hidden).
Proof.
  unfold visibleRects. rewrite filter_In, in_app_iff, negb_true_iff, bool_decide_eq_false.
  reflexivity.
Qed.

(** X14. After a run of [generate], the frames are made from the visible
    rectangles in their order: the ids of the frames form a subsequence
    of the ids of the automatic rectangles followed by the manual ones,
    hidden ids left out; every frame carries the id of its rectangle; and
    the manual rectangles and the hidden ids are unchanged. *)
Theorem generate_frames_follow_rects {Blob : Type} (fuel : nat) (dom : Dom Blob)
    (context2d : bool) (image : ImageData.t) (settings : AppSettings.t)
    (st st' : AppState Blob) :
  generate fuel dom context2d image settings st = Some st' ->
  exists rects cache,
    sourceRects fuel context2d image settings (islandRects st) = Some (rects, cache) /\
    manualRects st' = manualRects st /\
    hiddenRectIds st' = hiddenRectIds st /\
    sublist (map id (generatedFrames st'))
      (map Rect.id (visibleRects rects (manualRects st) (hiddenRectIds st))) /\
    forall f, In f (generatedFrames st') ->
      id f = Rect.id (rect f) /\ (id f ∉ hiddenRectIds st) /\
      (In (rect f) rects \/ In (rect f) (manualRects st)).
Proof.
  unfold generate.
  destruct (sourceRects _ _ _ _ _) as [[rects cache]|]; [|discriminate].
  intros [= <-]. exists rects, cache. cbn [manualRects hiddenRectIds generatedFrames].
  split; [reflexivity|]. split; [reflexivity|]. split; [reflexivity|]. split.
  - apply omap_sublist. intros r f Hf. now apply extractFrame_rect in Hf.
  - intros f Hf. apply list_elem_of_In, list_elem_of_omap in Hf as (r & Hr & Hf).
    apply list_elem_of_In, in_visibleRects in Hr as [Hin Hhid].
    apply extractFrame_rect in Hf as [Hid Hrect]. rewrite Hrect, Hid. auto.
Qed.

Lemma generate_frames_follow_rects_witness :
  let dom := mkDom true true (fun _ : ImageData.t => Some tt)
               (fun _ => "blob:1"%string) in
  let img := ImageData.mk 2 1 [255; 0; 0; 255; 0; 0; 0; 0] in
  let settings :=
    AppSettings.mk ModeManual (Grid.mk 32 32 0 0 0 0) (Islands.mk 5 5)
      (Processing.mk false false [] 10 0) in
  let r1 := Rect.mk "manual-1" 0 0 1 1 in
  let r2 := Rect.mk "manual-2" 1 0 1 1 in
  let st := mkApp [r1; r2] [] ∅ [] None in
  let st' :=
    mkApp [r1; r2] [] ∅
      [mkFrame "manual-1"%string tt "blob:1"%string r1 (Point.mk 0 0)
         (Size.mk 1 1) (Size.mk 1 1)] None in
  generate 1 dom true img settings st = Some st' /\
  exists rects cache,
    sourceRects 1 true img settings (islandRects st) = Some (rects, cache) /\
    manualRects st' = manualRects st /\
    hiddenRectIds st' = hiddenRectIds st /\
    sublist (map id (generatedFrames st'))
      (map Rect.id (visibleRects rects (manualRects st) (hiddenRectIds st))) /\
    forall f, In f (generatedFrames st') ->
      id f = Rect.id (rect f) /\ (id f ∉ hiddenRectIds st) /\
      (In (rect f) rects \/ In (rect f) (manualRects st)).
Proof.
  cbv zeta. split; [reflexivity|].
  apply (generate_frames_follow_rects 1
           (mkDom true true (fun _ : ImageData.t => Some tt)
              (fun _ => "blob:1"%string))
           true (ImageData.mk 2 1 [255; 0; 0; 255; 0; 0; 0; 0])
           (AppSettings.mk ModeManual (Grid.mk 32 32 0 0 0 0) (Islands.mk 5 5)
              (Processing.mk false false [] 10 0))).
  reflexivity.
Defined.

Lemma gridRow_autoId (imgWidth : Z) (grid : Grid.t) (y : Z) (fuel : nat) :
  forall (x : Z) (idCounter : nat) (rects : list Rect.t) x' id' rects',
    Forall autoId rects ->
    gridRow imgWidth grid fuel x y idCounter rects = Some (x', id', rects') ->
    Forall autoId rects'.
Proof.
  induction fuel as [|fuel IH]; intros x idCounter rects x' id' rects' HF Hrun;
    [discriminate|].
  cbn [gridRow] in Hrun. destruct (_ <=? _).
  - apply IH in Hrun; [exact Hrun|].
    apply Forall_app. split; [exact HF|]. constructor; [reflexivity|constructor].
  - injection Hrun as <- <- <-. exact HF.
Qed.

Lemma gridRows_autoId (imgWidth imgHeight : Z) (grid : Grid.t) (n fuel : nat) :
  forall (x y : Z) (idCounter : nat) (rects rects' : list Rect.t),
    Forall autoId rects ->
    gridRows imgWidth imgHeight grid n fuel x y idCounter rects = Some rects' ->
    Forall autoId rects'.
Proof.
  induction fuel as [|fuel IH]; intros x y idCounter rects rects' HF Hrun;
    [discriminate|].
  cbn [gridRows] in Hrun. destruct (_ <=? _).
  - destruct (gridRow imgWidth grid n x y idCounter rects)
      as [[[x1 id1] rects1]|] eqn:Hrow; [|discriminate].
    apply IH in Hrun; [exact Hrun|].
    apply (gridRow_autoId _ _ _ _ _ _ _ _ _ _ HF Hrow).
  - injection Hrun as <-. exact HF.
Qed.

Lemma calculateGridRects_autoId (fuel : nat) (imgWidth imgHeight : Z)
    (grid : Grid.t) (rects : list Rect.t) :
  calculateGridRects fuel imgWidth imgHeight grid = Some rects ->
  Forall autoId rects.
Proof.
  unfold calculateGridRects. destruct (_ || _).
  - intros [= <-]. constructor.
  - apply gridRows_autoId. constructor.
Qed.

Lemma detectIslands_autoId (im : ImageData.t) (minWidth minHeight : Z)
    (rects : list Rect.t) :
  detectIslands im minWidth minHeight = Some rects -> Forall autoId rects.
Proof.
  intros Hrun.
  destruct (detectIslands_scan im minWidth minHeight) as (s & Hs & Hinv & Hempty).
  rewrite Hs in Hrun. injection Hrun as <-.
  destruct (Z.le_gt_cases (ImageData.width im) 0) as [HW|HW];
    [rewrite Hempty by lia; constructor|].
  destruct (Z.le_gt_cases (ImageData.height im) 0) as [HH|HH];
    [rewrite Hempty by lia; constructor|].
  destruct (Hinv ltac:(lia) ltac:(lia)) as [_ _ Hids _ _].
  apply List.Forall_forall. intros r Hr.
  apply (in_map Rect.id) in Hr. rewrite Hids in Hr.
  apply in_map_iff in Hr as (k & Hk & _). unfold autoId. rewrite <- Hk. reflexivity.
Qed.

Lemma sourceRects_autoId (fuel : nat) (context2d : bool) (image : ImageData.t)
    (settings : AppSettings.t) (cache rects cache' : list Rect.t) :
  Forall autoId cache ->
  sourceRects fuel context2d image settings cache = Some (rects, cache') ->
  Forall autoId rects.
Proof.
  intros Hc. unfold sourceRects. destruct (AppSettings.mode settings).
  - destruct (calculateGridRects _ _ _ _) as [rs|] eqn:E; [|discriminate].
    intros [= <- <-]. now apply calculateGridRects_autoId in E.
  - destruct cache as [|c cache].
    + destruct context2d.
      * cbv zeta. destruct (detectIslands _ _ _) as [rs|] eqn:E; [|discriminate].
        intros [= <- <-]. now apply detectIslands_autoId in E.
      * intros [= <- <-]. constructor.
    + intros [= <- <-]. exact Hc.
  - intros [= <- <-]. constructor.
Qed.

(** X15. A deleted frame does not come back: when no cached island
    rectangle carries a [manual-] id, a run of [generate] on the state
    left by [handleDeleteFrames ids] returns no frame whose id is in
    [ids], in any mode. *)
Theorem deleted_frames_do_not_return {Blob : Type} (fuel : nat) (dom : Dom Blob)
    (context2d : bool) (image : ImageData.t) (settings : AppSettings.t)
    (ids : list string) (st st' : AppState Blob) :
  Forall autoId (islandRects st) ->
  generate fuel dom context2d image settings (handleDeleteFrames ids st) = Some st' ->
  forall f, In f (generatedFrames st') -> ~ In (id f) ids.
Proof.
  intros Hcache Hgen f Hf Hid.
  unfold generate in Hgen. cbn [handleDeleteFrames islandRects manualRects hiddenRectIds] in Hgen.
  destruct (sourceRects _ _ _ _ _) as [[rects cache]|] eqn:Hsrc; [|discriminate].
  injection Hgen as <-. cbn [generatedFrames] in Hf.
  apply list_elem_of_In, list_elem_of_omap in Hf as (r & Hr & Hf).
  apply extractFrame_rect in Hf as [Hfid _]. rewrite Hfid in Hid.
  apply list_elem_of_In, in_visibleRects in Hr as [Hin Hhid].
  pose proof (sourceRects_autoId _ _ _ _ _ _ _ Hcache Hsrc) as Hauto.
  destruct (startsWith (Rect.id r) "manual-") eqn:Hm.
  - destruct Hin as [Hin|Hin].
    + rewrite List.Forall_forall in Hauto. specialize (Hauto r Hin).
      unfold autoId in Hauto. congruence.
    + assert (Hmid : In (Rect.id r)
                (List.filter (fun id => startsWith id "manual-") ids))
        by (apply filter_In; auto).
      destruct (List.filter (fun id => startsWith id "manual-") ids) as [|i0 is0] eqn:E;
        [destruct Hmid|].
      apply filter_In in Hin as [_ Hkeep].
      apply negb_true_iff in Hkeep.
      apply includes_In in Hmid. congruence.
  - assert (Haid : In (Rect.id r)
              (List.filter (fun id => negb (startsWith id "manual-")) ids))
      by (apply filter_In; rewrite Hm; auto).
    destruct (List.filter (fun id => negb (startsWith id "manual-")) ids)
      as [|i0 is0] eqn:E; [destruct Haid|].
    apply Hhid. apply fold_add_elem. now right.
Qed.

(** Two browsers that obtain the same contexts and encode the same
    canvases extract frames that agree apart from blob and URL. *)
Lemma extractFrame_geometry {Blob : Type} (dom dom' : Dom Blob)
    (image : ImageData.t) (settings : AppSettings.t) (r : Rect.t) :
  context2d dom' = context2d dom ->
  trimmedContext2d dom' = trimmedContext2d dom ->
  (forall canvas, toBlob dom' canvas = None <-> toBlob dom canvas = None) ->
  option_map frameGeometry (extractFrame dom' image r settings) =
  option_map frameGeometry (extractFrame dom image r settings) /\
  ((forall canvas, toBlob dom' canvas = toBlob dom canvas) ->
   option_map blob (extractFrame dom' image r settings) =
   option_map blob (extractFrame dom image r settings)).
Proof.
  intros Hc Ht Hb. unfold extractFrame. rewrite Hc, Ht.
  destruct (context2d dom); cbn [negb]; [|split; reflexivity].
  destruct (getTrimmedBounds _) as [bounds|]; [|split; reflexivity].
  destruct (Processing.autoTrim _).
  - destruct (trimmedContext2d dom); cbn [negb]; [|split; reflexivity].
    split.
    + specialize (Hb (region (keyedSlice image r settings) (Bounds.x bounds)
                        (Bounds.y bounds) (Bounds.w bounds) (Bounds.h bounds))).
      destruct (toBlob dom' _), (toBlob dom _); try reflexivity;
        exfalso; destruct Hb as [H1 H2];
        [specialize (H2 eq_refl)|specialize (H1 eq_refl)]; discriminate.
    + intros Heq. rewrite Heq. destruct (toBlob dom _); reflexivity.
  - split.
    + specialize (Hb (keyedSlice image r settings)).
      destruct (toBlob dom' _), (toBlob dom _); try reflexivity;
        exfalso; destruct Hb as [H1 H2];
        [specialize (H2 eq_refl)|specialize (H1 eq_refl)]; discriminate.
    + intros Heq. rewrite Heq. destruct (toBlob dom _); reflexivity.
Qed.

Lemma omap_extractFrame_fields {Blob A : Type} (g : FrameData Blob -> A)
    (dom dom' : Dom Blob) (image : ImageData.t) (settings : AppSettings.t)
    (rects : list Rect.t) :
  (forall r, option_map g (extractFrame dom' image r settings) =
             option_map g (extractFrame dom image r settings)) ->
  map g (omap (fun r => extractFrame dom' image r settings) rects) =
  map g (omap (fun r => extractFrame dom image r settings) rects).
Proof.
  intros Hg. induction rects as [|r rects IH]; [reflexivity|].
  cbn [omap list_omap]. specialize (Hg r).
  destruct (extractFrame dom' image r settings),
           (extractFrame dom image r settings);
    cbn [option_map] in Hg; try discriminate.
  - cbn [map]. injection Hg as Hg. now rewrite Hg, IH.
  - exact IH.
Qed.

(** The rectangles that a run of [generate] works on are those of the
    next run: the island cache it leaves is the list it has detected. *)
Lemma sourceRects_again (fuel : nat) (context2d : bool) (image : ImageData.t)
    (settings : AppSettings.t) (cache0 rects cache : list Rect.t) :
  sourceRects fuel context2d image settings cache0 = Some (rects, cache) ->
  sourceRects fuel context2d image settings cache = Some (rects, cache).
Proof.
  intros Hsrc. unfold sourceRects in *. destruct (AppSettings.mode settings).
  - destruct (calculateGridRects _ _ _ _) as [rs|]; [|discriminate].
    now injection Hsrc as <- <-.
  - destruct cache0 as [|c0 cs].
    + destruct context2d.
      * cbv zeta in *. destruct (detectIslands _ _ _) as [rs|] eqn:E; [|discriminate].
        injection Hsrc as <- <-. destruct rs; reflexivity.
      * now injection Hsrc as <- <-.
    + now injection Hsrc as <- <-.
  - now injection Hsrc as <- <-.
Qed.

(** X16. Generating again changes nothing but the blobs and the object
    URLs, which the browser makes anew: a run of [generate] on the state
    that a run of [generate] has left, with the same image and settings
    and a browser that obtains the same contexts and encodes the same
    canvases, returns the same manual rectangles, island cache, hidden
    ids and selection, and frames that agree one for one in id,
    rectangle, trim offset, trimmed size and original size; the blobs
    agree too when the encoder returns the same blob for the same
    canvas. *)
Theorem generate_is_stable {Blob : Type} (fuel : nat) (dom dom' : Dom Blob)
    (imageContext : bool) (image : ImageData.t) (settings : AppSettings.t)
    (st st' : AppState Blob) :
  context2d dom' = context2d dom ->
  trimmedContext2d dom' = trimmedContext2d dom ->
  (forall canvas, toBlob dom' canvas = None <-> toBlob dom canvas = None) ->
  generate fuel dom imageContext image settings st = Some st' ->
  exists st'',
    generate fuel dom' imageContext image settings st' = Some st'' /\
    manualRects st'' = manualRects st' /\
    islandRects st'' = islandRects st' /\
    hiddenRectIds st'' = hiddenRectIds st' /\
    selectedRectId st'' = selectedRectId st' /\
    map frameGeometry (generatedFrames st'') =
    map frameGeometry (generatedFrames st') /\
    ((forall canvas, toBlob dom' canvas = toBlob dom canvas) ->
     map blob (generatedFrames st'') = map blob (generatedFrames st')).
Proof.
  intros Hc Ht Hb. unfold generate.
  destruct (sourceRects fuel imageContext image settings (islandRects st))
    as [[rects cache]|] eqn:Hsrc; [|discriminate].
  intros [= <-]. cbn [islandRects manualRects hiddenRectIds selectedRectId].
  rewrite (sourceRects_again _ _ _ _ _ _ _ Hsrc).
  eexists. split; [reflexivity|].
  cbn [islandRects manualRects hiddenRectIds selectedRectId generatedFrames].
  repeat (split; [reflexivity|]). split.
  - apply omap_extractFrame_fields. intros r.
    now apply extractFrame_geometry.
  - intros Heq. apply omap_extractFrame_fields. intros r.
    now apply extractFrame_geometry.
Qed.

Lemma deleted_frames_do_not_return_witness :
  let dom := mkDom true true (fun _ : ImageData.t => Some tt)
               (fun _ => "blob:1"%string) in
  let img := ImageData.mk 2 1 [255; 0; 0; 255; 0; 255; 0; 255] in
  let settings :=
    AppSettings.mk ModeGrid (Grid.mk 1 1 0 0 0 0) (Islands.mk 5 5)
      (Processing.mk false false [] 10 0) in
  let manual := [Rect.mk "manual-7" 0 0 2 1] in
  let frame id r := mkFrame id tt "blob:1"%string r (Point.mk 0 0)
                      (Size.mk (Rect.w r) (Rect.h r)) (Size.mk (Rect.w r) (Rect.h r)) in
  let st := mkApp manual [] ∅ [] None in
  let st' :=
    mkApp [] [] {[ "grid-1"%string ]}
      [frame "grid-0"%string (Rect.mk "grid-0" 0 0 1 1)] None in
  generate 5 dom true img settings
    (handleDeleteFrames ["grid-1"%string; "manual-7"%string] st) = Some st' /\
  forall f, In f (generatedFrames st') ->
    ~ In (id f) ["grid-1"%string; "manual-7"%string].
Proof.
  cbv zeta.
  assert (Hgen :
    generate 5
      (mkDom true true (fun _ : ImageData.t => Some tt) (fun _ => "blob:1"%string))
      true (ImageData.mk 2 1 [255; 0; 0; 255; 0; 255; 0; 255])
      (AppSettings.mk ModeGrid (Grid.mk 1 1 0 0 0 0) (Islands.mk 5 5)
         (Processing.mk false false [] 10 0))
      (handleDeleteFrames ["grid-1"%string; "manual-7"%string]
         (mkApp [Rect.mk "manual-7" 0 0 2 1] [] ∅ [] None)) =
    Some (mkApp [] [] {[ "grid-1"%string ]}
            [mkFrame "grid-0"%string tt "blob:1"%string (Rect.mk "grid-0" 0 0 1 1)
               (Point.mk 0 0) (Size.mk 1 1) (Size.mk 1 1)] None)).
  { vm_compute. reflexivity. }
  split; [exact Hgen|].
  exact (deleted_frames_do_not_return 5 _ true _ _
           ["grid-1"%string; "manual-7"%string]
           (mkApp [Rect.mk "manual-7" 0 0 2 1] [] ∅ [] None) _
           (@List.Forall_nil _ autoId) Hgen).
Defined.

Lemma generate_is_stable_witness :
  let dom := mkDom true true (fun _ : ImageData.t => Some tt)
               (fun _ => "blob:1"%string) in
  let dom' := mkDom true true (fun _ : ImageData.t => Some tt)
                (fun _ => "blob:2"%string) in
  let img := ImageData.mk 2 1 [255; 0; 0; 255; 0; 0; 0; 0] in
  let settings :=
    AppSettings.mk ModeIslands (Grid.mk 32 32 0 0 0 0) (Islands.mk 1 1)
      (Processing.mk false false [] 10 0) in
  let island := Rect.mk "island-0" 0 0 1 1 in
  let st' :=
    mkApp [] [island] ∅
      [mkFrame "island-0"%string tt "blob:1"%string island (Point.mk 0 0)
         (Size.mk 1 1) (Size.mk 1 1)] None in
  generate 1 dom true img settings (mkApp [] [] ∅ [] None) = Some st' /\
  exists st'',
    generate 1 dom' true img settings st' = Some st'' /\
    manualRects st'' = manualRects st' /\
    islandRects st'' = islandRects st' /\
    hiddenRectIds st'' = hiddenRectIds st' /\
    selectedRectId st'' = selectedRectId st' /\
    map frameGeometry (generatedFrames st'') =
    map frameGeometry (generatedFrames st') /\
    ((forall canvas, toBlob dom' canvas = toBlob dom canvas) ->
     map blob (generatedFrames st'') = map blob (generatedFrames st')).
Proof.
  cbv zeta.
  assert (Hgen :
    generate 1
      (mkDom true true (fun _ : ImageData.t => Some tt) (fun _ => "blob:1"%string))
      true (ImageData.mk 2 1 [255; 0; 0; 255; 0; 0; 0; 0])
      (AppSettings.mk ModeIslands (Grid.mk 32 32 0 0 0 0) (Islands.mk 1 1)
         (Processing.mk false false [] 10 0))
      (mkApp [] [] ∅ [] None) =
    Some (mkApp [] [Rect.mk "island-0" 0 0 1 1] ∅
            [mkFrame "island-0"%string tt "blob:1"%string (Rect.mk "island-0" 0 0 1 1)
               (Point.mk 0 0) (Size.mk 1 1) (Size.mk 1 1)] None)).
  { vm_compute. reflexivity. }
  split; [exact Hgen|].
  exact (generate_is_stable 1
           (mkDom true true (fun _ : ImageData.t => Some tt) (fun _ => "blob:1"%string))
           (mkDom true true (fun _ : ImageData.t => Some tt) (fun _ => "blob:2"%string))
           true _ _ _ _ eq_refl eq_refl
           (fun canvas => conj (fun H => H) (fun H => H)) Hgen).
Defined.

(** ** Reordering *)

Lemma spliceIn_lookup {A : Type} (i : nat) (x : A) (l : list A) :
  (i <= length l)%nat -> spliceIn i x l !! i = Some x.
Proof.
  intros Hi. unfold spliceIn.
  rewrite lookup_app_r by (rewrite length_take; lia).
  rewrite length_take. replace (i - i `min` length l)%nat with 0%nat by lia.
  reflexivity.
Qed.

Lemma spliceIn_delete {A : Type} (i : nat) (x : A) (l : list A) :
  (i <= length l)%nat -> delete i (spliceIn i x l) = l.
Proof.
  intros Hi. unfold spliceIn.
  rewrite delete_take_drop.
  rewrite take_app_le by (rewrite length_take; lia).
  rewrite take_take. replace (i `min` i)%nat with i by lia.
  rewrite drop_app_ge by (rewrite length_take; lia).
  rewrite length_take. replace (S i - i `min` length l)%nat with 1%nat by lia.
  cbn [drop]. rewrite drop_0. apply take_drop.
Qed.

Lemma spliceIn_of_delete {A : Type} (i : nat) (x : A) (l : list A) :
  l !! i = Some x -> spliceIn i x (delete i l) = l.
Proof.
  intros Hx. unfold spliceIn. rewrite delete_take_drop.
  pose proof (lookup_lt_Some _ _ _ Hx) as Hlt.
  rewrite take_app_le by (rewrite length_take; lia).
  rewrite take_take. replace (i `min` i)%nat with i by lia.
  rewrite drop_app_ge by (rewrite length_take; lia).
  rewrite length_take. replace (i - i `min` length l)%nat with 0%nat by lia.
  rewrite drop_0. apply take_drop_middle, Hx.
Qed.

Lemma handleReorderFrames_facts {A : Type} (undefined : A)
    (fromIndex toIndex : nat) (prev : list A) :
  (fromIndex < length prev)%nat -> (toIndex < length prev)%nat ->
  handleReorderFrames undefined fromIndex toIndex prev !! toIndex = prev !! fromIndex /\
  delete toIndex (handleReorderFrames undefined fromIndex toIndex prev) =
    delete fromIndex prev.
Proof.
  intros Hf Ht. unfold handleReorderFrames.
  destruct (Nat.eqb_spec fromIndex toIndex) as [->|Hne]; [split; reflexivity|].
  cbv zeta. destruct (lookup_lt_is_Some_2 prev fromIndex Hf) as [x Hx].
  rewrite Hx. cbn [default].
  assert (Hlen : (toIndex <= length (delete fromIndex prev))%nat).
  { rewrite length_delete by (rewrite Hx; eauto). lia. }
  split; [now apply spliceIn_lookup|now apply spliceIn_delete].
Qed.

(** X17. For two indices of the list, [handleReorderFrames] puts the
    frame of [fromIndex] at [toIndex] and leaves the other frames in their
    order: removing position [toIndex] from the result gives the list
    without position [fromIndex]; the result has the same length and is a
    permutation of the list. *)
Theorem handleReorderFrames_moves_one_frame {A : Type} (undefined : A)
    (fromIndex toIndex : nat) (prev : list A) :
  (fromIndex < length prev)%nat -> (toIndex < length prev)%nat ->
  let next := handleReorderFrames undefined fromIndex toIndex prev in
  next !! toIndex = prev !! fromIndex /\
  delete toIndex next = delete fromIndex prev /\
  length next = length prev /\
  Permutation next prev.
Proof.
  intros Hf Ht next.
  destruct (handleReorderFrames_facts undefined fromIndex toIndex prev Hf Ht)
    as [Hlook Hdel]. fold next in Hlook, Hdel.
  destruct (lookup_lt_is_Some_2 prev fromIndex Hf) as [x Hx].
  rewrite Hx in Hlook.
  split; [congruence|]. split; [exact Hdel|].
  assert (Hperm : Permutation next prev).
  { rewrite (delete_Permutation next toIndex x Hlook).
    rewrite (delete_Permutation prev fromIndex x Hx).
    now rewrite Hdel. }
  split; [now apply Permutation_length|exact Hperm].
Qed.

(** X18. For two indices of the list, moving a frame from [fromIndex] to
    [toIndex] and then from [toIndex] to [fromIndex] gives the list back. *)
Theorem handleReorderFrames_undo {A : Type} (undefined : A)
    (fromIndex toIndex : nat) (prev : list A) :
  (fromIndex < length prev)%nat -> (toIndex < length prev)%nat ->
  handleReorderFrames undefined toIndex fromIndex
    (handleReorderFrames undefined fromIndex toIndex prev) = prev.
Proof.
  intros Hf Ht.
  destruct (handleReorderFrames_facts undefined fromIndex toIndex prev Hf Ht)
    as [Hlook Hdel].
  destruct (lookup_lt_is_Some_2 prev fromIndex Hf) as [x Hx].
  unfold handleReorderFrames at 1.
  destruct (Nat.eqb_spec toIndex fromIndex) as [->|Hne].
  - unfold handleReorderFrames. now rewrite Nat.eqb_refl.
  - cbv zeta. rewrite Hlook, Hx, Hdel. cbn [default].
    now apply spliceIn_of_delete.
Qed.

Lemma handleReorderFrames_moves_one_frame_witness :
  let next := handleReorderFrames 0%nat 0 2 [10; 20; 30]%nat in
  next = [20; 30; 10]%nat /\
  next !! 2%nat = [10; 20; 30]%nat !! 0%nat /\
  delete 2%nat next = delete 0%nat [10; 20; 30]%nat /\
  length next = length [10; 20; 30]%nat /\
  Permutation next [10; 20; 30]%nat.
Proof.
  cbv zeta. split; [reflexivity|].
  apply (handleReorderFrames_moves_one_frame 0%nat 0 2 [10; 20; 30]%nat);
    cbn; lia.
Defined.

Lemma handleReorderFrames_undo_witness :
  handleReorderFrames 0%nat 2 0 (handleReorderFrames 0%nat 0 2 [10; 20; 30]%nat) =
  [10; 20; 30]%nat.
Proof.
  apply (handleReorderFrames_undo 0%nat 0 2 [10; 20; 30]%nat); cbn; lia.
Defined.

(** ** Export *)

Lemma append_inj_l (p a b : string) : (p ++ a = p ++ b)%string -> a = b.
Proof.
  induction p as [|c p IH]; cbn [String.append]; [auto|].
  intros [= H]. auto.
Qed.

Lemma length_append (a b : string) :
  String.length (a ++ b) = (String.length a + String.length b)%nat.
Proof. induction a as [|c a IH]; cbn [String.append String.length]; [reflexivity|now rewrite IH]. Qed.

Lemma append_inj_r (a b s : string) : (a ++ s = b ++ s)%string -> a = b.
Proof.
  intros H.
  assert (Hlen : String.length a = String.length b).
  { apply (f_equal String.length) in H. rewrite !length_append in H. lia. }
  revert b H Hlen. induction a as [|c a IH]; intros [|d b] H Hlen;
    try discriminate; [reflexivity|].
  cbn [String.append] in H. injection H as -> H. f_equal.
  apply IH; [exact H|]. cbn in Hlen. lia.
Qed.

Lemma readNat_zero (s : string) : readNat (String "0" s) = readNat s.
Proof.
  unfold readNat. cbn [NilEmpty.uint_of_string].
  destruct (NilEmpty.uint_of_string s) as [d|]; reflexivity.
Qed.

Lemma readNat_zeros (k : nat) (s : string) :
  readNat (string_of_list_ascii (repeat "0"%char k) ++ s) = readNat s.
Proof.
  induction k as [|k IH]; [reflexivity|].
  cbn [repeat string_of_list_ascii String.append]. now rewrite readNat_zero.
Qed.

Lemma readNat_padStart (n : nat) (i : nat) :
  readNat (padStart n "0" (decimal i)) = Some i.
Proof.
  unfold padStart. rewrite readNat_zeros. unfold readNat, decimal.
  rewrite NilEmpty.usu, DecimalNat.Unsigned.of_to. reflexivity.
Qed.

Lemma exportFilename_inj (prefix : string) (i j : nat) :
  exportFilename prefix i = exportFilename prefix j -> i = j.
Proof.
  unfold exportFilename. intros H.
  apply append_inj_l in H. cbn [String.append] in H. injection H as H.
  apply append_inj_r in H.
  apply (f_equal readNat) in H. rewrite !readNat_padStart in H. now injection H.
Qed.

(** X19. The file names of an export are pairwise different: for one
    prefix, two frames get the same name only when they have the same
    index, also beyond index 999, where the index is longer than the
    three padded digits; so the names listed in the metadata of an export
    hold no duplicate. *)
Theorem exportFilename_injective {Blob : Type} (prefix : string)
    (generatedFrames : list (FrameData Blob)) :
  (forall i j, exportFilename prefix i = exportFilename prefix j <-> i = j) /\
  NoDup (map FrameMeta.filename (exportMetadata prefix generatedFrames)).
Proof.
  split.
  - intros i j. split; [apply exportFilename_inj|now intros ->].
  - unfold exportMetadata.
    change (map FrameMeta.filename ?l) with (FrameMeta.filename <$> l).
    rewrite fmap_imap.
    rewrite (imap_ext _ (fun j _ => exportFilename prefix (0 + j)))
      by (intros; reflexivity).
    rewrite imap_seq. apply NoDup_fmap_2; [|apply NoDup_seq].
    intros i j. apply exportFilename_inj.
Qed.

(** X20. For a frame returned by [extractFrame], the metadata entry
    written by [handleExport] is consistent: [sheetRect] is the source
    rectangle and [sourceSize] its size; [frame] has the size of
    [spriteSourceSize]; [spriteSourceSize] lies inside [sourceSize];
    [trimmed] is true exactly when the exported image is smaller than the
    rectangle; and with [autoTrim] off [trimmed] is false and
    [spriteSourceSize] is the whole rectangle. *)
Theorem exported_metadata_matches_frame
    (Blob : Type) (dom : Dom Blob) (sourceImage : ImageData.t)
    (r : Rect.t) (settings : AppSettings.t) (f : FrameData Blob)
    (prefix : string) (i : nat) :
  extractFrame dom sourceImage r settings = Some f ->
  let m := frameMetadata prefix i f in
  let s := FrameMeta.spriteSourceSize m in
  FrameMeta.sheetRect m = r /\
  FrameMeta.sourceSize m = Size.mk (Rect.w r) (Rect.h r) /\
  FrameMeta.frame m = Bounds.mk 0 0 (Bounds.w s) (Bounds.h s) /\
  (0 <= Bounds.x s /\ Bounds.x s + Bounds.w s <= Rect.w r) /\
  (0 <= Bounds.y s /\ Bounds.y s + Bounds.h s <= Rect.h r) /\
  (FrameMeta.trimmed m = true <->
   Bounds.w s < Rect.w r \/ Bounds.h s < Rect.h r) /\
  (Processing.autoTrim (AppSettings.processing settings) = false ->
   FrameMeta.trimmed m = false /\
   s = Bounds.mk 0 0 (Rect.w r) (Rect.h r)).
Proof.
  unfold extractFrame.
  destruct (context2d dom); [|discriminate]. cbn [negb].
  destruct (getTrimmedBounds _) as [bounds|] eqn:Hb; [|discriminate].
  destruct (Processing.autoTrim _).
  - destruct (trimmedContext2d dom); [|discriminate]. cbn [negb].
    destruct (toBlob dom _) as [bl|]; [|discriminate].
    intros [= <-]. cbv zeta. unfold frameMetadata.
    cbn [FrameMeta.sheetRect FrameMeta.sourceSize FrameMeta.frame FrameMeta.trimmed
         FrameMeta.spriteSourceSize Bounds.x Bounds.y Bounds.w Bounds.h
         rect trimOffset trimmedSize originalSize Point.x Point.y Size.w Size.h].
    apply getTrimmedBounds_box in Hb as [Hbox _].
    destruct (keyedSlice_size sourceImage r settings) as [Hw Hh].
    rewrite Hw, Hh in Hbox.
    repeat split; try lia; try discriminate.
  - destruct (toBlob dom _) as [bl|]; [|discriminate].
    intros [= <-]. cbv zeta. unfold frameMetadata.
    cbn [FrameMeta.sheetRect FrameMeta.sourceSize FrameMeta.frame FrameMeta.trimmed
         FrameMeta.spriteSourceSize Bounds.x Bounds.y Bounds.w Bounds.h
         rect trimOffset trimmedSize originalSize Point.x Point.y Size.w Size.h].
    rewrite !Z.eqb_refl. cbn [negb orb].
    repeat split; try lia; try discriminate.
Qed.

Lemma exported_metadata_matches_frame_witness :
  let r := Rect.mk "grid-0" 0 0 2 1 in
  let f := mkFrame "grid-0"%string tt "blob:1"%string r (Point.mk 1 0)
             (Size.mk 1 1) (Size.mk 2 1) in
  let m := frameMetadata "sprite" 0 f in
  FrameMeta.filename m = "sprite_000.png"%string /\
  FrameMeta.sheetRect m = r /\
  FrameMeta.sourceSize m = Size.mk 2 1.
Proof.
  cbv zeta. split; [reflexivity|].
  pose proof (exported_metadata_matches_frame unit
                (mkDom true true (fun _ : ImageData.t => Some tt)
                   (fun _ => "blob:1"%string))
                (ImageData.mk 2 1 [0; 0; 0; 0; 255; 0; 0; 255])
                (Rect.mk "grid-0" 0 0 2 1)
                (AppSettings.mk ModeGrid (Grid.mk 2 1 0 0 0 0) (Islands.mk 2 2)
                   (Processing.mk true false [] 10 0))
                (mkFrame "grid-0"%string tt "blob:1"%string
                   (Rect.mk "grid-0" 0 0 2 1) (Point.mk 1 0)
                   (Size.mk 1 1) (Size.mk 2 1))
                "sprite" 0 eq_refl) as H.
  exact (conj (proj1 H) (proj1 (proj2 H))).
Defined.

(** ** The canvas *)

Lemma find_app {A : Type} (f : A -> bool) (l1 l2 : list A) :
  List.find f (l1 ++ l2) =
  match List.find f l1 with Some x => Some x | None => List.find f l2 end.
Proof.
  induction l1 as [|a l1 IH]; [reflexivity|].
  cbn [app List.find]. destruct (f a); [reflexivity|exact IH].
Qed.

Lemma find_is_Some {A : Type} (f : A -> bool) (l : list A) (a : A) :
  In a l -> f a = true -> exists b, List.find f l = Some b.
Proof.
  intros Hin Hf. destruct (List.find f l) as [b|] eqn:E; [now exists b|].
  pose proof (find_none f l E a Hin). congruence.
Qed.

(** X21. Manual rectangles are on top: when the clicked point lies on a
    manual rectangle that is not hidden, the hit test of [handleMouseDown]
    (the reverse [find] over the visible rectangles) yields a manual
    rectangle under the point, whatever automatic rectangles lie there
    too. *)
Theorem manual_rect_wins_the_click (auto manual : list Rect.t)
    (hidden : gset string) (m : Rect.t) (x y : Z) :
  In m manual -> Rect.id m ∉ hidden -> hitRect x y m = true ->
  exists r, clickedRect (visibleRects auto manual hidden) x y = Some r /\
            In r manual /\ (Rect.id r ∉ hidden) /\ hitRect x y r = true.
Proof.
  intros Hin Hvis Hhit. unfold clickedRect, visibleRects.
  rewrite List.filter_app, rev_app_distr, find_app.
  set (vis := fun r : Rect.t => negb (bool_decide (Rect.id r ∈ hidden))).
  destruct (find_is_Some (hitRect x y) (rev (List.filter vis manual)) m)
    as [r Hr].
  - apply in_rev. rewrite rev_involutive. apply filter_In. split; [exact Hin|].
    unfold vis. now rewrite bool_decide_eq_false_2.
  - exact Hhit.
  - rewrite Hr. exists r. split; [reflexivity|].
    apply find_some in Hr as [Hr Hh]. apply in_rev, filter_In in Hr as [Hr Hv].
    unfold vis in Hv. apply negb_true_iff, bool_decide_eq_false in Hv. auto.
Qed.


Lemma manual_rect_wins_the_click_witness :
  exists r,
    clickedRect
      (visibleRects [Rect.mk "grid-0" 0 0 10 10] [Rect.mk "manual-1" 2 2 4 4] ∅)
      3 3 = Some r /\
    In r [Rect.mk "manual-1" 2 2 4 4] /\ (Rect.id r ∉ (∅ : gset string)) /\
    hitRect 3 3 r = true.
Proof.
  apply (manual_rect_wins_the_click [Rect.mk "grid-0" 0 0 10 10]
           [Rect.mk "manual-1" 2 2 4 4] ∅ (Rect.mk "manual-1" 2 2 4 4) 3 3).
  - left. reflexivity.
  - apply not_elem_of_empty.
  - reflexivity.
Defined.

Lemma replaceRect_lookup (newRect : Rect.t) (rects : list Rect.t) (i : nat) (r : Rect.t) :
  rects !! i = Some r ->
  replaceRect newRect rects !! i =
  Some (if String.eqb (Rect.id r) (Rect.id newRect) then newRect else r).
Proof.
  intros Hr. unfold replaceRect.
  change (map ?f rects) with (f <$> rects).
  now rewrite list_lookup_fmap, Hr.
Qed.





Lemma replaceRect_insert (newRect r0 : Rect.t) (rects : list Rect.t) (i : nat) :
  NoDup (map Rect.id rects) -> rects !! i = Some r0 ->
  Rect.id newRect = Rect.id r0 ->
  replaceRect newRect rects = <[i := newRect]> rects.
Proof.
  intros Hnd Hi Hid. apply list_eq. intros j.
  destruct (rects !! j) as [r|] eqn:Hj.
  - rewrite (replaceRect_lookup _ _ _ _ Hj).
    destruct (Nat.eq_dec j i) as [->|Hne].
    + rewrite list_lookup_insert_eq by (apply lookup_lt_Some in Hi; exact Hi).
      rewrite Hi in Hj. injection Hj as <-. rewrite Hid, String.eqb_refl. reflexivity.
    + rewrite list_lookup_insert_ne by congruence. rewrite Hj.
      destruct (String.eqb_spec (Rect.id r) (Rect.id newRect)) as [He|]; [|reflexivity].
      exfalso. apply Hne.
      apply (NoDup_lookup (map Rect.id rects) j i (Rect.id r) Hnd).
      * change (map Rect.id rects) with (Rect.id <$> rects).
        now rewrite list_lookup_fmap, Hj.
      * change (map Rect.id rects) with (Rect.id <$> rects).
        rewrite list_lookup_fmap, Hi. cbn. congruence.
  - rewrite list_lookup_insert_ne.
    + rewrite Hj. unfold replaceRect. change (map ?f rects) with (f <$> rects).
      now rewrite list_lookup_fmap, Hj.
    + intros ->. congruence.
Qed.

(** X23. When the ids of the manual rectangles are pairwise different,
    [updateRect] with a rectangle that carries the id of the manual
    rectangle at position [i] replaces that rectangle and nothing else,
    provided the id starts with [manual-]; a rectangle of the manual list
    whose id does not start with [manual-] cannot be updated. *)
Theorem updateRect_replaces_the_rect {Blob : Type} (newRect r0 : Rect.t)
    (st : AppState Blob) (i : nat) :
  NoDup (map Rect.id (manualRects st)) ->
  manualRects st !! i = Some r0 ->
  Rect.id newRect = Rect.id r0 ->
  (startsWith (Rect.id r0) "manual-" = true ->
   updateRect newRect st =
   mkApp (<[i := newRect]> (manualRects st)) (islandRects st)
     (hiddenRectIds st) (generatedFrames st) (selectedRectId st)) /\
  (startsWith (Rect.id r0) "manual-" = false ->
   manualRects (updateRect newRect st) = manualRects st).
Proof.
  intros Hnd Hi Hid. unfold updateRect. rewrite Hid. split.
  - intros ->. now rewrite (replaceRect_insert newRect r0 _ i Hnd Hi Hid).
  - intros ->. destruct (startsWith (Rect.id r0) "island-"); reflexivity.
Qed.

Lemma updateRect_replaces_the_rect_witness :
  updateRect (Rect.mk "manual-2" 5 5 1 1)
    (mkApp [Rect.mk "manual-1" 0 0 3 3; Rect.mk "manual-2" 4 4 2 2] [] ∅
       ([] : list (FrameData unit)) None) =
  mkApp [Rect.mk "manual-1" 0 0 3 3; Rect.mk "manual-2" 5 5 1 1] [] ∅ [] None.
Proof.
  assert (Hids : NoDup ["manual-1"%string; "manual-2"%string]).
  { apply NoDup_cons. split; [|apply NoDup_singleton].
    intros H. apply list_elem_of_singleton in H. discriminate. }
  apply (proj1 (updateRect_replaces_the_rect (Rect.mk "manual-2" 5 5 1 1)
                  (Rect.mk "manual-2" 4 4 2 2)
                  (mkApp [Rect.mk "manual-1" 0 0 3 3; Rect.mk "manual-2" 4 4 2 2] [] ∅
                     ([] : list (FrameData unit)) None) 1
                  Hids eq_refl eq_refl)).
  reflexivity.
Defined.

(** ** The frame list and the preview *)

Lemma findIndex_spec {A : Type} (p : A -> bool) (l : list A) :
  (findIndex p l = -1 /\ forall a, In a l -> p a = false) \/
  (0 <= findIndex p l /\
   exists a, l !! Z.to_nat (findIndex p l) = Some a /\ p a = true /\
     forall j b, (j < Z.to_nat (findIndex p l))%nat -> l !! j = Some b -> p b = false).
Proof.
  induction l as [|a l IH]; [left; split; [reflexivity|intros a []]|].
  cbn [findIndex]. destruct (p a) eqn:Ea.
  - right. split; [lia|]. exists a. split; [reflexivity|]. split; [exact Ea|].
    intros j b Hj. cbn in Hj. lia.
  - cbv zeta. destruct IH as [[Hm Hall]|(Hpos & b & Hb & Hpb & Hfirst)].
    + left. rewrite Hm. cbn. split; [reflexivity|].
      intros a' [<-|Ha']; auto.
    + right. destruct (Z.ltb_spec (findIndex p l) 0); [lia|].
      split; [lia|]. exists b.
      replace (Z.to_nat (findIndex p l + 1)) with (S (Z.to_nat (findIndex p l))) by lia.
      split; [exact Hb|]. split; [exact Hpb|].
      intros [|j] c Hj Hc; cbn in Hc.
      * now injection Hc as <-.
      * apply (Hfirst j c); [lia|exact Hc].
Qed.

Lemma fold_select {A : Type} (key : A -> string) (frames : list A) (l : list Z)
    (s0 : gset string) (x : string) :
  x ∈ fold_left
        (fun newSelected i =>
           match frameAt frames i with
           | Some f => {[ key f ]} ∪ newSelected
           | None => newSelected
           end) l s0
  <-> x ∈ s0 \/ exists i f, In i l /\ frameAt frames i = Some f /\ key f = x.
Proof.
  revert s0. induction l as [|i l IH]; intros s0; cbn [fold_left].
  - split; [auto|]. intros [H|(i & f & [] & _)]. exact H.
  - rewrite IH. destruct (frameAt frames i) as [f|] eqn:E.
    + rewrite elem_of_union, elem_of_singleton. split.
      * intros [[->|H]|(j & g & Hj & Hg & Hk)]; [right; exists i, f; cbn; auto|auto|].
        right. exists j, g. cbn. auto.
      * intros [H|(j & g & [<-|Hj] & Hg & Hk)]; [auto| |].
        -- rewrite E in Hg. injection Hg as <-. auto.
        -- right. exists j, g. auto.
    + split.
      * intros [H|(j & g & Hj & Hg & Hk)]; [auto|]. right. exists j, g. cbn. auto.
      * intros [H|(j & g & [<-|Hj] & Hg & Hk)]; [auto|congruence|].
        right. exists j, g. auto.
Qed.

(** X25. A shift-click (without ctrl or meta) while an anchor is set
    keeps the anchor and selects exactly the ids of the frames between the
    anchor's position and the clicked index, both included; the anchor's
    position is that of the first frame carrying its id, and [-1] when no
    frame carries it, so that the range then starts at the first frame. *)
Theorem shift_click_selects_the_range {Blob : Type}
    (frames : list (FrameData Blob)) (e : Click.t) (frameId last : string)
    (index : Z) (sel : Selection.t) :
  Click.ctrlKey e = false -> Click.metaKey e = false -> Click.shiftKey e = true ->
  Selection.lastSelectedId sel = Some last -> last <> EmptyString ->
  let sel' := handleFrameClick frames e frameId index sel in
  let anchor := findIndex (fun f => String.eqb (id f) last) frames in
  Selection.lastSelectedId sel' = Some last /\
  ((anchor = -1 /\ forall f, In f frames -> id f <> last) \/
   (exists f, frameAt frames anchor = Some f /\ id f = last)) /\
  forall x, x ∈ Selection.selectedIds sel' <->
    exists i f, Z.min anchor index <= i <= Z.max anchor index /\
                frameAt frames i = Some f /\ id f = x.
Proof.
  intros Hc Hm Hs Hlast Hne. unfold handleFrameClick.
  rewrite Hc, Hm, Hs, Hlast. cbn [orb andb].
  destruct (String.eqb_spec last EmptyString) as [|_]; [contradiction|].
  cbn [negb]. cbv zeta. cbn [Selection.lastSelectedId Selection.selectedIds].
  split; [reflexivity|]. split.
  - destruct (findIndex_spec (fun f : FrameData Blob => String.eqb (id f) last) frames)
      as [[Hm1 Hall]|(Hpos & f & Hf & Hp & _)].
    + left. split; [exact Hm1|]. intros f Hf Hid. specialize (Hall f Hf).
      cbn in Hall. rewrite Hid, String.eqb_refl in Hall. discriminate.
    + right. exists f. unfold frameAt.
      destruct (Z.ltb_spec (findIndex (fun f0 : FrameData Blob => String.eqb (id f0) last) frames) 0);
        [lia|].
      split; [exact Hf|]. now apply String.eqb_eq.
  - intros x. rewrite fold_select. split.
    + intros [H|(i & f & Hi & Hf & Hk)]; [now apply elem_of_empty in H|].
      apply in_between in Hi. exists i, f. split; [lia|auto].
    + intros (i & f & Hi & Hf & Hk). right. exists i, f.
      split; [apply in_between; lia|auto].
Qed.

(** X26. A ctrl- or meta-click toggles the clicked frame and nothing
    else: the frame is selected afterwards exactly when it was not before,
    every other id stays as it was, the frame becomes the anchor, and a
    second such click gives the first selection back. *)
Theorem ctrl_click_toggles {Blob : Type}
    (frames : list (FrameData Blob)) (e : Click.t) (frameId : string)
    (index : Z) (sel : Selection.t) :
  Click.ctrlKey e || Click.metaKey e = true ->
  let sel' := handleFrameClick frames e frameId index sel in
  (frameId ∈ Selection.selectedIds sel' <-> frameId ∉ Selection.selectedIds sel) /\
  (forall x, x <> frameId ->
     (x ∈ Selection.selectedIds sel' <-> x ∈ Selection.selectedIds sel)) /\
  Selection.lastSelectedId sel' = Some frameId /\
  Selection.selectedIds (handleFrameClick frames e frameId index sel') =
    Selection.selectedIds sel.
Proof.
  intros Hc. unfold handleFrameClick. rewrite Hc. cbv zeta.
  cbn [Selection.selectedIds Selection.lastSelectedId].
  destruct (decide (frameId ∈ Selection.selectedIds sel)) as [Hin|Hnin].
  - rewrite (bool_decide_eq_true_2 _ Hin).
    assert (Hout : frameId ∉ Selection.selectedIds sel ∖ {[frameId]}).
    { rewrite elem_of_difference, elem_of_singleton. tauto. }
    rewrite (bool_decide_eq_false_2 _ Hout).
    split; [tauto|]. split.
    { intros x Hx. rewrite elem_of_difference, elem_of_singleton. tauto. }
    split; [reflexivity|].
    apply set_eq. intros x.
    rewrite elem_of_union, elem_of_difference, !elem_of_singleton.
    destruct (decide (x = frameId)) as [->|]; tauto.
  - rewrite (bool_decide_eq_false_2 _ Hnin).
    assert (Hin' : frameId ∈ {[frameId]} ∪ Selection.selectedIds sel).
    { rewrite elem_of_union, elem_of_singleton. tauto. }
    rewrite (bool_decide_eq_true_2 _ Hin').
    split; [tauto|]. split.
    { intros x Hx. rewrite elem_of_union, elem_of_singleton. tauto. }
    split; [reflexivity|].
    apply set_eq. intros x.
    rewrite elem_of_difference, elem_of_union, !elem_of_singleton.
    destruct (decide (x = frameId)) as [->|]; tauto.
Qed.

Lemma shift_click_selects_the_range_witness :
  let f id := mkFrame id tt "blob:1"%string (Rect.mk id 0 0 1 1) (Point.mk 0 0)
                (Size.mk 1 1) (Size.mk 1 1) in
  let frames := [f "a"%string; f "b"%string; f "c"%string] in
  let sel' := handleFrameClick frames (Click.mk false false true) "c" 2
                (Selection.mk {[ "b"%string ]} (Some "b"%string)) in
  Selection.lastSelectedId sel' = Some "b"%string /\
  ("c"%string ∈ Selection.selectedIds sel').
Proof.
  cbv zeta.
  pose proof (shift_click_selects_the_range
                [mkFrame "a"%string tt "blob:1"%string (Rect.mk "a" 0 0 1 1)
                   (Point.mk 0 0) (Size.mk 1 1) (Size.mk 1 1);
                 mkFrame "b"%string tt "blob:1"%string (Rect.mk "b" 0 0 1 1)
                   (Point.mk 0 0) (Size.mk 1 1) (Size.mk 1 1);
                 mkFrame "c"%string tt "blob:1"%string (Rect.mk "c" 0 0 1 1)
                   (Point.mk 0 0) (Size.mk 1 1) (Size.mk 1 1)]
                (Click.mk false false true) "c" "b" 2
                (Selection.mk {[ "b"%string ]} (Some "b"%string))
                eq_refl eq_refl eq_refl eq_refl ltac:(discriminate)) as (H1 & _ & H3).
  split; [exact H1|].
  apply H3. exists 2, (mkFrame "c"%string tt "blob:1"%string (Rect.mk "c" 0 0 1 1)
                         (Point.mk 0 0) (Size.mk 1 1) (Size.mk 1 1)).
  split; [cbn; lia|]. split; reflexivity.
Defined.

Lemma ctrl_click_toggles_witness :
  let frames := ([] : list (FrameData unit)) in
  let sel := Selection.mk {[ "b"%string ]} (Some "b"%string) in
  Selection.selectedIds
    (handleFrameClick frames (Click.mk true false false) "c" 2
       (handleFrameClick frames (Click.mk true false false) "c" 2 sel)) =
  Selection.selectedIds sel.
Proof.
  cbv zeta.
  exact (proj2 (proj2 (proj2 (ctrl_click_toggles ([] : list (FrameData unit))
           (Click.mk true false false) "c" 2
           (Selection.mk {[ "b"%string ]} (Some "b"%string)) eq_refl)))).
Defined.

Lemma nextFrame_range (n c : Z) : 0 < n -> 0 <= c -> 0 <= nextFrame n c < n.
Proof.
  intros Hn Hc. unfold nextFrame. rewrite Z.rem_mod_nonneg by lia.
  apply Z.mod_pos_bound. lia.
Qed.

(** X27. With at least one frame, the index shown by the preview is a
    valid index after every tick, also when it started beyond the list;
    from a valid index [c], [k] ticks lead to [(c + k) mod n], so that the
    preview passes through the frames in order and is back at [c] after
    [n] ticks. *)
Theorem preview_cycles_through_frames (n c : Z) :
  0 < n -> 0 <= c ->
  0 <= nextFrame n c < n /\
  (c < n ->
   forall k : nat, Nat.iter k (nextFrame n) c = (c + Z.of_nat k) mod n) /\
  (c < n -> Nat.iter (Z.to_nat n) (nextFrame n) c = c).
Proof.
  intros Hn Hc. split; [now apply nextFrame_range|].
  assert (Hiter : c < n -> forall k : nat,
            Nat.iter k (nextFrame n) c = (c + Z.of_nat k) mod n).
  { intros Hcn. induction k as [|k IH].
    - change (Nat.iter 0 (nextFrame n) c) with c.
      rewrite Z.add_0_r, Z.mod_small by lia. reflexivity.
    - rewrite Nat.iter_succ, IH. unfold nextFrame.
      rewrite Z.rem_mod_nonneg;
        [|pose proof (Z.mod_pos_bound (c + Z.of_nat k) n Hn); lia|lia].
      rewrite Zplus_mod_idemp_l. f_equal. lia. }
  split; [exact Hiter|].
  intros Hcn. rewrite Hiter by exact Hcn. rewrite Z2Nat.id by lia.
  replace (c + n) with (c + 1 * n) by lia.
  rewrite Z.mod_add by lia. apply Z.mod_small. lia.
Qed.

Lemma preview_cycles_through_frames_witness :
  0 <= nextFrame 3 7 < 3 /\
  Nat.iter 3 (nextFrame 3) 1 = 1.
Proof.
  pose proof (preview_cycles_through_frames 3 7 ltac:(lia) ltac:(lia)) as H7.
  pose proof (preview_cycles_through_frames 3 1 ltac:(lia) ltac:(lia)) as H1.
  exact (conj (proj1 H7) (proj2 (proj2 H1) ltac:(lia))).
Defined.

